(** * Image-to-video generation pipeline: the [generateVideo] handler

    A shallow embedding of [server/src/handlers/generate_video.ts] and of the
    collaborators it drives (the two database tables, the file system, the
    clock, the console and the child encoder process), followed by the
    properties of the handler.

    The handler is asynchronous, sequential code: every [await] is a call to
    a collaborator that either returns or throws.  It is embedded in a state
    and exception monad over a [World]; what the collaborators decide on
    their own (the wall clock, which calls fail, how the database orders rows
    with equal sort keys, how the child process ends) is read from an [Env].
    Every call is recorded in the trace of the world, and the length of the
    trace is the logical time at which the next decision of the environment
    is read.

    The handlers around the pipeline ([uploadImage], [getProjectImages],
    [updateProjectStatus], the download query of the router and the path its
    file server reads) and the callbacks of the client's uploader that assign
    the order indices are embedded after it; their properties, and further
    properties of the pipeline, follow those of the handler.

    Kept abstract: a call that throws leaves the tables and the store as they
    were; directories are known by their full path, and a directory is made
    together with the directories above it; in the pipeline [path.join] is
    applied to segments that need no normalisation; a [numeric] column is
    carried as its text, and what [parseFloat] and [toString] make of it is a
    function of the environment.  Whether a call of the pipeline to the file
    system throws is decided by the environment; the synchronous write of
    [uploadImage], whose path comes from the caller, also throws for a path
    that is a directory or whose directory is missing. *)

From Stdlib Require Import ZArith List Bool Ascii String Lia Permutation Sorted.
From stdpp Require Import base decidable option list gmap strings pretty sorting.

Local Open Scope Z_scope.

(** ** Data model (db/schema.ts) *)

Inductive ProjectStatus : Type := pending | processing | completed | failed.

#[global] Instance ProjectStatus_eq_dec : EqDecision ProjectStatus.
Proof. solve_decision. Defined.

(** A row of [video_projects].  The [numeric] column [duration_per_image] is
    read back by the driver as a decimal string; timestamps are milliseconds. *)
Module VideoProject.
Record row : Type := mk {
  id : Z;
  name : string;
  status : ProjectStatus;
  output_path : option string;
  duration_per_image : string;
  fps : Z;
  created_at : Z;
  updated_at : Z
}.
End VideoProject.

(** A row of [images]. *)
Module Image.
Record row : Type := mk {
  id : Z;
  project_id : Z;
  filename : string;
  file_path : string;
  file_size : Z;
  mime_type : string;
  order_index : Z;
  uploaded_at : Z
}.
End Image.

Record GenerateVideoInput : Type := { project_id : Z }.

(** ** Errors, calls and the world *)

(** A JavaScript [Error] value; only its message is observed. *)
Record JsError : Type := Error { message : string }.

Definition Content : Type := list Byte.byte.

(** The calls the handler makes to its collaborators, as recorded in the
    trace of a run. *)
Inductive Call : Type :=
  | DateNow
  | DbUpdateStatus (pid : Z) (st : ProjectStatus) (out : option string)
  | DbSelectProject (pid : Z)
  | DbSelectImages (pid : Z)
  | FsAccess (p : string)
  | FsMkdir (p : string)
  | FsCopyFile (src dst : string)
  | FsRm (p : string)
  | FsWriteFile (p : string)
  | RequireFfmpegStatic
  | Spawn (bin : string) (args : list string)
  | ConsoleLog (msg : string)
  | ConsoleWarn (msg : string)
  | ConsoleError (msg : string).

Definition is_db_call (c : Call) : bool :=
  match c with
  | DbUpdateStatus _ _ _ | DbSelectProject _ | DbSelectImages _ => true
  | _ => false
  end.

(** How the spawned encoder ends: the ['error'] event, or the ['close'] event
    with its exit code ([None] when the child was killed by a signal), the
    text it wrote to stderr and the file it left at its output argument. *)
Inductive ChildExit : Type :=
  | SpawnFailed (err : JsError)
  | Closed (code : option Z) (stderr : string) (output : option Content).

(** The state the handler reads and writes.  [trace] holds the calls made so
    far, most recent first; its length is the logical time of the next call. *)
Record World : Type := mkWorld {
  projects : list VideoProject.row;
  images : list Image.row;
  files : gmap string Content;
  dirs : gset string;
  trace : list Call
}.

(** What the collaborators decide: the reading of the wall clock, whether a
    call throws, the order in which the database engine visits rows before it
    sorts them, the path exported by [ffmpeg-static], the fate of the child
    process, and the text of a number read with [parseFloat] and printed with
    [toString]. *)
Record Env : Type := mkEnv {
  clock : nat -> Z;
  fault : nat -> Call -> option JsError;
  scan : nat -> list Image.row -> list Image.row;
  ffmpeg_static : string;
  child : nat -> string -> list string -> ChildExit;
  float_text : string -> string
}.

Definition time (w : World) : nat := length (trace w).

Definition record (c : Call) (w : World) : World :=
  mkWorld (projects w) (images w) (files w) (dirs w) (c :: trace w).

Definition set_projects (ps : list VideoProject.row) (w : World) : World :=
  mkWorld ps (images w) (files w) (dirs w) (trace w).

Definition set_files (fs : gmap string Content) (w : World) : World :=
  mkWorld (projects w) (images w) fs (dirs w) (trace w).

Definition set_dirs (ds : gset string) (w : World) : World :=
  mkWorld (projects w) (images w) (files w) ds (trace w).

(** ** The monad of awaited computations *)

Inductive Outcome (A : Type) : Type :=
  | Return (a : A)
  | Throw (e : JsError).
Arguments Return {A} a.
Arguments Throw {A} e.

Definition Async (A : Type) : Type := World -> Outcome A * World.

Definition ret {A} (a : A) : Async A := fun w => (Return a, w).

Definition throw {A} (e : JsError) : Async A := fun w => (Throw e, w).

Definition bind {A B} (m : Async A) (k : A -> Async B) : Async B :=
  fun w =>
    match m w with
    | (Return a, w') => k a w'
    | (Throw e, w') => (Throw e, w')
    end.

(** [try { m } catch (e) { h e }] *)
Definition try_catch {A} (m : Async A) (h : JsError -> Async A) : Async A :=
  fun w =>
    match m w with
    | (Return a, w') => (Return a, w')
    | (Throw e, w') => h e w'
    end.

Notation "'await' x <~ m ;; k" := (bind m (fun x => k))
  (at level 10, x name, m at level 99, k at level 200).
Notation "'exec' m ;; k" := (bind m (fun _ => k))
  (at level 10, m at level 99, k at level 200).

(** ** Strings and paths *)

(** [Number.prototype.toString] on an integer (below 1e21, where JavaScript
    still prints plain decimal digits). *)
Definition toString (n : Z) : string := pretty n.

Fixpoint repeat_char (n : nat) (c : ascii) : string :=
  match n with
  | O => EmptyString
  | S n' => String c (repeat_char n' c)
  end.

(** [s.padStart(n, c)] for a one-character filler. *)
Definition padStart (n : nat) (c : ascii) (s : string) : string :=
  repeat_char (n - String.length s) c +:+ s.

(** [path.join] on segments that need no normalisation (no empty, [.] or [..]
    segment), with the POSIX separator. *)
Definition path_join (a b : string) : string := a +:+ "/" +:+ b.

(** [s.startsWith(p)] *)
Fixpoint starts_with (p s : string) : bool :=
  match p, s with
  | EmptyString, _ => true
  | String a p', String b s' => Ascii.eqb a b && starts_with p' s'
  | String _ _, EmptyString => false
  end.

(** [q] is [d] itself or lies below the directory [d]. *)
Definition within (d q : string) : bool :=
  String.eqb d q || starts_with (d +:+ "/") q.

(** The directories above [p]: the texts before each separator of [p], the
    outermost first; the root is the empty text. *)
Fixpoint parents (p : string) : list string :=
  match p with
  | EmptyString => []
  | String c p' =>
      (if Ascii.eqb c "/" then [EmptyString] else []) ++ map (String c) (parents p')
  end.

(** [p] with the directories above it, the root apart: what
    [mkdir(p, { recursive: true })] leaves in place. *)
Definition with_parents (p : string) : gset string :=
  list_to_set (filter (fun d => d <> "") (parents p) ++ [p]).
Arguments with_parents : simpl never.

(** The directory of [p]: the text before its last separator, when it has
    one. *)
Fixpoint parent_dir (p : string) : option string :=
  match p with
  | EmptyString => None
  | String c p' =>
      match parent_dir p' with
      | Some d => Some (String c d)
      | None => if Ascii.eqb c "/" then Some EmptyString else None
      end
  end.

(** The last segment of [uploads/videos/project_<id>_<ms>.mp4]. *)
Definition output_name (pid ms : Z) : string :=
  "project_" +:+ toString pid +:+ "_" +:+ toString ms +:+ ".mp4".

(** The last segment of [uploads/temp/project_<id>_<ms>]. *)
Definition temp_name (pid ms : Z) : string :=
  "project_" +:+ toString pid +:+ "_" +:+ toString ms.

(** The name of the [i]-th staged frame:
    [`image_${i.toString().padStart(4, '0')}.jpg`]. *)
Definition frame_name (i : nat) : string :=
  "image_" +:+ padStart 4 "0" (toString (Z.of_nat i)) +:+ ".jpg".

(** ** The database queries *)

(** [.set({ status, updated_at })], with [output_path] when the query sets it. *)
Definition set_status (st : ProjectStatus) (out : option string) (t : Z)
    (r : VideoProject.row) : VideoProject.row :=
  VideoProject.mk (VideoProject.id r) (VideoProject.name r) st
    (match out with Some p => Some p | None => VideoProject.output_path r end)
    (VideoProject.duration_per_image r) (VideoProject.fps r)
    (VideoProject.created_at r) t.

Definition update_where (pid : Z) (f : VideoProject.row -> VideoProject.row)
    (rows : list VideoProject.row) : list VideoProject.row :=
  map (fun r => if VideoProject.id r =? pid then f r else r) rows.

(** [.where(eq(videoProjectsTable.id, pid))] *)
Definition project_rows (pid : Z) (rows : list VideoProject.row)
    : list VideoProject.row :=
  List.filter (fun r => VideoProject.id r =? pid) rows.

(** [ORDER BY order_index ASC]: the rows are sorted on that one key and rows
    with equal keys keep the order in which the engine visited them. *)
Fixpoint insert_by_order (x : Image.row) (l : list Image.row) : list Image.row :=
  match l with
  | [] => [x]
  | y :: l' =>
      if Image.order_index x <=? Image.order_index y
      then x :: y :: l'
      else y :: insert_by_order x l'
  end.

Definition order_by_asc (l : list Image.row) : list Image.row :=
  foldr insert_by_order [] l.

(** [.where(eq(imagesTable.project_id, pid))] *)
Definition image_rows (pid : Z) (rows : list Image.row) : list Image.row :=
  List.filter (fun r => Image.project_id r =? pid) rows.

(** The 36 bytes written when the encoder module is missing. *)
Definition placeholderContent : Content :=
  [ Byte.x00; Byte.x00; Byte.x00; Byte.x20; Byte.x66; Byte.x74; Byte.x79; Byte.x70;
    Byte.x69; Byte.x73; Byte.x6f; Byte.x6d; Byte.x00; Byte.x00; Byte.x02; Byte.x00;
    Byte.x69; Byte.x73; Byte.x6f; Byte.x6d; Byte.x69; Byte.x73; Byte.x6f; Byte.x32;
    Byte.x6d; Byte.x70; Byte.x34; Byte.x31; Byte.x00; Byte.x00; Byte.x00; Byte.x08;
    Byte.x66; Byte.x72; Byte.x65; Byte.x65 ].

(** ** The encoder's command line (generateVideoWithFFmpeg, lines 157-190) *)

Definition filter_input (fps : Z) (index : nat) : string :=
  "[" +:+ toString (Z.of_nat index) +:+
  ":v]scale=1920:1080:force_original_aspect_ratio=decrease,pad=1920:1080:(ow-iw)/2:(oh-ih)/2,setpts=PTS-STARTPTS,fps=" +:+
  toString fps +:+ "[v" +:+ toString (Z.of_nat index) +:+ "]".

Definition concat_input (index : nat) : string :=
  "[v" +:+ toString (Z.of_nat index) +:+ "]".

Definition filterComplex (imagePaths : list string) (fps : Z) : string :=
  let indices := seq 0 (length imagePaths) in
  String.concat ";"
    (map (filter_input fps) indices ++
     [ String.concat "" (map concat_input indices) +:+ "concat=n=" +:+
       toString (Z.of_nat (length imagePaths)) +:+ ":v=1:a=0,format=yuv420p[outv]" ]).

Definition ffmpeg_args (imagePaths : list string) (outputPath durationText : string)
    (fps : Z) : list string :=
  concat (map (fun imagePath => ["-loop"; "1"; "-t"; durationText; "-i"; imagePath])
              imagePaths) ++
  [ "-filter_complex"; filterComplex imagePaths fps; "-map"; "[outv]";
    "-c:v"; "libx264"; "-pix_fmt"; "yuv420p"; "-r"; toString fps; "-y"; outputPath ].

(** [`${code}`] for the exit code of the ['close'] event. *)
Definition code_text (code : option Z) : string :=
  match code with
  | Some c => toString c
  | None => "null"
  end.

(** What one attempt works with once steps 1 to 5 are through. *)
Record Attempt : Type := mkAttempt {
  project : VideoProject.row;
  frames : list Image.row;
  outputPath : string;
  tempDir : string
}.

Section Handler.
Context (env : Env).

(** *** Collaborators *)

(** A call that its collaborator may fail. *)
Definition call (c : Call) : Async unit :=
  fun w =>
    match fault env (time w) c with
    | Some e => (Throw e, record c w)
    | None => (Return tt, record c w)
    end.

(** [console.log], [console.warn], [console.error] *)
Definition console (c : Call) : Async unit :=
  fun w => (Return tt, record c w).

(** [Date.now()] and [new Date()] *)
Definition now : Async Z :=
  fun w => (Return (clock env (time w)), record DateNow w).

(** [db.update(videoProjectsTable).set({ status, output_path?, updated_at:
    new Date() }).where(eq(id, pid)).returning().execute()] *)
Definition db_update_status (pid : Z) (st : ProjectStatus) (out : option string)
    : Async (list VideoProject.row) :=
  await t <~ now ;;
  exec call (DbUpdateStatus pid st out) ;;
  fun w =>
    let rows := update_where pid (set_status st out t) (projects w) in
    (Return (project_rows pid rows), set_projects rows w).

Definition db_select_project (pid : Z) : Async (list VideoProject.row) :=
  exec call (DbSelectProject pid) ;;
  fun w => (Return (project_rows pid (projects w)), w).

Definition db_select_images (pid : Z) : Async (list Image.row) :=
  fun w =>
    let visited := scan env (time w) (images w) in
    (exec call (DbSelectImages pid) ;;
     ret (order_by_asc (image_rows pid visited))) w.

Definition exists_path (p : string) (w : World) : bool :=
  bool_decide (is_Some (files w !! p)) || bool_decide (p ∈ dirs w).

Definition fs_access (p : string) : Async unit :=
  exec call (FsAccess p) ;;
  fun w =>
    if exists_path p w then (Return tt, w)
    else (Throw (Error ("ENOENT: no such file or directory, access '" +:+ p +:+ "'")), w).

(** [fs.mkdir(p, { recursive: true })]: [p] is made with every directory
    above it that is missing, and a directory that exists is left as it is. *)
Definition fs_mkdir (p : string) : Async unit :=
  exec call (FsMkdir p) ;;
  fun w => (Return tt, set_dirs (with_parents p ∪ dirs w) w).

Definition fs_copyFile (src dst : string) : Async unit :=
  exec call (FsCopyFile src dst) ;;
  fun w =>
    match files w !! src with
    | Some c => (Return tt, set_files (<[ dst := c ]> (files w)) w)
    | None =>
        (Throw (Error ("ENOENT: no such file or directory, copyfile '" +:+ src +:+ "'")), w)
    end.

(** [fs.rm(p, { recursive: true, force: true })] *)
Definition fs_rm (p : string) : Async unit :=
  exec call (FsRm p) ;;
  fun w =>
    (Return tt,
     set_dirs (filter (fun q => within p q = false) (dirs w))
       (set_files (filter (fun kv => within p kv.1 = false) (files w)) w)).

(** [fs.writeFile(p, c)] of [fs/promises], which the pipeline calls on the
    output path it has allocated, in the directory that step 5 has made;
    that the write throws is a fault of the call. *)
Definition fs_writeFile (p : string) (c : Content) : Async unit :=
  exec call (FsWriteFile p) ;;
  fun w => (Return tt, set_files (<[ p := c ]> (files w)) w).

(** *** generateVideoWithFFmpeg *)

(** The listeners on the child: ['error'] rejects, ['close'] resolves on
    exit code 0 and rejects otherwise. *)
Definition await_child (bin : string) (args : list string) (outputPath : string)
    : Async unit :=
  fun w =>
    match child env (time w) bin args with
    | SpawnFailed error =>
        (exec console (ConsoleError "Failed to start ffmpeg process:") ;;
         throw (Error ("Failed to start ffmpeg: " +:+ message error))) w
    | Closed code stderr output =>
        let w' :=
          match output with
          | Some c => set_files (<[ outputPath := c ]> (files w)) w
          | None => w
          end in
        match code with
        | Some 0 =>
            (exec console (ConsoleLog "Video generation completed successfully") ;;
             ret tt) w'
        | _ =>
            (exec console (ConsoleError "FFmpeg process exited with code:") ;;
             exec console (ConsoleError "FFmpeg stderr:") ;;
             throw (Error ("FFmpeg process failed with exit code " +:+ code_text code +:+
                           ": " +:+ stderr))) w'
        end
    end.

(** The [try] block up to the spawn, and the [catch (requireError)] block
    that writes the placeholder.  [Some] carries the spawned command. *)
Definition start_encoder (imagePaths : list string) (outputPath durationText : string)
    (fps : Z) : Async (option (string * list string)) :=
  try_catch
    (exec call RequireFfmpegStatic ;;
     let ffmpeg := ffmpeg_static env in
     let args := ffmpeg_args imagePaths outputPath durationText fps in
     exec console (ConsoleLog "Starting ffmpeg with args:") ;;
     exec call (Spawn ffmpeg args) ;;
     ret (Some (ffmpeg, args)))
    (fun requireError =>
     exec console (ConsoleWarn "ffmpeg-static not available, creating placeholder video file") ;;
     exec console (ConsoleWarn "To enable actual video generation, add ffmpeg-static to package.json dependencies") ;;
     exec fs_writeFile outputPath placeholderContent ;;
     ret None).

Definition generateVideoWithFFmpeg (imagePaths : list string) (outputPath : string)
    (durationPerImage : string) (fps : Z) : Async unit :=
  await started <~
    start_encoder imagePaths outputPath (float_text env durationPerImage) fps ;;
  match started with
  | Some (bin, args) => await_child bin args outputPath
  | None => ret tt
  end.

(** *** generateVideo *)

(** Step 4: [for (const image of images) { try { await fs.access(...) }
    catch { throw new Error(...) } }] *)
Fixpoint verify_images (images : list Image.row) : Async unit :=
  match images with
  | [] => ret tt
  | image :: rest =>
      exec try_catch (fs_access (Image.file_path image))
             (fun error =>
                throw (Error ("Image file not found: " +:+ Image.file_path image))) ;;
      verify_images rest
  end.

(** Steps 1 to 4 (lines 19-58): the project row and its images in order. *)
Definition validate (input : GenerateVideoInput)
    : Async (VideoProject.row * list Image.row) :=
  exec db_update_status (project_id input) processing None ;;
  await projects <~ db_select_project (project_id input) ;;
  match projects with
  | [] =>
      throw (Error ("Project with id " +:+ toString (project_id input) +:+ " not found"))
  | project :: _ =>
      await images <~ db_select_images (project_id input) ;;
      match images with
      | [] =>
          throw (Error ("No images found for project " +:+ toString (project_id input)))
      | _ :: _ =>
          exec verify_images images ;;
          ret (project, images)
      end
  end.

(** Steps 1 to 5 (lines 19-67). *)
Definition prepare (input : GenerateVideoInput) : Async Attempt :=
  await checked <~ validate input ;;
  let outputDir := path_join "uploads" "videos" in
  exec fs_mkdir outputDir ;;
  await t1 <~ now ;;
  let outputPath := path_join outputDir (output_name (project_id input) t1) in
  await t2 <~ now ;;
  let tempDir :=
    path_join (path_join "uploads" "temp") (temp_name (project_id input) t2) in
  exec fs_mkdir tempDir ;;
  ret (mkAttempt checked.1 checked.2 outputPath tempDir).

(** Step 6: the loop [for (let i = 0; i < images.length; i++)]. *)
Fixpoint copy_images (tempDir : string) (i : nat) (images : list Image.row)
    (processedImages : list string) : Async (list string) :=
  match images with
  | [] => ret processedImages
  | image :: rest =>
      let tempImagePath := path_join tempDir (frame_name i) in
      exec fs_copyFile (Image.file_path image) tempImagePath ;;
      copy_images tempDir (S i) rest (processedImages ++ [tempImagePath])
  end.

(** [{ ...updatedProject, duration_per_image: parseFloat(...) }] *)
Definition parse_numeric (r : VideoProject.row) : VideoProject.row :=
  VideoProject.mk (VideoProject.id r) (VideoProject.name r) (VideoProject.status r)
    (VideoProject.output_path r) (float_text env (VideoProject.duration_per_image r))
    (VideoProject.fps r) (VideoProject.created_at r) (VideoProject.updated_at r).

(** Steps 6 to 9: the inner [try] block (lines 70-108). *)
Definition stage_and_encode (input : GenerateVideoInput) (a : Attempt)
    : Async VideoProject.row :=
  await processedImages <~ copy_images (tempDir a) 0 (frames a) [] ;;
  exec generateVideoWithFFmpeg processedImages (outputPath a)
         (VideoProject.duration_per_image (project a)) (VideoProject.fps (project a)) ;;
  exec fs_rm (tempDir a) ;;
  await updatedProjects <~
    db_update_status (project_id input) completed (Some (outputPath a)) ;;
  match updatedProjects with
  | updatedProject :: _ => ret (parse_numeric updatedProject)
  | [] => throw (Error "undefined is not an object (evaluating 'updatedProject.duration_per_image')")
  end.

(** The inner [catch] block (lines 110-118). *)
Definition cleanup (a : Attempt) (error : JsError) : Async VideoProject.row :=
  exec try_catch (fs_rm (tempDir a))
         (fun cleanupError => console (ConsoleError "Failed to clean up temp directory:")) ;;
  throw error.

(** The outer [try] block (lines 18-119). *)
Definition attempt (input : GenerateVideoInput) : Async VideoProject.row :=
  await a <~ prepare input ;;
  try_catch (stage_and_encode input a) (cleanup a).

(** The outer [catch] block (lines 120-136). *)
Definition mark_failed (input : GenerateVideoInput) (error : JsError)
    : Async VideoProject.row :=
  exec try_catch
         (exec db_update_status (project_id input) failed None ;; ret tt)
         (fun updateError =>
            console (ConsoleError "Failed to update project status to failed:")) ;;
  exec console (ConsoleError "Video generation failed:") ;;
  throw error.

Definition generateVideo (input : GenerateVideoInput) : Async VideoProject.row :=
  try_catch (attempt input) (mark_failed input).

(** *** The earlier handler, which simulates the encoding

    The same validation; the output is a file of fixed content written by
    the handler itself, and there is no staging directory.  The pause of
    100 ms before the write changes nothing in the world. *)
Definition simulate (input : GenerateVideoInput) : Async VideoProject.row :=
  exec validate input ;;
  let outputDir := path_join "uploads" "videos" in
  exec fs_mkdir outputDir ;;
  await t1 <~ now ;;
  let outputPath := path_join outputDir (output_name (project_id input) t1) in
  exec fs_writeFile outputPath (String.list_byte_of_string "fake video content") ;;
  await updatedProjects <~
    db_update_status (project_id input) completed (Some outputPath) ;;
  match updatedProjects with
  | updatedProject :: _ => ret (parse_numeric updatedProject)
  | [] => throw (Error "undefined is not an object (evaluating 'updatedProject.duration_per_image')")
  end.

Definition generateVideo_simulated (input : GenerateVideoInput)
    : Async VideoProject.row :=
  try_catch (simulate input) (mark_failed input).

End Handler.

Arguments bind : simpl never.
Arguments try_catch : simpl never.
Arguments call : simpl never.
Arguments console : simpl never.
Arguments now : simpl never.
Arguments db_update_status : simpl never.
Arguments db_select_project : simpl never.
Arguments db_select_images : simpl never.
Arguments fs_access : simpl never.
Arguments fs_mkdir : simpl never.
Arguments fs_copyFile : simpl never.
Arguments fs_rm : simpl never.
Arguments fs_writeFile : simpl never.
Arguments await_child : simpl never.
Arguments start_encoder : simpl never.
Arguments generateVideoWithFFmpeg : simpl never.
Arguments validate : simpl never.
Arguments prepare : simpl never.
Arguments stage_and_encode : simpl never.
Arguments cleanup : simpl never.
Arguments attempt : simpl never.
Arguments mark_failed : simpl never.
Arguments generateVideo : simpl never.
Arguments simulate : simpl never.
Arguments generateVideo_simulated : simpl never.

(** ** Vocabulary of the statements *)

(** The row a caller polls: the first row of the table with that id. *)
Definition lookup_project (pid : Z) (rows : list VideoProject.row)
    : option VideoProject.row :=
  head (project_rows pid rows).

(** The ledger answers every query: no call to the database throws. *)
Definition ledger_reliable (env : Env) : Prop :=
  forall t c, is_db_call c = true -> fault env t c = None.

(** An encoder that exits with status 0 has written its output file. *)
Definition encoder_honest (env : Env) : Prop :=
  forall t bin args stderr output,
    child env t bin args = Closed (Some 0) stderr output -> output <> None.

(** The engine visits every row of the table once, in some order. *)
Definition scan_complete (env : Env) : Prop :=
  forall t rows, scan env t rows ≡ₚ rows.

Definition succeeded {A} (r : Outcome A) : Prop :=
  match r with
  | Return _ => True
  | Throw _ => False
  end.

(** Strict lexicographic order on strings, by character code. *)
Definition lex_lt (a b : string) : Prop := String.compare a b = Lt.

Fixpoint all_chars (P : ascii -> bool) (s : string) : bool :=
  match s with
  | EmptyString => true
  | String c s' => P c && all_chars P s'
  end.

(** [hay] has [needle] as a substring. *)
Definition mentions (hay needle : string) : Prop :=
  exists before after, hay = before +:+ needle +:+ after.

(** The staged paths of [n] frames, in playback order. *)
Definition staged_paths (tempDir : string) (n : nat) : list string :=
  map (fun i => path_join tempDir (frame_name i)) (seq 0 n).

(** The [fs.copyFile] calls of a trace, oldest first. *)
Definition copy_calls (tr : list Call) : list (string * string) :=
  omap (fun c => match c with FsCopyFile s d => Some (s, d) | _ => None end) (rev tr).

(** [fs.access] throws only for a path that is not in the store. *)
Definition access_faithful (env : Env) : Prop :=
  forall t p, fault env t (FsAccess p) = None.

(** The calls that write to the store or start the encoder. *)
Definition touches_store (c : Call) : bool :=
  match c with
  | FsMkdir _ | FsCopyFile _ _ | FsRm _ | FsWriteFile _
  | RequireFfmpegStatic | Spawn _ _ => true
  | _ => false
  end.

(** The value a call returned, if it returned. *)
Definition returned {A} (r : Outcome A) : option A :=
  match r with
  | Return a => Some a
  | Throw _ => None
  end.

Definition digit_char (c : ascii) : bool := Ascii.leb "0" c && Ascii.leb c "9".

(** The order of [ORDER BY order_index ASC]. *)
Definition by_order_index (a b : Image.row) : Prop :=
  Image.order_index a <= Image.order_index b.

(** The characters of a decimal numeral, with its sign. *)
Definition numeral_char (c : ascii) : bool :=
  (Ascii.leb "0" c && Ascii.leb c "9") || Ascii.eqb c "-".

(** A field of the world, or any function of it, that a computation leaves
    as it was. *)
Definition preserves {A F} (f : World -> F) (m : Async A) : Prop :=
  forall w, f (snd (m w)) = f w.

(** A field of the world other than the trace. *)
Class TraceBlind {F} (f : World -> F) : Prop :=
  trace_blind : forall c w, f (record c w) = f w.

(** How a failed attempt leaves the table [rows] it started from: as it was,
    or with the project marked [processing] by step 1; ids and output paths
    are as they were. *)
Definition outputs_kept (pid : Z) (rows rows' : list VideoProject.row) : Prop :=
  rows' = rows \/
  exists t, rows' = update_where pid (set_status processing None t) rows.

(** The handler logged that the ledger refused its update to [failed]. *)
Definition update_rejected (w : World) : Prop :=
  ConsoleError "Failed to update project status to failed:" ∈ trace w.

(** Every call that a computation adds to the trace satisfies [P]. *)
Definition emits {A} (P : Call -> Prop) (m : Async A) : Prop :=
  forall w c, c ∈ trace (m w).2 -> c ∈ trace w \/ P c.

(** The handler's calls that neither write to the store nor start the encoder. *)
Definition reads_only (c : Call) : Prop := touches_store c = false.

(** How a call of the handler leaves the project that had the row [before]:
    completed, with the path of a file that is in the store, or failed, with
    the output path it had. *)
Definition ends_completed_or_failed (pid : Z) (before : VideoProject.row)
    (run : Outcome VideoProject.row * World) : Prop :=
  exists after,
    lookup_project pid (projects run.2) = Some after /\
    ((succeeded run.1 /\ VideoProject.status after = completed /\
      exists out, VideoProject.output_path after = Some out /\
                  is_Some (files run.2 !! out)) \/
     (~ succeeded run.1 /\ VideoProject.status after = failed /\
      VideoProject.output_path after = VideoProject.output_path before)).

(** The same, when the ledger may refuse the handler's update to [failed]:
    a call that fails leaves the output path as it was and the row [failed],
    or else has logged the refusal and leaves the status the attempt left,
    [processing] or the one before the call. *)
Definition ends_marked_or_logged (pid : Z) (before : VideoProject.row)
    (run : Outcome VideoProject.row * World) : Prop :=
  exists after,
    lookup_project pid (projects run.2) = Some after /\
    ((succeeded run.1 /\ VideoProject.status after = completed /\
      exists out, VideoProject.output_path after = Some out /\
                  is_Some (files run.2 !! out)) \/
     (~ succeeded run.1 /\
      VideoProject.output_path after = VideoProject.output_path before /\
      (VideoProject.status after = failed \/
       (update_rejected run.2 /\
        (VideoProject.status after = processing \/
         VideoProject.status after = VideoProject.status before))))).

(** Where an attempt fails: in steps 1 to 5, before there is a staging
    directory, or in steps 6 to 9, with the attempt [a] allocated.  [e] is the
    error the failing step threw and [w1] the world it left. *)
Inductive fails_with (env : Env) (input : GenerateVideoInput) (w : World)
    (e : JsError) : option Attempt -> World -> Prop :=
  | fails_before_staging w1 :
      prepare env input w = (Throw e, w1) ->
      fails_with env input w e None w1
  | fails_while_staging a w0 w1 :
      prepare env input w = (Return a, w0) ->
      stage_and_encode env input a w0 = (Throw e, w1) ->
      fails_with env input w e (Some a) w1.

(** The row of a project as a failed attempt leaves it when the ledger
    refuses the update to [failed]: as it was before the call, or as step 1
    has written it, [processing] with the reading of the clock at the start
    of the call. *)
Definition left_by_attempt (env : Env) (w : World) (row after : VideoProject.row)
    : Prop :=
  after = row \/ after = set_status processing None (clock env (time w)) row.

(** The ledger answers the three queries of the validation for [pid]. *)
Definition validation_answered (env : Env) (pid : Z) : Prop :=
  forall t,
    fault env t (DbUpdateStatus pid processing None) = None /\
    fault env t (DbSelectProject pid) = None /\
    fault env t (DbSelectImages pid) = None.

(** The calls that make a directory. *)
Definition is_mkdir (c : Call) : bool :=
  match c with
  | FsMkdir _ => true
  | _ => false
  end.

(** ** Sample worlds

    One project with two uploaded images, and collaborators that never fail:
    the clock advances one millisecond per call and the encoder exits with
    status 0 after writing its output. *)

Definition sample_project : VideoProject.row :=
  VideoProject.mk 1 "Test Video Project" pending None "2.5" 24 0 0.

Definition sample_image (id order : Z) (path : string) : Image.row :=
  Image.mk id 1 path path 1024 "image/jpeg" order 0.

Definition sample_input : GenerateVideoInput := {| project_id := 1 |}.

Definition sample_world : World :=
  mkWorld [sample_project]
    [ sample_image 1 0 "uploads/images/test1.jpg";
      sample_image 2 1 "uploads/images/test2.jpg" ]
    (<[ "uploads/images/test1.jpg" := [Byte.x01] ]>
       (<[ "uploads/images/test2.jpg" := [Byte.x02] ]> ∅))
    ∅ [].

Definition quiet_env : Env :=
  mkEnv (fun t => 1700000000000 + Z.of_nat t)
        (fun _ _ => None)
        (fun _ rows => rows)
        "/usr/bin/ffmpeg"
        (fun _ _ _ => Closed (Some 0) "" (Some [Byte.x00]))
        (fun text => text).

(** The encoder rejects its input and the staging directory cannot be
    removed. *)
Definition failing_env : Env :=
  mkEnv (fun t => 1700000000000 + Z.of_nat t)
        (fun _ c => match c with
                    | FsRm _ => Some (Error "EBUSY: resource busy or locked, rm")
                    | _ => None
                    end)
        (fun _ rows => rows)
        "/usr/bin/ffmpeg"
        (fun _ _ _ => Closed (Some 1) "Invalid data found when processing input" None)
        (fun text => text).

(** The encoder succeeds and the staging directory cannot be removed. *)
Definition busy_env : Env :=
  mkEnv (fun t => 1700000000000 + Z.of_nat t)
        (fun _ c => match c with
                    | FsRm _ => Some (Error "EBUSY: resource busy or locked, rm")
                    | _ => None
                    end)
        (fun _ rows => rows)
        "/usr/bin/ffmpeg"
        (fun _ _ _ => Closed (Some 0) "" (Some [Byte.x00]))
        (fun text => text).

(** The second image of the sample has no file. *)
Definition missing_world : World :=
  set_files (delete "uploads/images/test2.jpg" (files sample_world)) sample_world.

(** The encoder module is installed but its binary cannot be started. *)
Definition unspawnable_env : Env :=
  mkEnv (fun t => 1700000000000 + Z.of_nat t)
        (fun _ _ => None)
        (fun _ rows => rows)
        "/usr/bin/ffmpeg"
        (fun _ _ _ => SpawnFailed (Error "spawn /usr/bin/ffmpeg ENOENT"))
        (fun text => text).

(** The encoder module is not installed: [require('ffmpeg-static')] throws. *)
Definition bare_env : Env :=
  mkEnv (fun t => 1700000000000 + Z.of_nat t)
        (fun _ c => match c with
                    | RequireFfmpegStatic =>
                        Some (Error "Cannot find module 'ffmpeg-static'")
                    | _ => None
                    end)
        (fun _ rows => rows)
        ""
        (fun _ _ _ => SpawnFailed (Error "unreachable"))
        (fun text => text).

(** A clock that does not advance between two calls of the handler. *)
Definition frozen_env : Env :=
  mkEnv (fun _ => 1700000000000)
        (fun _ _ => None)
        (fun _ rows => rows)
        "/usr/bin/ffmpeg"
        (fun _ _ _ => Closed (Some 0) "" (Some [Byte.x00]))
        (fun text => text).

(** The engine visits the rows of a table from the last one to the first. *)
Definition reversing_env : Env :=
  mkEnv (fun t => 1700000000000 + Z.of_nat t)
        (fun _ _ => None)
        (fun _ rows => rev rows)
        "/usr/bin/ffmpeg"
        (fun _ _ _ => Closed (Some 0) "" (Some [Byte.x00]))
        (fun text => text).

(** Both images of the project have [order_index] 0. *)
Definition tied_world : World :=
  mkWorld [sample_project]
    [ sample_image 1 0 "uploads/images/test1.jpg";
      sample_image 2 0 "uploads/images/test2.jpg" ]
    (files sample_world) ∅ [].

(** The connection to the database is lost after the fifth call. *)
Definition ledger_lost_env : Env :=
  mkEnv (fun t => 1700000000000 + Z.of_nat t)
        (fun t c => if is_db_call c && (5 <=? t)%nat
                    then Some (Error "Connection terminated unexpectedly")
                    else None)
        (fun _ rows => rows)
        "/usr/bin/ffmpeg"
        (fun _ _ _ => Closed (Some 0) "" (Some [Byte.x00]))
        (fun text => text).

(** The first image of the sample cannot be read, and the ledger refuses
    every update to [failed]. *)
Definition denied_env : Env :=
  mkEnv (fun t => 1700000000000 + Z.of_nat t)
        (fun _ c => match c with
                    | FsAccess p =>
                        if String.eqb p "uploads/images/test1.jpg"
                        then Some (Error "EACCES: permission denied, access")
                        else None
                    | DbUpdateStatus _ failed _ =>
                        Some (Error "Connection terminated unexpectedly")
                    | _ => None
                    end)
        (fun _ rows => rows)
        "/usr/bin/ffmpeg"
        (fun _ _ _ => Closed (Some 0) "" (Some [Byte.x00]))
        (fun text => text).

(** The encoder succeeds, the staging directory cannot be removed, and the
    ledger refuses every update to [failed]. *)
Definition busy_lost_env : Env :=
  mkEnv (fun t => 1700000000000 + Z.of_nat t)
        (fun _ c => match c with
                    | FsRm _ => Some (Error "EBUSY: resource busy or locked, rm")
                    | DbUpdateStatus _ failed _ =>
                        Some (Error "Connection terminated unexpectedly")
                    | _ => None
                    end)
        (fun _ rows => rows)
        "/usr/bin/ffmpeg"
        (fun _ _ _ => Closed (Some 0) "" (Some [Byte.x00]))
        (fun text => text).

(** The store after a first, successful call, with one image then deleted. *)
Definition image_lost : World :=
  let w := (generateVideo quiet_env sample_input sample_world).2 in
  set_files (delete "uploads/images/test1.jpg" (files w)) w.

(** ** The handlers around the pipeline

    [getProjectImages] and [updateProjectStatus]
    (server/src/handlers), [uploadImage], the [getVideoDownloadUrl] query of
    the router and the path that [handleVideoDownload] serves
    (server/src/index.ts). *)

(** *** Paths: Node's [path] module, POSIX flavour *)

(** [s.split('/')] *)
Fixpoint split_path (s : string) : list string :=
  match s with
  | EmptyString => [EmptyString]
  | String c s' =>
      if Ascii.eqb c "/" then EmptyString :: split_path s'
      else match split_path s' with
           | seg :: rest => String c seg :: rest
           | [] => [String c EmptyString]
           end
  end.

(** [path.basename(s)]: the last segment of [s] that is not empty, so that
    trailing separators are ignored; the empty string when there is none. *)
Definition basename (s : string) : string :=
  default "" (last (filter (fun seg => seg <> "") (split_path s))).

(** [normalizeString]: the segments of a path with the empty and [.]
    segments dropped and every [..] resolved against the segment before it;
    [res] holds the segments kept so far, the last one first. *)
Fixpoint normalize_segments (allowAboveRoot : bool) (segs res : list string)
    : list string :=
  match segs with
  | [] => rev res
  | seg :: rest =>
      if decide (seg = "" \/ seg = ".") then normalize_segments allowAboveRoot rest res
      else if decide (seg = "..") then
        match res with
        | prev :: res' =>
            if decide (prev = "..")
            then normalize_segments allowAboveRoot rest
                   (if allowAboveRoot then ".." :: res else res)
            else normalize_segments allowAboveRoot rest res'
        | [] =>
            normalize_segments allowAboveRoot rest
              (if allowAboveRoot then [".."] else [])
        end
      else normalize_segments allowAboveRoot rest (seg :: res)
  end.

Fixpoint ends_with_separator (s : string) : bool :=
  match s with
  | EmptyString => false
  | String c EmptyString => Ascii.eqb c "/"
  | String _ s' => ends_with_separator s'
  end.

(** [path.normalize] *)
Definition posix_normalize (path : string) : string :=
  if decide (path = "") then "."
  else
    let isAbsolute := starts_with "/" path in
    let trailingSeparator := ends_with_separator path in
    let body :=
      String.concat "/" (normalize_segments (negb isAbsolute) (split_path path) []) in
    if decide (body = "") then
      if isAbsolute then "/" else if trailingSeparator then "./" else "."
    else
      (if isAbsolute then "/" else "") +:+ body +:+
      (if trailingSeparator then "/" else "").

(** [path.join(...args)] *)
Definition posix_join (args : list string) : string :=
  match filter (fun arg => arg <> "") args with
  | [] => "."
  | parts => posix_normalize (String.concat "/" parts)
  end.

(** The file that [handleVideoDownload] looks for when asked for [url]:
    [path.join('uploads', 'videos', path.basename(req.url))]. *)
Definition videoPath (url : string) : string :=
  let filename := basename url in
  posix_join ["uploads"; "videos"; filename].

(** *** Inputs *)

Module UpdateProjectStatusInput.
(** [output_path] is [None] when the key is absent and [Some None] when it
    is [null]. *)
Record t : Type := mk {
  project_id : Z;
  status : ProjectStatus;
  output_path : option (option string)
}.
End UpdateProjectStatusInput.

Module UploadImageInput.
Record t : Type := mk {
  project_id : Z;
  filename : string;
  file_data : string;
  mime_type : string;
  order_index : Z
}.
End UploadImageInput.

(** *** The engine behind the other statements

    The statements that only these handlers send to the database.  They are
    no calls of the pipeline and leave its trace as it is; each is sent after
    a recorded call of the same handler, so that the logical time at which
    the engine decides on it is that of no other statement. *)
Inductive Statement : Type :=
  | UpdateProject (pid : Z) (st : ProjectStatus) (out : option (option string))
  | InsertImage (pid : Z) (filename file_path : string) (file_size : Z)
      (mime_type : string) (order_index : Z).

(** What is decided outside the handlers: whether a statement throws, the
    value that the sequence behind [images.id] gives to an insert and the
    time that [defaultNow()] gives it, the working directory of the process,
    and the bytes that [Buffer.from(text, 'base64')] decodes from a text. *)
Record Engine : Type := mkEngine {
  refuse : nat -> Statement -> option JsError;
  serial : nat -> Z;
  db_now : nat -> Z;
  cwd : string;
  from_base64 : string -> Content
}.

Definition set_images (rows : list Image.row) (w : World) : World :=
  mkWorld (projects w) rows (files w) (dirs w) (trace w).

(** [.set(updateValues)]: [status] and [updated_at], and [output_path] when
    the input has the key, be it with [null]. *)
Definition set_values (st : ProjectStatus) (out : option (option string)) (t : Z)
    (r : VideoProject.row) : VideoProject.row :=
  VideoProject.mk (VideoProject.id r) (VideoProject.name r) st
    (match out with Some v => v | None => VideoProject.output_path r end)
    (VideoProject.duration_per_image r) (VideoProject.fps r)
    (VideoProject.created_at r) t.

Section Handlers.
Context (env : Env) (eng : Engine).

(** [getProjectImages] (get_project_images.ts) *)
Definition getProjectImages (projectId : Z) : Async (list Image.row) :=
  try_catch (db_select_images env projectId)
    (fun error =>
       exec console (ConsoleError "Failed to fetch project images:") ;;
       throw error).

(** The [getVideoDownloadUrl] query of the router (index.ts). *)
Definition getVideoDownloadUrl (projectId : Z) : Async string :=
  await projects <~ db_select_project env projectId ;;
  match projects with
  | [] => throw (Error ("Project with id " +:+ toString projectId +:+ " not found"))
  | project :: _ =>
      match VideoProject.output_path project with
      | None | Some EmptyString =>
          throw (Error ("Video not yet generated for project " +:+ toString projectId))
      | Some output_path =>
          let filename := basename output_path in
          ret ("/videos/" +:+ filename)
      end
  end.

(** [db.update(videoProjectsTable).set(updateValues).where(eq(id, pid))
    .returning().execute()] *)
Definition db_update_project (pid : Z) (st : ProjectStatus)
    (out : option (option string)) (t : Z) : Async (list VideoProject.row) :=
  fun w =>
    match refuse eng (time w) (UpdateProject pid st out) with
    | Some e => (Throw e, w)
    | None =>
        let rows := update_where pid (set_values st out t) (projects w) in
        (Return (project_rows pid rows), set_projects rows w)
    end.

(** [updateProjectStatus] (update_project_status.ts) *)
Definition updateProjectStatus (input : UpdateProjectStatusInput.t)
    : Async VideoProject.row :=
  try_catch
    (await updated_at <~ now env ;;
     await result <~
       db_update_project (UpdateProjectStatusInput.project_id input)
         (UpdateProjectStatusInput.status input)
         (UpdateProjectStatusInput.output_path input) updated_at ;;
     match result with
     | [] =>
         throw (Error ("Project with id " +:+
                       toString (UpdateProjectStatusInput.project_id input) +:+
                       " not found"))
     | project :: _ => ret (parse_numeric env project)
     end)
    (fun error =>
       exec console (ConsoleError "Project status update failed:") ;;
       throw error).

(** [db.insert(imagesTable).values({...}).returning().execute()], which
    returns the one row it has inserted. *)
Definition db_insert_image (pid : Z) (filename file_path : string) (file_size : Z)
    (mime_type : string) (order_index : Z) : Async Image.row :=
  fun w =>
    match refuse eng (time w)
            (InsertImage pid filename file_path file_size mime_type order_index) with
    | Some e => (Throw e, w)
    | None =>
        let row :=
          Image.mk (serial eng (time w)) pid filename file_path file_size mime_type
            order_index (db_now eng (time w)) in
        (Return row, set_images (images w ++ [row]) w)
    end.

(** [path.join(process.cwd(), 'uploads', 'images')] *)
Definition uploadsDir : string := posix_join [cwd eng; "uploads"; "images"].

(** The directory of [p] is there: [p] is a bare name, or lies in the root,
    or the text before its last separator is a directory of the world. *)
Definition parent_exists (p : string) (w : World) : bool :=
  match parent_dir p with
  | Some d => bool_decide (d = "") || bool_decide (d ∈ dirs w)
  | None => true
  end.

(** [fs.writeFileSync(p, c)]: apart from the faults of the call, the write
    throws when [p] names a directory (it is one, or it ends with a
    separator) and when the directory of [p] is missing. *)
Definition fs_writeFileSync (p : string) (c : Content) : Async unit :=
  exec call env (FsWriteFile p) ;;
  fun w =>
    if bool_decide (p ∈ dirs w) || ends_with_separator p then
      (Throw (Error ("EISDIR: illegal operation on a directory, open '" +:+ p +:+ "'")), w)
    else if parent_exists p w then
      (Return tt, set_files (<[ p := c ]> (files w)) w)
    else
      (Throw (Error ("ENOENT: no such file or directory, open '" +:+ p +:+ "'")), w).

(** [uploadImage] (upload_image.ts) *)
Definition uploadImage (input : UploadImageInput.t) : Async Image.row :=
  try_catch
    (await projects <~ db_select_project env (UploadImageInput.project_id input) ;;
     match projects with
     | [] =>
         throw (Error ("Project with id " +:+
                       toString (UploadImageInput.project_id input) +:+ " not found"))
     | _ :: _ =>
         exec (fun w =>
                 if exists_path uploadsDir w then ret tt w
                 else fs_mkdir env uploadsDir w) ;;
         let imageBuffer := from_base64 eng (UploadImageInput.file_data input) in
         let filePath := posix_join [uploadsDir; UploadImageInput.filename input] in
         exec fs_writeFileSync filePath imageBuffer ;;
         db_insert_image (UploadImageInput.project_id input)
           (UploadImageInput.filename input) filePath
           (Z.of_nat (length imageBuffer)) (UploadImageInput.mime_type input)
           (UploadImageInput.order_index input)
     end)
    (fun error =>
       exec console (ConsoleError "Image upload failed:") ;;
       throw error).

End Handlers.

Arguments getProjectImages : simpl never.
Arguments getVideoDownloadUrl : simpl never.
Arguments db_update_project : simpl never.
Arguments updateProjectStatus : simpl never.
Arguments db_insert_image : simpl never.
Arguments fs_writeFileSync : simpl never.
Arguments uploadImage : simpl never.

(** ** The uploader of the client (client/src/components/ImageUploader.tsx)

    The callbacks of the component, as functions of the state they are
    given: [existingImages] and [pendingImages] are the values the callback
    has closed over, [prev] is the state that React hands to the updater. *)

Module File.
Record t : Type := mk {
  name : string;
  type : string;
  size : Z
}.
End File.

Module PendingImage.
Record t : Type := mk {
  id : string;
  file : File.t;
  preview : string;
  orderIndex : Z;
  isUploading : bool;
  uploadProgress : Z
}.
End PendingImage.

(** [values.length > 0 ? Math.max(...values) : -1] *)
Definition max_or_minus_one (values : list Z) : Z :=
  match values with
  | [] => -1
  | v :: rest => foldl Z.max v rest
  end.

(** Lines 29-37. *)
Definition getNextOrderIndex (existingImages : list Image.row)
    (pendingImages : list PendingImage.t) : Z :=
  let maxExisting := max_or_minus_one (map Image.order_index existingImages) in
  let maxPending := max_or_minus_one (map PendingImage.orderIndex pendingImages) in
  Z.max maxExisting maxPending + 1.

(** Lines 39-52.  [now] gives the reading of [Date.now()] taken for the file
    of each index, [createObjectURL] the URL the browser makes for a file. *)
Definition handleFileSelect (now : nat -> Z) (createObjectURL : File.t -> string)
    (existingImages : list Image.row) (pendingImages : list PendingImage.t)
    (files : list File.t) (prev : list PendingImage.t) : list PendingImage.t :=
  let imageFiles := List.filter (fun file => starts_with "image/" (File.type file)) files in
  let newPendingImages :=
    imap (fun index file =>
            PendingImage.mk
              (toString (now index) +:+ "-" +:+ toString (Z.of_nat index))
              file (createObjectURL file)
              (getNextOrderIndex existingImages pendingImages + Z.of_nat index)
              false 0)
         imageFiles in
  prev ++ newPendingImages.

Inductive Direction : Type := up | down.

(** [{ ...img, orderIndex }] *)
Definition with_orderIndex (orderIndex : Z) (img : PendingImage.t) : PendingImage.t :=
  PendingImage.mk (PendingImage.id img) (PendingImage.file img)
    (PendingImage.preview img) orderIndex (PendingImage.isUploading img)
    (PendingImage.uploadProgress img).

(** Lines 83-100. *)
Definition moveImage (existingImages : list Image.row)
    (pendingImages : list PendingImage.t) (id : string) (direction : Direction)
    (prev : list PendingImage.t) : list PendingImage.t :=
  match list_find (fun img => PendingImage.id img = id) prev with
  | None => prev
  | Some (currentIndex, current) =>
      let newIndex : Z :=
        match direction with
        | up => Z.of_nat currentIndex - 1
        | down => Z.of_nat currentIndex + 1
        end in
      if (newIndex <? 0) || (Z.of_nat (length prev) <=? newIndex) then prev
      else
        match prev !! Z.to_nat newIndex with
        | None => prev
        | Some other =>
            let newArray :=
              <[ Z.to_nat newIndex := current ]> (<[ currentIndex := other ]> prev) in
            imap (fun index img =>
                    with_orderIndex
                      (getNextOrderIndex existingImages pendingImages
                       + Z.of_nat index - Z.of_nat (length newArray)) img)
                 newArray
        end
  end.

(** ** Vocabulary of the further properties *)

(** No call to a collaborator throws. *)
Definition never_fails (env : Env) : Prop :=
  forall t c, fault env t c = None.

(** The table [rows'] has the rows of [rows], each in its place and with its
    id, and the rows of the projects other than [pid] are as they were. *)
Definition others_kept (pid : Z) (rows rows' : list VideoProject.row) : Prop :=
  Forall2 (fun r r' => VideoProject.id r' = VideoProject.id r /\
                       (VideoProject.id r <> pid -> r' = r)) rows rows'.

(** A relation between the world before and the world after that every run
    of a computation satisfies. *)
Definition evolves {A} (R : World -> World -> Prop) (m : Async A) : Prop :=
  forall w, R w (m w).2.

(** The project table changes in the rows of [pid] only. *)
Definition rows_of (pid : Z) (w w' : World) : Prop :=
  others_kept pid (projects w) (projects w').

(** A call that threw and changed nothing but the trace, where it added no
    call that writes to the store or starts the encoder. *)
Definition rejected_untouched (w : World) (run : Outcome VideoProject.row * World)
    : Prop :=
  ~ succeeded run.1 /\
  projects run.2 = projects w /\ images run.2 = images w /\
  files run.2 = files w /\ dirs run.2 = dirs w /\
  forall c, c ∈ trace run.2 -> c ∈ trace w \/ touches_store c = false.

(** What a call for the project [pid] may have done to the two tables: the
    image table is as it was; the project table has the same rows in the same
    places, with the same ids, and the rows of the other projects, as any
    query for another id returns them, are as they were. *)
Definition tables_framed (pid : Z) (w w' : World) : Prop :=
  images w' = images w /\
  others_kept pid (projects w) (projects w') /\
  length (projects w') = length (projects w) /\
  forall other, other <> pid ->
    project_rows other (projects w') = project_rows other (projects w).

(** Nothing is left of the directory [d]: neither [d] itself nor a file
    below it. *)
Definition staging_gone (d : string) (w : World) : Prop :=
  (d ∉ dirs w) /\ forall p, within d p = true -> files w !! p = None.

(** The removal of the staging directory does not throw. *)
Definition removal_reliable (env : Env) : Prop :=
  forall t d, fault env t (FsRm d) = None.

(** The call [c] starts no process. *)
Definition not_spawn (c : Call) : Prop :=
  match c with
  | Spawn _ _ => False
  | _ => True
  end.

(** The call [c] is not a spawn, or it spawns [bin] with [args]. *)
Definition spawn_is (bin : string) (args : list string) (c : Call) : Prop :=
  match c with
  | Spawn b a => b = bin /\ a = args
  | _ => True
  end.

(** The command line on which an attempt starts the encoder: the staged
    frames in playback order, the duration and the frame rate read from the
    project row, and the allocated output path. *)
Definition encoder_args (env : Env) (a : Attempt) : list string :=
  ffmpeg_args (staged_paths (tempDir a) (length (frames a))) (outputPath a)
    (float_text env (VideoProject.duration_per_image (project a)))
    (VideoProject.fps (project a)).

(** The encoder, whenever it is started, exits with status 0 and has written
    its output file. *)
Definition encoder_succeeds (env : Env) : Prop :=
  forall t bin args,
    exists stderr content, child env t bin args = Closed (Some 0) stderr (Some content).

(** Every image of the project [pid] has its file in the store. *)
Definition images_stored (pid : Z) (w : World) : Prop :=
  Forall (fun img => is_Some (files w !! Image.file_path img))
    (image_rows pid (images w)).

(** No statement of the other handlers is refused. *)
Definition engine_reliable (eng : Engine) : Prop :=
  forall t s, refuse eng t s = None.

(** The text has no separator. *)
Definition no_separator (s : string) : bool :=
  all_chars (fun c => negb (Ascii.eqb c "/")) s.

(** A file name that [path.join] appends as it is: not empty, without a
    separator, and neither [.] nor [..]. *)
Definition plain_name (s : string) : Prop :=
  s <> "" /\ s <> "." /\ s <> ".." /\ no_separator s = true.

(** A directory path that [path.normalize] leaves as it is and that names
    the directory without a trailing separator. *)
Definition clean_dir (d : string) : Prop :=
  posix_normalize d = d /\ ends_with_separator d = false /\ d <> ".".

(** [moved] is the first image of [prev] that has the id, at position [i]:
    what [findIndex] returns. *)
Definition first_with_id (id : string) (prev : list PendingImage.t) (i : nat)
    (moved : PendingImage.t) : Prop :=
  prev !! i = Some moved /\ PendingImage.id moved = id /\
  forall k img, prev !! k = Some img -> (k < i)%nat -> PendingImage.id img <> id.

(** A server that runs in [/app/server], whose statements go through, and
    that decodes a text to one byte per character. *)
Definition sample_engine : Engine :=
  mkEngine (fun _ _ => None) (fun t => 100 + Z.of_nat t)
           (fun t => 1700000000000 + Z.of_nat t) "/app/server"
           String.list_byte_of_string.

(** * Properties *)

(** ** Strings *)

Lemma app_cons c a b : String c a +:+ b = String c (a +:+ b).
Proof. reflexivity. Qed.

Lemma ascii_compare_refl c : Ascii.compare c c = Eq.
Proof. unfold Ascii.compare. apply N.compare_refl. Qed.

Lemma string_compare_app p a b :
  String.compare (p +:+ a) (p +:+ b) = String.compare a b.
Proof.
  induction p as [|c p IH]; [reflexivity|].
  rewrite !app_cons. simpl. now rewrite ascii_compare_refl.
Qed.

Lemma ascii_compare_lt_trans a b c :
  Ascii.compare a b = Lt -> Ascii.compare b c = Lt -> Ascii.compare a c = Lt.
Proof.
  unfold Ascii.compare. rewrite !N.compare_lt_iff. lia.
Qed.

Lemma lex_lt_trans a b c : lex_lt a b -> lex_lt b c -> lex_lt a c.
Proof.
  unfold lex_lt. revert b c.
  induction a as [|x a IH]; intros [|y b] [|z c]; simpl; try congruence.
  destruct (Ascii.compare x y) eqn:Hxy; try discriminate.
  - apply Ascii.compare_eq_iff in Hxy; subst y.
    destruct (Ascii.compare x z) eqn:Hxz; try congruence.
    intros. eapply IH; eassumption.
  - destruct (Ascii.compare y z) eqn:Hyz; try discriminate.
    + apply Ascii.compare_eq_iff in Hyz; subst z. now rewrite Hxy.
    + now rewrite (ascii_compare_lt_trans _ _ _ Hxy Hyz).
Qed.

#[global] Instance lex_lt_transitive : Transitive lex_lt.
Proof. exact lex_lt_trans. Qed.

Lemma app_string_assoc a b c : (a +:+ b) +:+ c = a +:+ (b +:+ c).
Proof.
  induction a as [|x a IH]; [reflexivity|]. rewrite !app_cons. now rewrite IH.
Qed.

Lemma app_string_nil_r s : s +:+ "" = s.
Proof. induction s as [|c s IH]; [reflexivity|]. now rewrite app_cons, IH. Qed.

Lemma all_chars_app P a b :
  all_chars P (a +:+ b) = all_chars P a && all_chars P b.
Proof.
  induction a as [|x a IH]; [reflexivity|].
  rewrite app_cons. simpl. now rewrite IH, andb_assoc.
Qed.

(** Two texts cut at a separator that occurs in neither head agree piecewise. *)
Lemma split_at_separator sep a a' r r' :
  all_chars (fun c => negb (Ascii.eqb c sep)) a = true ->
  all_chars (fun c => negb (Ascii.eqb c sep)) a' = true ->
  a +:+ String sep r = a' +:+ String sep r' ->
  a = a' /\ r = r'.
Proof.
  revert a'. induction a as [|x a IH]; intros [|y a'];
    rewrite ?app_cons; simpl; intros Ha Ha' E.
  - now inversion E.
  - inversion E; subst y. now rewrite Ascii.eqb_refl in Ha'.
  - inversion E; subst x. now rewrite Ascii.eqb_refl in Ha.
  - inversion E; subst y.
    apply andb_true_iff in Ha as [_ Ha]. apply andb_true_iff in Ha' as [_ Ha'].
    destruct (IH a' Ha Ha' H1) as [-> ->]. easy.
Qed.

(** *** Decimal numerals *)

Lemma pretty_N_char_numeral x : numeral_char (pretty_N_char x) = true.
Proof. unfold pretty_N_char. repeat case_match; reflexivity. Qed.

Lemma pretty_N_go_numeral x s :
  all_chars numeral_char s = true -> all_chars numeral_char (pretty_N_go x s) = true.
Proof.
  revert s. induction (N.lt_wf_0 x) as [x _ IH]; intros s Hs.
  assert (x = 0 \/ 0 < x)%N as [->|Hx] by lia.
  - now rewrite pretty_N_go_0.
  - rewrite pretty_N_go_step by done. apply IH.
    + now apply N.div_lt.
    + simpl. now rewrite pretty_N_char_numeral.
Qed.

Lemma toString_numeral z : all_chars numeral_char (toString z) = true.
Proof.
  unfold toString, pretty, pretty_Z.
  destruct z as [|p|p]; [reflexivity| |];
    unfold pretty, pretty_positive, pretty, pretty_N; simpl;
    now apply pretty_N_go_numeral.
Qed.

Lemma numeral_no_char sep s :
  numeral_char sep = false ->
  all_chars numeral_char s = true ->
  all_chars (fun c => negb (Ascii.eqb c sep)) s = true.
Proof.
  intros Hsep. induction s as [|c s IH]; simpl; [easy|].
  intros [Hc Hs]%andb_true_iff. rewrite IH by exact Hs.
  destruct (Ascii.eqb_spec c sep) as [->|]; [congruence|reflexivity].
Qed.

Lemma toString_inj a b : toString a = toString b -> a = b.
Proof. apply pretty_Z_inj. Qed.

(** ** Running awaited computations *)

Lemma bind_inv {A B} (m : Async A) (k : A -> Async B) w r w' :
  bind m k w = (r, w') ->
  (exists a w1, m w = (Return a, w1) /\ k a w1 = (r, w')) \/
  (exists e, m w = (Throw e, w') /\ r = Throw e).
Proof.
  unfold bind. destruct (m w) as [[a|e] w1]; intros H.
  - left. eauto.
  - right. inversion H; subst. eauto.
Qed.

Lemma try_catch_inv {A} (m : Async A) h w r w' :
  try_catch m h w = (r, w') ->
  (exists a, m w = (Return a, w') /\ r = Return a) \/
  (exists e w1, m w = (Throw e, w1) /\ h e w1 = (r, w')).
Proof.
  unfold try_catch. destruct (m w) as [[a|e] w1]; intros H.
  - left. inversion H; subst. eauto.
  - right. eauto.
Qed.

Lemma bind_return {A B} (m : Async A) (k : A -> Async B) w a w1 :
  m w = (Return a, w1) -> bind m k w = k a w1.
Proof. unfold bind. now intros ->. Qed.

Lemma bind_throw {A B} (m : Async A) (k : A -> Async B) w e w1 :
  m w = (Throw e, w1) -> bind m k w = (Throw e, w1).
Proof. unfold bind. now intros ->. Qed.

Lemma try_catch_return {A} (m : Async A) h w a w1 :
  m w = (Return a, w1) -> try_catch m h w = (Return a, w1).
Proof. unfold try_catch. now intros ->. Qed.

Lemma try_catch_throw {A} (m : Async A) h w e w1 :
  m w = (Throw e, w1) -> try_catch m h w = h e w1.
Proof. unfold try_catch. now intros ->. Qed.

Lemma call_fails env c w e :
  fault env (time w) c = Some e -> call env c w = (Throw e, record c w).
Proof. unfold call. now intros ->. Qed.

(** *** Fields that a computation leaves alone *)

#[global] Instance projects_blind : TraceBlind projects.
Proof. easy. Qed.
#[global] Instance images_blind : TraceBlind images.
Proof. easy. Qed.
#[global] Instance files_blind : TraceBlind files.
Proof. easy. Qed.
#[global] Instance dirs_blind : TraceBlind dirs.
Proof. easy. Qed.

Section Preserves.
Context {F : Type} (f : World -> F).

Lemma preserves_ret {A} (a : A) : preserves f (ret a).
Proof. easy. Qed.

Lemma preserves_throw {A} e : preserves f (@throw A e).
Proof. easy. Qed.

Lemma preserves_bind {A B} (m : Async A) (k : A -> Async B) :
  preserves f m -> (forall a, preserves f (k a)) -> preserves f (bind m k).
Proof.
  intros Hm Hk w. unfold bind. specialize (Hm w).
  destruct (m w) as [[a|e] w1]; simpl in *; [|exact Hm].
  now rewrite Hk.
Qed.

Lemma preserves_try_catch {A} (m : Async A) h :
  preserves f m -> (forall e, preserves f (h e)) -> preserves f (try_catch m h).
Proof.
  intros Hm Hh w. unfold try_catch. specialize (Hm w).
  destruct (m w) as [[a|e] w1]; simpl in *; [exact Hm|].
  now rewrite Hh.
Qed.

Context `{!TraceBlind f}.

Lemma preserves_call env c : preserves f (call env c).
Proof. intros w. unfold call. destruct (fault _ _ _); apply trace_blind. Qed.

Lemma preserves_console c : preserves f (console c).
Proof. intros w. apply trace_blind. Qed.

Lemma preserves_now env : preserves f (now env).
Proof. intros w. apply trace_blind. Qed.
End Preserves.

Create HintDb preserve.

#[global] Hint Resolve preserves_ret preserves_throw preserves_call
  preserves_console preserves_now : preserve.

(** Walks through the binds, handlers and case splits of a computation. *)
Ltac preserve :=
  repeat first
    [ progress intros
    | solve [ eauto with preserve typeclass_instances ]
    | match goal with
      | |- preserves _ (match ?x with _ => _ end) => destruct x
      | |- preserves _ (bind _ _) => apply preserves_bind
      | |- preserves _ (try_catch _ _) => apply preserves_try_catch
      end ].

(** *** What each collaborator leaves alone *)

Ltac primitive :=
  intros w;
  repeat match goal with
         | |- context [fault ?e ?t ?c] => destruct (fault e t c)
         | |- context [bind] => unfold bind, call, now, ret, console; simpl
         | |- context [match files ?w !! ?p with _ => _ end] => destruct (files w !! p)
         | |- context [if exists_path ?p ?w then _ else _] => destruct (exists_path p w)
         end;
  try reflexivity.

Section Collaborators.
Context (env : Env).

Lemma db_update_status_images pid st out :
  preserves images (db_update_status env pid st out).
Proof. unfold db_update_status. primitive. Qed.

Lemma db_update_status_files pid st out :
  preserves files (db_update_status env pid st out).
Proof. unfold db_update_status. primitive. Qed.

Lemma db_update_status_dirs pid st out :
  preserves dirs (db_update_status env pid st out).
Proof. unfold db_update_status. primitive. Qed.

Lemma db_select_project_preserves {F} (f : World -> F) `{!TraceBlind f} pid :
  preserves f (db_select_project env pid).
Proof.
  intros w. unfold db_select_project, bind, call.
  destruct (fault _ _ _); apply trace_blind.
Qed.

Lemma db_select_images_preserves {F} (f : World -> F) `{!TraceBlind f} pid :
  preserves f (db_select_images env pid).
Proof.
  intros w. unfold db_select_images, bind, call.
  destruct (fault _ _ _); apply trace_blind.
Qed.

Lemma fs_access_preserves {F} (f : World -> F) `{!TraceBlind f} p :
  preserves f (fs_access env p).
Proof.
  intros w. unfold fs_access, bind, call.
  destruct (fault _ _ _); [apply trace_blind|].
  destruct (exists_path _ _); apply trace_blind.
Qed.

Lemma fs_mkdir_projects p : preserves projects (fs_mkdir env p).
Proof. unfold fs_mkdir. primitive. Qed.

Lemma fs_mkdir_images p : preserves images (fs_mkdir env p).
Proof. unfold fs_mkdir. primitive. Qed.

Lemma fs_mkdir_files p : preserves files (fs_mkdir env p).
Proof. unfold fs_mkdir. primitive. Qed.

Lemma fs_copyFile_projects src dst : preserves projects (fs_copyFile env src dst).
Proof. unfold fs_copyFile. primitive. Qed.

Lemma fs_copyFile_images src dst : preserves images (fs_copyFile env src dst).
Proof. unfold fs_copyFile. primitive. Qed.

Lemma fs_copyFile_dirs src dst : preserves dirs (fs_copyFile env src dst).
Proof. unfold fs_copyFile. primitive. Qed.

Lemma fs_rm_projects p : preserves projects (fs_rm env p).
Proof. unfold fs_rm. primitive. Qed.

Lemma fs_rm_images p : preserves images (fs_rm env p).
Proof. unfold fs_rm. primitive. Qed.

Lemma fs_writeFile_projects p c : preserves projects (fs_writeFile env p c).
Proof. unfold fs_writeFile. primitive. Qed.

Lemma fs_writeFile_images p c : preserves images (fs_writeFile env p c).
Proof. unfold fs_writeFile. primitive. Qed.

Lemma fs_writeFile_dirs p c : preserves dirs (fs_writeFile env p c).
Proof. unfold fs_writeFile. primitive. Qed.

Lemma await_child_projects bin args out : preserves projects (await_child env bin args out).
Proof.
  intros w. unfold await_child.
  destruct (child _ _ _ _) as [err|[[|p|p]|] stderr [c|]]; reflexivity.
Qed.

Lemma await_child_images bin args out : preserves images (await_child env bin args out).
Proof.
  intros w. unfold await_child.
  destruct (child _ _ _ _) as [err|[[|p|p]|] stderr [c|]]; reflexivity.
Qed.

Lemma await_child_dirs bin args out : preserves dirs (await_child env bin args out).
Proof.
  intros w. unfold await_child.
  destruct (child _ _ _ _) as [err|[[|p|p]|] stderr [c|]]; reflexivity.
Qed.
End Collaborators.

#[global] Hint Resolve db_update_status_images db_update_status_files
  db_update_status_dirs db_select_project_preserves db_select_images_preserves
  fs_access_preserves fs_mkdir_projects fs_mkdir_images fs_mkdir_files
  fs_copyFile_projects fs_copyFile_images fs_copyFile_dirs fs_rm_projects
  fs_rm_images fs_writeFile_projects fs_writeFile_images fs_writeFile_dirs
  await_child_projects await_child_images await_child_dirs : preserve.

Section Phases.
Context (env : Env).

Lemma verify_images_preserves {F} (f : World -> F) `{!TraceBlind f} imgs :
  preserves f (verify_images env imgs).
Proof. induction imgs as [|img imgs IH]; simpl; preserve. Qed.
Hint Resolve verify_images_preserves : preserve.

Lemma validate_images input : preserves images (validate env input).
Proof. unfold validate. preserve. Qed.

Lemma validate_files input : preserves files (validate env input).
Proof. unfold validate. preserve. Qed.

Lemma validate_dirs input : preserves dirs (validate env input).
Proof. unfold validate. preserve. Qed.
Hint Resolve validate_images validate_files validate_dirs : preserve.

Lemma prepare_files input : preserves files (prepare env input).
Proof. unfold prepare. preserve. Qed.

Lemma copy_images_projects d i imgs acc :
  preserves projects (copy_images env d i imgs acc).
Proof. revert i acc. induction imgs as [|img imgs IH]; simpl; preserve. Qed.

Lemma copy_images_dirs d i imgs acc :
  preserves dirs (copy_images env d i imgs acc).
Proof. revert i acc. induction imgs as [|img imgs IH]; simpl; preserve. Qed.

Lemma start_encoder_projects paths out d fps :
  preserves projects (start_encoder env paths out d fps).
Proof. unfold start_encoder. preserve. Qed.

Lemma start_encoder_dirs paths out d fps :
  preserves dirs (start_encoder env paths out d fps).
Proof. unfold start_encoder. preserve. Qed.
Hint Resolve start_encoder_projects start_encoder_dirs : preserve.

Lemma generateVideoWithFFmpeg_projects paths out d fps :
  preserves projects (generateVideoWithFFmpeg env paths out d fps).
Proof. unfold generateVideoWithFFmpeg. preserve. Qed.

Lemma generateVideoWithFFmpeg_dirs paths out d fps :
  preserves dirs (generateVideoWithFFmpeg env paths out d fps).
Proof. unfold generateVideoWithFFmpeg. preserve. Qed.

Lemma cleanup_projects a e : preserves projects (cleanup env a e).
Proof. unfold cleanup. preserve. Qed.

Lemma mark_failed_files input e : preserves files (mark_failed env input e).
Proof. unfold mark_failed. preserve. Qed.

Lemma mark_failed_dirs input e : preserves dirs (mark_failed env input e).
Proof. unfold mark_failed. preserve. Qed.

Lemma mark_failed_images input e : preserves images (mark_failed env input e).
Proof. unfold mark_failed. preserve. Qed.
End Phases.

#[global] Hint Resolve verify_images_preserves validate_images validate_files
  validate_dirs prepare_files copy_images_projects copy_images_dirs
  start_encoder_projects start_encoder_dirs generateVideoWithFFmpeg_projects
  generateVideoWithFFmpeg_dirs cleanup_projects mark_failed_files
  mark_failed_dirs mark_failed_images : preserve.

Lemma preserves_run {A F} (f : World -> F) (m : Async A) w r w' :
  preserves f m -> m w = (r, w') -> f w' = f w.
Proof. intros Hm H. specialize (Hm w). now rewrite H in Hm. Qed.

(** ** The project table *)

Lemma set_status_id st out t r :
  VideoProject.id (set_status st out t r) = VideoProject.id r.
Proof. reflexivity. Qed.

Lemma project_rows_update pid f rows :
  (forall r, VideoProject.id (f r) = VideoProject.id r) ->
  project_rows pid (update_where pid f rows) = map f (project_rows pid rows).
Proof.
  intros Hid. unfold project_rows, update_where.
  induction rows as [|r rows IH]; simpl; [reflexivity|].
  destruct (VideoProject.id r =? pid) eqn:E; simpl.
  - now rewrite Hid, E, IH.
  - now rewrite E, IH.
Qed.

Lemma lookup_project_update pid f rows :
  (forall r, VideoProject.id (f r) = VideoProject.id r) ->
  lookup_project pid (update_where pid f rows) = f <$> lookup_project pid rows.
Proof.
  intros Hid. unfold lookup_project. rewrite project_rows_update by exact Hid.
  now destruct (project_rows pid rows).
Qed.

Lemma lookup_project_set_status pid st out t rows :
  lookup_project pid (update_where pid (set_status st out t) rows)
  = set_status st out t <$> lookup_project pid rows.
Proof. apply lookup_project_update. intros r. apply set_status_id. Qed.

Lemma outputs_kept_lookup pid rows rows' r :
  outputs_kept pid rows rows' ->
  lookup_project pid rows = Some r ->
  exists r', lookup_project pid rows' = Some r' /\
             VideoProject.output_path r' = VideoProject.output_path r /\
             (VideoProject.status r' = processing \/
              VideoProject.status r' = VideoProject.status r).
Proof.
  intros [->|(t & ->)] Hr.
  - eauto.
  - rewrite lookup_project_set_status, Hr. simpl. eauto.
Qed.

(** ** The ledger calls *)

Lemma db_update_status_inv env pid st out w r w' :
  db_update_status env pid st out w = (r, w') ->
  let issued := record (DbUpdateStatus pid st out) (record DateNow w) in
  let rows := update_where pid (set_status st out (clock env (time w))) (projects w) in
  (exists e, fault env (S (time w)) (DbUpdateStatus pid st out) = Some e /\
             r = Throw e /\ w' = issued) \/
  (fault env (S (time w)) (DbUpdateStatus pid st out) = None /\
   r = Return (project_rows pid rows) /\ w' = set_projects rows issued).
Proof.
  unfold db_update_status, bind, now, call. simpl. intros H.
  change (time (record DateNow w)) with (S (time w)) in H.
  destruct (fault env (S (time w)) _) as [e|] eqn:E; inversion H; subst; cbv zeta.
  - left. eauto.
  - right. eauto.
Qed.

Lemma db_update_status_ok env pid st out w :
  ledger_reliable env ->
  let rows := update_where pid (set_status st out (clock env (time w))) (projects w) in
  db_update_status env pid st out w =
    (Return (project_rows pid rows),
     set_projects rows (record (DbUpdateStatus pid st out) (record DateNow w))).
Proof.
  intros Hdb. unfold db_update_status, bind, now, call. simpl.
  now rewrite (Hdb (time (record DateNow w)) (DbUpdateStatus pid st out) eq_refl).
Qed.

Lemma db_select_project_inv env pid w r w' :
  db_select_project env pid w = (r, w') ->
  w' = record (DbSelectProject pid) w /\
  ((exists e, r = Throw e) \/ r = Return (project_rows pid (projects w))).
Proof.
  unfold db_select_project, bind, call.
  destruct (fault _ _ _); intros H; inversion H; subst; eauto.
Qed.

Lemma db_select_images_inv env pid w r w' :
  db_select_images env pid w = (r, w') ->
  w' = record (DbSelectImages pid) w /\
  ((exists e, r = Throw e) \/
   r = Return (order_by_asc (image_rows pid (scan env (time w) (images w))))).
Proof.
  unfold db_select_images, bind, call, ret.
  destruct (fault _ _ _); intros H; inversion H; subst; eauto.
Qed.

(** ** Step 4: the files of the frames *)

Lemma exists_path_record p c w : exists_path p (record c w) = exists_path p w.
Proof. reflexivity. Qed.

Lemma fs_access_inv env p w r w' :
  fs_access env p w = (r, w') ->
  w' = record (FsAccess p) w /\
  (r = Return tt -> exists_path p w = true).
Proof.
  unfold fs_access, bind, call.
  destruct (fault _ _ _); [intros H; inversion H; subst; split; [easy|discriminate]|].
  rewrite exists_path_record.
  destruct (exists_path p w); intros H; inversion H; subst; split; easy.
Qed.

Lemma verify_images_return env imgs w w' :
  verify_images env imgs w = (Return tt, w') ->
  Forall (fun img => exists_path (Image.file_path img) w = true) imgs /\
  time w' = (time w + length imgs)%nat.
Proof.
  revert w. induction imgs as [|img imgs IH]; intros w; simpl.
  - intros H. inversion H; subst. split; [constructor|lia].
  - intros H. apply bind_inv in H as [(a & w1 & H1 & H2)|(e & H1 & ?)]; [|discriminate].
    apply try_catch_inv in H1 as [(a' & H1 & _)|(e & w2 & _ & H1)]; [|discriminate].
    apply fs_access_inv in H1 as [-> Hex]. destruct a'. specialize (Hex eq_refl).
    apply IH in H2 as [Hall Ht]. split.
    + constructor; [exact Hex|].
      eapply Forall_impl; [exact Hall|]. intros x Hx. exact Hx.
    + rewrite Ht. simpl. unfold time. simpl. lia.
Qed.

(** ** Steps 1 to 5 *)

Lemma validate_inv env input w r w' :
  validate env input w = (r, w') ->
  let pid := project_id input in
  let rows :=
    update_where pid (set_status processing None (clock env (time w))) (projects w) in
  (projects w' = projects w \/ projects w' = rows) /\
  match r with
  | Return (p, imgs) =>
      projects w' = rows /\ lookup_project pid rows = Some p /\ imgs <> [] /\
      imgs = order_by_asc (image_rows pid (scan env (time w + 3)%nat (images w))) /\
      Forall (fun img => exists_path (Image.file_path img) w = true) imgs
  | Throw _ => True
  end.
Proof.
  intros H pid rows. unfold validate in H.
  apply bind_inv in H as [(a & w1 & H1 & H)|(e & H1 & ->)].
  2: { apply db_update_status_inv in H1 as [(e' & _ & _ & ->)|(_ & ? & _)];
         [|discriminate]. split; [left; reflexivity|exact I]. }
  apply db_update_status_inv in H1 as [(e' & _ & ? & _)|(_ & _ & ->)]; [discriminate|].
  apply bind_inv in H as [(ps & w2 & H2 & H)|(e & H2 & ->)].
  2: { apply db_select_project_inv in H2 as [-> _]. split; [right; reflexivity|exact I]. }
  apply db_select_project_inv in H2 as [-> [[e ?]|Hps]]; [discriminate|].
  injection Hps as ->. simpl in H. fold pid rows in H.
  destruct (project_rows pid rows) as [|p ps] eqn:Ep.
  { inversion H; subst. split; [right; reflexivity|exact I]. }
  apply bind_inv in H as [(imgs & w3 & H3 & H)|(e & H3 & ->)].
  2: { apply db_select_images_inv in H3 as [-> _]. split; [right; reflexivity|exact I]. }
  apply db_select_images_inv in H3 as [-> [[e ?]|Himgs]]; [discriminate|].
  injection Himgs as Himgs. simpl in Himgs.
  destruct imgs as [|img imgs].
  { inversion H; subst. split; [right; reflexivity|exact I]. }
  apply bind_inv in H as [([] & w4 & H4 & H)|(e & H4 & ->)].
  2: { split; [right|exact I].
       now rewrite (preserves_run projects _ _ _ _ (verify_images_preserves env _ _) H4). }
  inversion H; subst r w4. clear H.
  pose proof (preserves_run projects _ _ _ _ (verify_images_preserves env _ _) H4) as Hp.
  apply verify_images_return in H4 as [Hall _].
  simpl in Hp. split; [right; exact Hp|].
  split; [exact Hp|]. split; [unfold lookup_project; now rewrite Ep|].
  split; [discriminate|]. split; [|exact Hall].
  replace (time w + 3)%nat with (S (S (S (time w)))) by lia. exact Himgs.
Qed.

Lemma with_parents_self p : p ∈ with_parents p.
Proof. apply elem_of_list_to_set, elem_of_app. right. left. Qed.

Lemma fs_mkdir_inv env p w r w' :
  fs_mkdir env p w = (r, w') ->
  (exists e, r = Throw e /\ dirs w' = dirs w) \/
  (r = Return tt /\
   w' = set_dirs (with_parents p ∪ dirs w) (record (FsMkdir p) w)).
Proof.
  unfold fs_mkdir, bind, call.
  destruct (fault _ _ _); intros H; inversion H; subst; simpl; eauto.
Qed.

Lemma prepare_inv env input w r w' :
  prepare env input w = (r, w') ->
  let pid := project_id input in
  let rows :=
    update_where pid (set_status processing None (clock env (time w))) (projects w) in
  (projects w' = projects w \/ projects w' = rows) /\
  match r with
  | Return a =>
      projects w' = rows /\ lookup_project pid rows = Some (project a) /\
      frames a <> [] /\
      frames a = order_by_asc (image_rows pid (scan env (time w + 3)%nat (images w))) /\
      Forall (fun img => exists_path (Image.file_path img) w = true) (frames a) /\
      outputPath a =
        path_join (path_join "uploads" "videos")
          (output_name pid (clock env (time w' - 3))) /\
      tempDir a =
        path_join (path_join "uploads" "temp")
          (temp_name pid (clock env (time w' - 2))) /\
      tempDir a ∈ dirs w'
  | Throw _ => True
  end.
Proof.
  intros H pid rows. unfold prepare in H.
  apply bind_inv in H as [([p imgs] & w1 & H1 & H)|(e & H1 & ->)].
  2: { apply validate_inv in H1 as [Hp _]. split; [exact Hp|exact I]. }
  apply validate_inv in H1 as [Hp0 (Hp & Hl & Hne & Himgs & Hall)].
  fold pid rows in Hp0, Hp, Hl.
  apply bind_inv in H as [([] & w2 & H2 & H)|(e & H2 & ->)].
  2: { split; [|exact I].
       now rewrite (preserves_run projects _ _ _ _ (fs_mkdir_projects env _) H2). }
  pose proof (preserves_run projects _ _ _ _ (fs_mkdir_projects env _) H2) as Hp2.
  apply fs_mkdir_inv in H2 as [(e' & ? & _)|(_ & W2)]; [discriminate|].
  clear W2. unfold bind at 1, now at 1 in H. unfold bind at 1, now at 1 in H.
  apply bind_inv in H as [([] & w3 & H3 & H)|(e & H3 & ->)].
  2: { split; [|exact I].
       rewrite (preserves_run projects _ _ _ _ (fs_mkdir_projects env _) H3).
       simpl. rewrite Hp2. now right. }
  inversion H; subst r w3. clear H.
  apply fs_mkdir_inv in H3 as [(e' & ? & _)|(_ & ->)]; [discriminate|].
  assert (projects w2 = rows) as Hp3 by (now rewrite Hp2).
  split; [right; exact Hp3|]. simpl.
  do 5 (split; [assumption|]). split; [|split; [reflexivity|]].
  - unfold time. simpl. now rewrite Nat.sub_0_r.
  - apply elem_of_union_l, with_parents_self.
Qed.

(** The output file is not in the staging directory. *)
Lemma output_outside_staging x y :
  within (path_join (path_join "uploads" "temp") x)
         (path_join (path_join "uploads" "videos") y) = false.
Proof. reflexivity. Qed.

(** ** The file system calls *)

Lemma fs_rm_inv env d w r w' :
  fs_rm env d w = (r, w') ->
  FsRm d ∈ trace w' /\
  forall p, within d p = false -> files w' !! p = files w !! p.
Proof.
  unfold fs_rm, bind, call.
  destruct (fault _ _ _); intros H; inversion H; subst; simpl.
  - split; [left|]. easy.
  - split; [left|]. intros p Hp.
    destruct (files w !! p) as [c|] eqn:E.
    + now apply map_lookup_filter_Some_2.
    + apply map_lookup_filter_None_2. now left.
Qed.

(** After a removal that did not throw, nothing is left in the directory. *)
Lemma fs_rm_return env d w w' :
  fs_rm env d w = (Return tt, w') ->
  (d ∉ dirs w') /\ forall p, within d p = true -> files w' !! p = None.
Proof.
  unfold fs_rm, bind, call.
  destruct (fault _ _ _); intros H; inversion H; subst; simpl. split.
  - intros [Hd _]%elem_of_filter. unfold within in Hd.
    now rewrite String.eqb_refl in Hd.
  - intros p Hp. apply map_lookup_filter_None_2. right. intros c _. simpl. congruence.
Qed.

Lemma fs_writeFile_inv env p c w r w' :
  fs_writeFile env p c w = (r, w') ->
  (exists e, r = Throw e /\ files w' = files w) \/
  (r = Return tt /\ files w' = <[ p := c ]> (files w)).
Proof.
  unfold fs_writeFile, bind, call.
  destruct (fault _ _ _); intros H; inversion H; subst; simpl; eauto.
Qed.

(** ** Step 7: the encoder *)

Lemma await_child_inv env bin args out w r w' :
  await_child env bin args out w = (r, w') ->
  match child env (time w) bin args with
  | SpawnFailed error =>
      r = Throw (Error ("Failed to start ffmpeg: " +:+ message error)) /\
      files w' = files w
  | Closed code stderr output =>
      files w' = match output with
                 | Some c => <[ out := c ]> (files w)
                 | None => files w
                 end /\
      r = match code with
          | Some 0 => Return tt
          | _ => Throw (Error ("FFmpeg process failed with exit code " +:+
                               code_text code +:+ ": " +:+ stderr))
          end
  end.
Proof.
  unfold await_child.
  destruct (child _ _ _ _) as [err|[[|p|p]|] stderr [c|]];
    intros H; inversion H; subst; easy.
Qed.

Lemma start_encoder_inv env paths out d fps w r w' :
  start_encoder env paths out d fps w = (r, w') ->
  match r with
  | Return (Some (bin, args)) =>
      bin = ffmpeg_static env /\ args = ffmpeg_args paths out d fps /\
      files w' = files w /\
      fault env (time w) RequireFfmpegStatic = None /\
      w' = record (Spawn bin args)
             (record (ConsoleLog "Starting ffmpeg with args:")
                (record RequireFfmpegStatic w))
  | Return None =>
      files w' = <[ out := placeholderContent ]> (files w) /\
      ConsoleWarn "ffmpeg-static not available, creating placeholder video file"
        ∈ trace w'
  | Throw _ => files w' = files w
  end.
Proof.
  unfold start_encoder, try_catch, bind, call, console, ret. simpl.
  destruct (fault env (time w) RequireFfmpegStatic) as [e|] eqn:E1.
  - unfold fs_writeFile, bind, call. simpl.
    destruct (fault env _ (FsWriteFile out)); simpl; intros H; inversion H; subst;
      simpl; [easy|].
    split; [reflexivity|]. do 2 right. left.
  - destruct (fault env _ (Spawn _ _)) as [e|] eqn:E2.
    + unfold fs_writeFile, bind, call. simpl.
      destruct (fault env _ (FsWriteFile out)); simpl; intros H; inversion H; subst;
        simpl; [easy|].
      split; [reflexivity|]. do 2 right. left.
    + simpl. intros H; inversion H; subst. easy.
Qed.

Lemma generateVideoWithFFmpeg_return env paths out d fps w w' :
  encoder_honest env ->
  generateVideoWithFFmpeg env paths out d fps w = (Return tt, w') ->
  is_Some (files w' !! out).
Proof.
  intros Hhonest H. unfold generateVideoWithFFmpeg in H.
  apply bind_inv in H as [(started & w1 & H1 & H)|(e & _ & ?)]; [|discriminate].
  apply start_encoder_inv in H1.
  destruct started as [[bin args]|].
  - apply await_child_inv in H.
    destruct (child _ _ _ _) as [err|code stderr output] eqn:Ec; [now destruct H|].
    destruct H as [Hf Hr].
    destruct code as [[|p|p]|]; try discriminate.
    destruct output as [c|]; [|now apply Hhonest in Ec].
    rewrite Hf, lookup_insert_eq. eauto.
  - inversion H; subst. destruct H1 as [-> _]. rewrite lookup_insert_eq. eauto.
Qed.

(** ** Steps 6 to 9 and the two handlers *)

(** The [UPDATE ... RETURNING] of step 9 on a table that has the project. *)
Lemma completed_rows pid out t rows row :
  lookup_project pid rows = Some row ->
  exists rest,
    project_rows pid (update_where pid (set_status completed (Some out) t) rows)
    = set_status completed (Some out) t row :: rest.
Proof.
  intros Hrow. rewrite project_rows_update by (intros; apply set_status_id).
  unfold lookup_project in Hrow.
  destruct (project_rows pid rows) as [|r rest]; simplify_eq/=. eauto.
Qed.

Lemma stage_and_encode_inv env input a w r w' :
  stage_and_encode env input a w = (r, w') ->
  forall row, lookup_project (project_id input) (projects w) = Some row ->
  match r with
  | Return v =>
      exists t,
        projects w' =
          update_where (project_id input)
            (set_status completed (Some (outputPath a)) t) (projects w) /\
        v = parse_numeric env (set_status completed (Some (outputPath a)) t row) /\
        (encoder_honest env -> within (tempDir a) (outputPath a) = false ->
         is_Some (files w' !! outputPath a))
  | Throw e => projects w' = projects w
  end.
Proof.
  intros H row Hrow. unfold stage_and_encode in H.
  apply bind_inv in H as [(paths & w1 & H1 & H)|(e & H1 & ->)].
  2: { exact (preserves_run projects _ _ _ _ (copy_images_projects env _ _ _ _) H1). }
  pose proof (preserves_run projects _ _ _ _ (copy_images_projects env _ _ _ _) H1) as P1.
  apply bind_inv in H as [([] & w2 & H2 & H)|(e & H2 & ->)].
  2: { rewrite <- P1.
       exact (preserves_run projects _ _ _ _
                (generateVideoWithFFmpeg_projects env _ _ _ _) H2). }
  pose proof (preserves_run projects _ _ _ _
                (generateVideoWithFFmpeg_projects env _ _ _ _) H2) as P2.
  apply bind_inv in H as [([] & w3 & H3 & H)|(e & H3 & ->)].
  2: { rewrite <- P1, <- P2.
       exact (preserves_run projects _ _ _ _ (fs_rm_projects env _) H3). }
  pose proof (preserves_run projects _ _ _ _ (fs_rm_projects env _) H3) as P3.
  assert (projects w3 = projects w) as P by congruence.
  apply bind_inv in H as [(updated & w4 & H4 & H)|(e & H4 & ->)].
  2: { apply db_update_status_inv in H4 as [(e' & _ & _ & ->)|(_ & ? & _)];
         [exact P|discriminate]. }
  apply db_update_status_inv in H4 as [(e' & _ & ? & _)|(_ & Hup & ->)]; [discriminate|].
  injection Hup as ->. rewrite P in H.
  destruct (completed_rows (project_id input) (outputPath a)
              (clock env (time w3)) _ _ Hrow) as [rest Hrest].
  rewrite Hrest in H. inversion H; subst r w'. clear H.
  exists (clock env (time w3)). simpl. do 2 (split; [reflexivity|]).
  intros Hhonest Hout.
  apply fs_rm_inv in H3 as [_ Hkeep]. rewrite (Hkeep _ Hout).
  eapply generateVideoWithFFmpeg_return; eassumption.
Qed.

Lemma cleanup_inv env a e w :
  exists w', cleanup env a e w = (Throw e, w') /\
             projects w' = projects w /\ FsRm (tempDir a) ∈ trace w' /\
             (forall p, within (tempDir a) p = false -> files w' !! p = files w !! p) /\
             (forall d, d ∈ dirs w' -> d ∈ dirs w).
Proof.
  unfold cleanup, bind at 1, try_catch.
  destruct (fs_rm env (tempDir a) w) as [[[]|e'] w1] eqn:H.
  - exists w1. split; [reflexivity|].
    split; [exact (preserves_run projects _ _ _ _ (fs_rm_projects env _) H)|].
    pose proof (fs_rm_inv _ _ _ _ _ H) as [Htr Hkeep].
    split; [exact Htr|]. split; [exact Hkeep|].
    unfold fs_rm, bind, call in H. destruct (fault _ _ _); [discriminate|].
    inversion H; subst w1. simpl. intros d [_ Hd]%elem_of_filter. exact Hd.
  - eexists. split; [reflexivity|]. simpl.
    split; [exact (preserves_run projects _ _ _ _ (fs_rm_projects env _) H)|].
    pose proof (fs_rm_inv _ _ _ _ _ H) as [Htr Hkeep].
    split; [now right|]. split; [exact Hkeep|].
    unfold fs_rm, bind, call in H. destruct (fault _ _ _); [|discriminate].
    inversion H; subst w1. simpl. auto.
Qed.

Lemma mark_failed_inv env input e w :
  let rows :=
    update_where (project_id input) (set_status failed None (clock env (time w)))
      (projects w) in
  exists w', mark_failed env input e w = (Throw e, w') /\
             ((projects w' = rows /\ time w' = (time w + 3)%nat) \/
              (projects w' = projects w /\ update_rejected w')) /\
             (ledger_reliable env ->
              projects w' = rows /\ time w' = (time w + 3)%nat) /\
             (forall c, c ∈ trace w -> c ∈ trace w').
Proof.
  unfold mark_failed, bind at 1, try_catch, bind at 1.
  destruct (db_update_status env _ _ _ w) as [[updated|e'] w1] eqn:H.
  - apply db_update_status_inv in H as [(? & _ & ? & _)|(_ & _ & ->)]; [discriminate|].
    eexists. split; [reflexivity|]. simpl.
    assert (forall n, S (S (S n)) = (n + 3)%nat) as E by (intros; lia).
    split; [left; split; [reflexivity|apply E]|].
    split; [intros _; split; [reflexivity|apply E]|].
    intros c Hc. now do 3 right.
  - apply db_update_status_inv in H as [(? & Hf & _ & ->)|(_ & ? & _)]; [|discriminate].
    eexists. split; [reflexivity|]. simpl.
    split; [right; split; [reflexivity|right; left]|].
    split; [|intros c Hc; now do 4 right].
    intros Hdb.
    now rewrite (Hdb _ (DbUpdateStatus (project_id input) failed None) eq_refl) in Hf.
Qed.

Lemma attempt_inv env input w r w' :
  attempt env input w = (r, w') ->
  forall row, lookup_project (project_id input) (projects w) = Some row ->
  match r with
  | Return v =>
      exists p,
        lookup_project (project_id input) (projects w') = Some p /\
        VideoProject.status p = completed /\
        (exists t,
           VideoProject.output_path p =
             Some (path_join (path_join "uploads" "videos")
                     (output_name (project_id input) t))) /\
        v = parse_numeric env p /\
        (encoder_honest env ->
         exists out, VideoProject.output_path p = Some out /\ is_Some (files w' !! out))
  | Throw e => outputs_kept (project_id input) (projects w) (projects w')
  end.
Proof.
  intros H row Hrow. unfold attempt in H.
  apply bind_inv in H as [(a & w1 & H1 & H)|(e & H1 & ->)].
  2: { apply prepare_inv in H1 as [[->| ->] _]; [now left|right; eauto]. }
  apply prepare_inv in H1 as [_ (P1 & Hl & _ & _ & _ & Hout & Htemp & _)].
  assert (lookup_project (project_id input) (projects w1) = Some (project a)) as Hrow1
    by (now rewrite P1).
  apply try_catch_inv in H as [(v & H & ->)|(e & w2 & H & Hc)].
  - pose proof (stage_and_encode_inv _ _ _ _ _ _ H _ Hrow1) as (t & P & -> & Hfile).
    exists (set_status completed (Some (outputPath a)) t (project a)).
    rewrite P, lookup_project_set_status, Hrow1. simpl.
    do 2 (split; [reflexivity|]). split; [rewrite Hout; eauto|].
    split; [reflexivity|]. intros Hhonest. eexists. split; [reflexivity|].
    apply Hfile; [exact Hhonest|]. rewrite Hout, Htemp. apply output_outside_staging.
  - pose proof (stage_and_encode_inv _ _ _ _ _ _ H _ Hrow1) as P.
    destruct (cleanup_inv env a e w2) as (w3 & Hc' & P3 & _).
    rewrite Hc' in Hc. inversion Hc; subst r w'. clear Hc.
    right. exists (clock env (time w)). congruence.
Qed.

Lemma simulate_inv env input w r w' :
  simulate env input w = (r, w') ->
  forall row, lookup_project (project_id input) (projects w) = Some row ->
  match r with
  | Return v =>
      exists p out,
        lookup_project (project_id input) (projects w') = Some p /\
        VideoProject.status p = completed /\
        VideoProject.output_path p = Some out /\
        is_Some (files w' !! out)
  | Throw e => outputs_kept (project_id input) (projects w) (projects w')
  end.
Proof.
  intros H row Hrow. unfold simulate in H.
  set (pid := project_id input) in *.
  assert (forall rows', projects w = rows' \/
            update_where pid (set_status processing None (clock env (time w)))
              (projects w) = rows' ->
          outputs_kept pid (projects w) rows') as Hkept.
  { intros rows' [<-|<-]; [now left|right; eauto]. }
  apply bind_inv in H as [([p imgs] & w1 & H1 & H)|(e & H1 & ->)].
  2: { apply validate_inv in H1 as [[->| ->] _]; apply Hkept; auto. }
  apply validate_inv in H1 as [_ (P1 & Hl & _)]. fold pid in P1, Hl.
  apply bind_inv in H as [([] & w2 & H2 & H)|(e & H2 & ->)].
  2: { rewrite (preserves_run projects _ _ _ _ (fs_mkdir_projects env _) H2), P1.
       apply Hkept; auto. }
  pose proof (preserves_run projects _ _ _ _ (fs_mkdir_projects env _) H2) as P2.
  unfold bind at 1, now at 1 in H.
  set (out := path_join _ _) in H.
  apply bind_inv in H as [([] & w3 & H3 & H)|(e & H3 & ->)].
  2: { rewrite (preserves_run projects _ _ _ _ (fs_writeFile_projects env _ _) H3).
       simpl. rewrite P2, P1. apply Hkept; auto. }
  pose proof (preserves_run projects _ _ _ _ (fs_writeFile_projects env _ _) H3) as P3.
  simpl in P3. rewrite P2, P1 in P3.
  apply fs_writeFile_inv in H3 as [(? & ? & _)|(_ & F3)]; [discriminate|].
  assert (lookup_project pid (projects w3) = Some p) as Hrow3 by (now rewrite P3).
  apply bind_inv in H as [(updated & w4 & H4 & H)|(e & H4 & ->)].
  2: { apply db_update_status_inv in H4 as [(e' & _ & _ & ->)|(_ & ? & _)];
         [|discriminate]. simpl. rewrite P3. apply Hkept; auto. }
  apply db_update_status_inv in H4 as [(e' & _ & ? & _)|(_ & Hup & ->)]; [discriminate|].
  injection Hup as ->.
  destruct (completed_rows pid out (clock env (time w3)) _ _ Hrow3) as [rest Hrest].
  rewrite Hrest in H. inversion H; subst r w'. clear H.
  exists (set_status completed (Some out) (clock env (time w3)) p), out. simpl.
  rewrite lookup_project_set_status, Hrow3. simpl.
  do 3 (split; [reflexivity|]). rewrite F3, lookup_insert_eq. eauto.
Qed.

(** ** Terminal status of a call *)

Lemma handler_ends env input w row (body : Async VideoProject.row) :
  lookup_project (project_id input) (projects w) = Some row ->
  (forall r w1, body w = (r, w1) ->
     match r with
     | Return v =>
         exists p out,
           lookup_project (project_id input) (projects w1) = Some p /\
           VideoProject.status p = completed /\
           VideoProject.output_path p = Some out /\
           is_Some (files w1 !! out)
     | Throw e => outputs_kept (project_id input) (projects w) (projects w1)
     end) ->
  let run := try_catch body (mark_failed env input) w in
  ends_marked_or_logged (project_id input) row run /\
  (ledger_reliable env -> ends_completed_or_failed (project_id input) row run).
Proof.
  intros Hrow Hbody run. subst run. unfold try_catch.
  destruct (body w) as [[v|e] w1] eqn:H; specialize (Hbody _ _ eq_refl).
  - destruct Hbody as (p & out & Hp & Hst & Hout & Hfile).
    split; [|intros _]; exists p; (split; [exact Hp|]); left; simpl; eauto 6.
  - destruct (mark_failed_inv env input e w1) as (w' & -> & P & Pdb & _).
    destruct (outputs_kept_lookup _ _ _ _ Hbody Hrow) as (r1 & Hr1 & Ho1 & Hs1).
    split.
    + destruct P as [[P _]|[P Hlog]].
      * exists (set_status failed None (clock env (time w1)) r1). simpl.
        rewrite P, lookup_project_set_status, Hr1. simpl.
        split; [reflexivity|]. right. split; [tauto|]. split; [exact Ho1|now left].
      * exists r1. simpl. rewrite P. split; [exact Hr1|]. right.
        split; [tauto|]. split; [exact Ho1|]. right. split; [exact Hlog|exact Hs1].
    + intros Hdb. destruct (Pdb Hdb) as [P' _].
      exists (set_status failed None (clock env (time w1)) r1). simpl.
      rewrite P', lookup_project_set_status, Hr1. simpl.
      split; [reflexivity|]. right. split; [tauto|]. split; [reflexivity|exact Ho1].
Qed.




(** ** The output path across attempts *)

(** C3, as stated, fails: after a successful call and then a call that fails
    because an image file is gone, the output path of the project is still
    set although the most recent attempt did not succeed. *)
Lemma output_path_outlives_failure :
  let run := generateVideo quiet_env sample_input image_lost in
  exists row,
    lookup_project 1 (projects run.2) = Some row /\
    ~ (is_Some (VideoProject.output_path row) <-> succeeded run.1).
Proof.
  eexists. split; [vm_compute; reflexivity|].
  intros [H _]. vm_compute in H. apply H. eauto.
Qed.

(** A call that returns has gone through steps 1 to 5 and then through
    steps 6 to 9. *)
Lemma attempt_return env input w v w' :
  attempt env input w = (Return v, w') ->
  exists a w1,
    prepare env input w = (Return a, w1) /\
    stage_and_encode env input a w1 = (Return v, w').
Proof.
  intros H. unfold attempt in H.
  apply bind_inv in H as [(a & w1 & H1 & H)|(e & _ & ?)]; [|discriminate].
  apply try_catch_inv in H as [(v' & H & E)|(e & w2 & _ & Hc)].
  - injection E as <-. eauto.
  - destruct (cleanup_inv env a e w2) as (w3 & Hc' & _). congruence.
Qed.

(** C3, amended.  After a call on a project that exists: if the call
    succeeded, the output path of the project is the path that this call has
    allocated in step 5, [uploads/videos/project_<id>_<ms>.mp4] with the
    reading of the clock that the call took for it, and the row is
    [completed]; if it failed the output path is what it was before the
    call, set or not. *)
Theorem output_path_after_attempt env input w row :
  lookup_project (project_id input) (projects w) = Some row ->
  let run := generateVideo env input w in
  exists after,
    lookup_project (project_id input) (projects run.2) = Some after /\
    (succeeded run.1 ->
     exists a w1,
       prepare env input w = (Return a, w1) /\
       VideoProject.output_path after = Some (outputPath a) /\
       outputPath a =
         path_join (path_join "uploads" "videos")
           (output_name (project_id input) (clock env (time w1 - 3))) /\
       VideoProject.status after = completed) /\
    (~ succeeded run.1 ->
     VideoProject.output_path after = VideoProject.output_path row).
Proof.
  intros Hrow run. subst run. unfold generateVideo, try_catch.
  destruct (attempt env input w) as [[v|e] w1] eqn:H.
  - destruct (attempt_return _ _ _ _ _ H) as (a & w0 & H1 & H2).
    pose proof (prepare_inv _ _ _ _ _ H1) as [_ (P1 & Hl & _ & _ & _ & Hout & _)].
    assert (lookup_project (project_id input) (projects w0) = Some (project a))
      as Hrow0 by (now rewrite P1).
    pose proof (stage_and_encode_inv _ _ _ _ _ _ H2 _ Hrow0) as (t & P & _ & _).
    exists (set_status completed (Some (outputPath a)) t (project a)). simpl.
    rewrite P, lookup_project_set_status, Hrow0. simpl.
    split; [reflexivity|]. split; [|tauto].
    intros _. exists a, w0. auto.
  - pose proof (attempt_inv _ _ _ _ _ H _ Hrow) as Hinv.
    destruct (mark_failed_inv env input e w1) as (w' & -> & P & _). simpl.
    destruct (outputs_kept_lookup _ _ _ _ Hinv Hrow) as (r1 & Hr1 & Ho1 & _).
    destruct P as [[-> _]|[-> _]].
    + exists (set_status failed None (clock env (time w1)) r1).
      rewrite lookup_project_set_status, Hr1. simpl.
      split; [reflexivity|]. split; [tauto|]. intros _. exact Ho1.
    + exists r1. split; [exact Hr1|]. split; [tauto|]. intros _. exact Ho1.
Qed.

Lemma output_path_after_attempt_witness :
  let run := generateVideo quiet_env sample_input sample_world in
  exists after,
    lookup_project 1 (projects run.2) = Some after /\
    (succeeded run.1 ->
     exists a w1,
       prepare quiet_env sample_input sample_world = (Return a, w1) /\
       VideoProject.output_path after = Some (outputPath a) /\
       outputPath a =
         path_join (path_join "uploads" "videos")
           (output_name 1 (clock quiet_env (time w1 - 3))) /\
       VideoProject.status after = completed) /\
    (~ succeeded run.1 -> VideoProject.output_path after = None).
Proof.
  apply (output_path_after_attempt quiet_env sample_input sample_world sample_project).
  reflexivity.
Defined.

(** ** Calls a computation may add to the trace *)

Section Emits.
Context (P : Call -> Prop).

Lemma emits_ret {A} (a : A) : emits P (ret a).
Proof. intros w c. now left. Qed.

Lemma emits_throw {A} e : emits P (@throw A e).
Proof. intros w c. now left. Qed.

Lemma emits_bind {A B} (m : Async A) (k : A -> Async B) :
  emits P m -> (forall a, emits P (k a)) -> emits P (bind m k).
Proof.
  intros Hm Hk w c. unfold bind. specialize (Hm w).
  destruct (m w) as [[a|e] w1]; simpl in *; [|apply Hm].
  intros [Hc|Hc]%Hk; [apply Hm, Hc|now right].
Qed.

Lemma emits_try_catch {A} (m : Async A) h :
  emits P m -> (forall e, emits P (h e)) -> emits P (try_catch m h).
Proof.
  intros Hm Hh w c. unfold try_catch. specialize (Hm w).
  destruct (m w) as [[a|e] w1]; simpl in *; [apply Hm|].
  intros [Hc|Hc]%Hh; [apply Hm, Hc|now right].
Qed.

Lemma emits_call env c : P c -> emits P (call env c).
Proof.
  intros Hc w c'. unfold call.
  destruct (fault _ _ _); simpl; intros [->|H]%elem_of_cons; auto.
Qed.

Lemma emits_console c : P c -> emits P (console c).
Proof. intros Hc w c'. simpl. intros [->|H]%elem_of_cons; auto. Qed.

Lemma emits_now env : P DateNow -> emits P (now env).
Proof. intros Hc w c'. simpl. intros [->|H]%elem_of_cons; auto. Qed.

(** A step that only rewrites the tables or the store. *)
Lemma emits_silent {A} (m : Async A) :
  (forall w, trace (m w).2 = trace w) -> emits P m.
Proof. intros Hm w c. rewrite Hm. now left. Qed.
End Emits.

Lemma emits_weaken {A} (P Q : Call -> Prop) (m : Async A) :
  (forall c, P c -> Q c) -> emits P m -> emits Q m.
Proof. intros HPQ Hm w c Hc. destruct (Hm w c Hc); auto. Qed.

Create HintDb emit.

#[global] Hint Resolve emits_ret emits_throw emits_call emits_console emits_now : emit.

Ltac emit :=
  repeat first
    [ progress intros
    | solve [ eauto with emit ]
    | match goal with
      | |- emits _ (match ?x with _ => _ end) => destruct x
      | |- emits _ (bind _ _) => apply emits_bind
      | |- emits _ (try_catch _ _) => apply emits_try_catch
      | |- emits _ (fun _ => _) => apply emits_silent; intros; reflexivity
      end ].

#[global] Hint Extern 1 (reads_only _) => reflexivity : emit.

Section ReadsOnly.
Context (env : Env).

Lemma db_update_status_reads pid st out :
  emits reads_only (db_update_status env pid st out).
Proof. unfold db_update_status. emit. Qed.

Lemma db_select_project_reads pid : emits reads_only (db_select_project env pid).
Proof. unfold db_select_project. emit. Qed.

Lemma db_select_images_reads pid : emits reads_only (db_select_images env pid).
Proof.
  intros w c. unfold db_select_images, bind, call, ret.
  destruct (fault _ _ _); simpl; intros [->|H]%elem_of_cons; auto; now right.
Qed.

Lemma fs_access_reads p : emits reads_only (fs_access env p).
Proof.
  intros w c. unfold fs_access, bind, call.
  destruct (fault _ _ _); [|destruct (exists_path _ _)]; simpl;
    intros [->|H]%elem_of_cons; auto; now right.
Qed.
Hint Resolve db_update_status_reads db_select_project_reads
  db_select_images_reads fs_access_reads : emit.

Lemma verify_images_reads imgs : emits reads_only (verify_images env imgs).
Proof. induction imgs as [|img imgs IH]; simpl; emit. Qed.
Hint Resolve verify_images_reads : emit.

Lemma validate_reads input : emits reads_only (validate env input).
Proof. unfold validate. emit. Qed.

Lemma mark_failed_reads input e : emits reads_only (mark_failed env input e).
Proof. unfold mark_failed. emit. Qed.
End ReadsOnly.

(** ** Validation failures *)

Lemma db_select_project_ok env pid w :
  ledger_reliable env ->
  db_select_project env pid w =
    (Return (project_rows pid (projects w)), record (DbSelectProject pid) w).
Proof.
  intros Hdb. unfold db_select_project, bind, call.
  now rewrite (Hdb (time w) (DbSelectProject pid) eq_refl).
Qed.

Lemma db_select_images_ok env pid w :
  ledger_reliable env ->
  db_select_images env pid w =
    (Return (order_by_asc (image_rows pid (scan env (time w) (images w)))),
     record (DbSelectImages pid) w).
Proof.
  intros Hdb. unfold db_select_images, bind, call, ret.
  now rewrite (Hdb (time w) (DbSelectImages pid) eq_refl).
Qed.

Lemma verify_images_first_missing env before img after w :
  access_faithful env ->
  Forall (fun i => exists_path (Image.file_path i) w = true) before ->
  exists_path (Image.file_path img) w = false ->
  exists w',
    verify_images env (before ++ img :: after) w =
      (Throw (Error ("Image file not found: " +:+ Image.file_path img)), w').
Proof.
  intros Hacc Hbefore Himg. revert w Hbefore Himg.
  induction before as [|b before IH]; intros w Hbefore Himg; simpl.
  - unfold bind, try_catch, fs_access, bind, call.
    rewrite Hacc. simpl. rewrite exists_path_record, Himg. simpl. eauto.
  - inversion Hbefore as [|? ? Hb Hrest]; subst.
    unfold bind at 1, try_catch, fs_access, bind at 1, call.
    rewrite Hacc. simpl. rewrite exists_path_record, Hb. simpl.
    apply IH; [|exact Himg].
    eapply Forall_impl; [exact Hrest|]. intros x Hx. exact Hx.
Qed.

Lemma generateVideo_validate_throw env input w e w1 :
  validate env input w = (Throw e, w1) ->
  generateVideo env input w = mark_failed env input e w1.
Proof.
  intros H. unfold generateVideo, attempt, prepare.
  erewrite try_catch_throw; [reflexivity|].
  erewrite bind_throw; [reflexivity|].
  erewrite bind_throw; [reflexivity|exact H].
Qed.

(** What a failed validation leaves behind once the handler has marked the
    project: the row is [failed] with its output path untouched, the store is
    as it was, and no call wrote to the store or started the encoder. *)
Lemma validation_failure env input w e w1 row :
  ledger_reliable env ->
  validate env input w = (Throw e, w1) ->
  lookup_project (project_id input) (projects w) = Some row ->
  exists w',
    generateVideo env input w = (Throw e, w') /\
    (exists after,
       lookup_project (project_id input) (projects w') = Some after /\
       VideoProject.status after = failed /\
       VideoProject.output_path after = VideoProject.output_path row) /\
    files w' = files w /\ dirs w' = dirs w /\
    (forall c, c ∈ trace w' -> c ∈ trace w \/ touches_store c = false).
Proof.
  intros Hdb H Hrow. rewrite (generateVideo_validate_throw _ _ _ _ _ H).
  destruct (mark_failed_inv env input e w1) as (w' & Hm & _ & P & _).
  destruct (P Hdb) as [P' _]. clear P. rename P' into P.
  exists w'. split; [exact Hm|]. split; [|split; [|split]].
  - assert (outputs_kept (project_id input) (projects w) (projects w1)) as Hkept.
    { apply validate_inv in H as [[->| ->] _]; [now left|right; eauto]. }
    destruct (outputs_kept_lookup _ _ _ _ Hkept Hrow) as (r1 & Hr1 & Ho1 & _).
    exists (set_status failed None (clock env (time w1)) r1).
    rewrite P, lookup_project_set_status, Hr1. simpl. auto.
  - rewrite (preserves_run files _ _ _ _ (mark_failed_files env input e) Hm).
    exact (preserves_run files _ _ _ _ (validate_files env input) H).
  - rewrite (preserves_run dirs _ _ _ _ (mark_failed_dirs env input e) Hm).
    exact (preserves_run dirs _ _ _ _ (validate_dirs env input) H).
  - intros c Hc.
    pose proof (mark_failed_reads env input e w1 c) as Hm1. rewrite Hm in Hm1.
    destruct (Hm1 Hc) as [Hc1|Hc1]; [|now right].
    pose proof (validate_reads env input w c) as Hv. rewrite H in Hv.
    destruct (Hv Hc1) as [Hc0|Hc0]; [now left|now right].
Qed.

Lemma db_update_status_run env pid st out w :
  fault env (S (time w)) (DbUpdateStatus pid st out) = None ->
  let rows := update_where pid (set_status st out (clock env (time w))) (projects w) in
  db_update_status env pid st out w =
    (Return (project_rows pid rows),
     set_projects rows (record (DbUpdateStatus pid st out) (record DateNow w))).
Proof.
  intros Hok. unfold db_update_status, bind, now, call. simpl.
  change (time (record DateNow w)) with (S (time w)). now rewrite Hok.
Qed.

Lemma db_select_project_run env pid w :
  fault env (time w) (DbSelectProject pid) = None ->
  db_select_project env pid w =
    (Return (project_rows pid (projects w)), record (DbSelectProject pid) w).
Proof. intros Hok. unfold db_select_project, bind, call. now rewrite Hok. Qed.

Lemma db_select_images_run env pid w :
  fault env (time w) (DbSelectImages pid) = None ->
  db_select_images env pid w =
    (Return (order_by_asc (image_rows pid (scan env (time w) (images w)))),
     record (DbSelectImages pid) w).
Proof. intros Hok. unfold db_select_images, bind, call, ret. now rewrite Hok. Qed.

(** The validation stops at the first frame whose file is missing, with the
    project marked [processing] by step 1. *)
Lemma validate_first_missing env input w row before img after :
  validation_answered env (project_id input) ->
  access_faithful env ->
  lookup_project (project_id input) (projects w) = Some row ->
  order_by_asc (image_rows (project_id input) (scan env (time w + 3)%nat (images w)))
    = before ++ img :: after ->
  Forall (fun i => exists_path (Image.file_path i) w = true) before ->
  exists_path (Image.file_path img) w = false ->
  exists w1,
    validate env input w =
      (Throw (Error ("Image file not found: " +:+ Image.file_path img)), w1) /\
    projects w1 =
      update_where (project_id input)
        (set_status processing None (clock env (time w))) (projects w).
Proof.
  intros Hdb Hacc Hrow Hframes Hbefore Himg. unfold validate.
  erewrite bind_return by (apply db_update_status_run, Hdb).
  erewrite bind_return by (apply db_select_project_run, Hdb).
  simpl projects.
  pose proof (lookup_project_set_status (project_id input) processing None
                (clock env (time w)) (projects w)) as Hl.
  rewrite Hrow in Hl. unfold lookup_project in Hl.
  destruct (project_rows _ _) as [|p ps]; [discriminate|].
  set (w2 := record (DbSelectProject (project_id input)) _).
  erewrite bind_return by (apply db_select_images_run, Hdb).
  replace (time w2) with (time w + 3)%nat by (unfold time; simpl; lia).
  change (images w2) with (images w). rewrite Hframes.
  destruct (verify_images_first_missing env before img after
              (record (DbSelectImages (project_id input)) w2)
              Hacc Hbefore Himg) as (w' & Hv).
  pose proof (preserves_run projects _ _ _ _ (verify_images_preserves env _ _) Hv) as P.
  destruct (before ++ img :: after) as [|x xs] eqn:E;
    [now destruct before|].
  erewrite bind_throw by exact Hv. exists w'. split; [reflexivity|exact P].
Qed.

(** What the outer [catch] makes of the row [r1] that a failed attempt has
    left: the row is [failed] with a new timestamp, or the ledger has refused
    the update, the handler has logged it, and the row is [r1] still. *)
Lemma mark_failed_row env input e w1 r1 :
  lookup_project (project_id input) (projects w1) = Some r1 ->
  exists w' after,
    mark_failed env input e w1 = (Throw e, w') /\
    files w' = files w1 /\ dirs w' = dirs w1 /\
    lookup_project (project_id input) (projects w') = Some after /\
    VideoProject.output_path after = VideoProject.output_path r1 /\
    ((VideoProject.status after = failed /\
      VideoProject.updated_at after = clock env (time w' - 3)) \/
     (update_rejected w' /\ after = r1)) /\
    (ledger_reliable env ->
     VideoProject.status after = failed /\
     VideoProject.updated_at after = clock env (time w' - 3)).
Proof.
  intros Hr1.
  destruct (mark_failed_inv env input e w1) as (w' & Hm & P & Pdb & _).
  pose proof (preserves_run files _ _ _ _ (mark_failed_files env input e) Hm) as F.
  pose proof (preserves_run dirs _ _ _ _ (mark_failed_dirs env input e) Hm) as D.
  assert (time w' = (time w1 + 3)%nat ->
          clock env (time w1) = clock env (time w' - 3)) as Ht.
  { intros ->. f_equal. lia. }
  destruct P as [[Pr Pt]|[Pr Hlog]].
  - exists w', (set_status failed None (clock env (time w1)) r1).
    rewrite Pr, lookup_project_set_status, Hr1. simpl.
    repeat split; auto.
  - exists w', r1. rewrite Pr.
    do 5 (split; [assumption || reflexivity|]). split; [now right|].
    intros Hdb. destruct (Pdb Hdb) as [Pr' Pt].
    pose proof Hr1 as Hr1'. rewrite <- Pr, Pr' in Hr1'.
    rewrite lookup_project_set_status, Hr1 in Hr1'. simpl in Hr1'.
    injection Hr1' as E. rewrite <- E. simpl. auto.
Qed.




(** ** Failure propagation *)


(** The calls of steps 1 to 5: queries, readings of the clock, file checks
    and the making of the two directories. *)
Lemma prepare_reads_or_mkdir env input :
  emits (fun c => touches_store c = false \/ is_mkdir c = true) (prepare env input).
Proof.
  assert (forall d, emits (fun c => touches_store c = false \/ is_mkdir c = true)
                      (fs_mkdir env d)) as Hmk.
  { intros d. unfold fs_mkdir. apply emits_bind.
    - apply emits_call. now right.
    - intros _. apply emits_silent. reflexivity. }
  assert (emits (fun c => touches_store c = false \/ is_mkdir c = true) (now env))
    as Hnow by (apply emits_now; now left).
  unfold prepare. apply emits_bind.
  - eapply emits_weaken; [|apply validate_reads]. intros c Hc. now left.
  - intros checked. apply emits_bind; [apply Hmk|intros _].
    apply emits_bind; [apply Hnow|intros t1].
    apply emits_bind; [apply Hnow|intros t2].
    apply emits_bind; [apply Hmk|intros _]. apply emits_ret.
Qed.

(** The outer [catch] and the inner [catch] only add calls to the trace, the
    inner one after its call of the removal. *)
Lemma mark_failed_extends env input e w :
  exists later, trace (mark_failed env input e w).2 = later ++ trace w.
Proof.
  unfold mark_failed, bind, try_catch, db_update_status, bind, now, call, console,
    throw, ret. simpl.
  destruct (fault env _ _); simpl.
  - now exists [ConsoleError "Video generation failed:";
                ConsoleError "Failed to update project status to failed:";
                DbUpdateStatus (project_id input) failed None; DateNow].
  - now exists [ConsoleError "Video generation failed:";
                DbUpdateStatus (project_id input) failed None; DateNow].
Qed.

Lemma cleanup_extends env a e w :
  exists later,
    trace (cleanup env a e w).2 = later ++ FsRm (tempDir a) :: trace w.
Proof.
  unfold cleanup, bind, try_catch, fs_rm, bind, call, console, throw. simpl.
  destruct (fault env _ _); simpl.
  - now exists [ConsoleError "Failed to clean up temp directory:"].
  - now exists [].
Qed.

(** The row of the project after the outer [catch], when the failed attempt
    has left the row [r1]. *)
Lemma failed_row_marked env input e w w1 wf w' row r1 :
  mark_failed env input e wf = (Throw e, w') ->
  projects wf = projects w1 ->
  lookup_project (project_id input) (projects w1) = Some r1 ->
  left_by_attempt env w row r1 ->
  exists after,
    lookup_project (project_id input) (projects w') = Some after /\
    VideoProject.output_path after = VideoProject.output_path row /\
    ((VideoProject.status after = failed /\
      VideoProject.updated_at after = clock env (time w' - 3)) \/
     (update_rejected w' /\
      lookup_project (project_id input) (projects w1) = Some after /\
      left_by_attempt env w row after)) /\
    (ledger_reliable env ->
     VideoProject.status after = failed /\
     VideoProject.updated_at after = clock env (time w' - 3)).
Proof.
  intros Hm P Hr1 Hleft.
  assert (lookup_project (project_id input) (projects wf) = Some r1) as Hrf
    by (now rewrite P).
  destruct (mark_failed_row env input e wf r1 Hrf)
    as (w'' & after & Hm' & _ & _ & Hl & Ho & Hst & Hdb).
  rewrite Hm in Hm'. injection Hm' as <-.
  exists after. split; [exact Hl|]. split.
  { rewrite Ho. now destruct Hleft as [->| ->]. }
  split; [|exact Hdb].
  destruct Hst as [Hf|[Hlog ->]]; [now left|right; auto].
Qed.



(** ** Failure of the removal after a successful encoding *)




(** ** The outcome of the encoder *)

Lemma mentions_chars P hay needle :
  mentions hay needle -> all_chars P hay = true -> all_chars P needle = true.
Proof.
  intros (before & after & ->). rewrite !all_chars_app.
  now intros [_ [H _]%andb_true_iff]%andb_true_iff.
Qed.

Lemma pretty_N_char_digit x : digit_char (pretty_N_char x) = true.
Proof. unfold pretty_N_char. repeat case_match; reflexivity. Qed.

Lemma pretty_N_go_keeps P x s :
  all_chars P s = false -> all_chars P (pretty_N_go x s) = false.
Proof.
  revert s. induction (N.lt_wf_0 x) as [x _ IH]; intros s Hs.
  assert (x = 0 \/ 0 < x)%N as [->|Hx] by lia.
  - now rewrite pretty_N_go_0.
  - rewrite pretty_N_go_step by done. apply IH; [now apply N.div_lt|].
    simpl. rewrite Hs. apply andb_false_r.
Qed.

Lemma pretty_positive_has_digit p :
  all_chars (fun c => negb (digit_char c)) (pretty (N.pos p)) = false.
Proof.
  unfold pretty, pretty_N. simpl.
  rewrite pretty_N_go_step by lia. apply pretty_N_go_keeps.
  simpl. now rewrite pretty_N_char_digit.
Qed.

Lemma toString_has_digit z :
  all_chars (fun c => negb (digit_char c)) (toString z) = false.
Proof.
  unfold toString, pretty, pretty_Z. destruct z as [|p|p]; [reflexivity| |].
  - apply pretty_positive_has_digit.
  - rewrite all_chars_app. simpl.
    change (pretty p) with (pretty (N.pos p)). apply pretty_positive_has_digit.
Qed.




(** ** The placeholder *)

Lemma fs_rm_ok env d w :
  fault env (time w) (FsRm d) = None ->
  fs_rm env d w =
    (Return tt,
     set_dirs (filter (fun q => within d q = false) (dirs w))
       (set_files (filter (fun kv => within d kv.1 = false) (files w))
          (record (FsRm d) w))).
Proof. intros H. unfold fs_rm, bind, call. now rewrite H. Qed.

(** The adapter when the module cannot be loaded and the write succeeds. *)
Lemma placeholder_run env paths out d fps w e0 :
  fault env (time w) RequireFfmpegStatic = Some e0 ->
  fault env (3 + time w)%nat (FsWriteFile out) = None ->
  generateVideoWithFFmpeg env paths out d fps w =
    (Return tt,
     set_files (<[ out := placeholderContent ]> (files w))
       (record (FsWriteFile out)
          (record (ConsoleWarn "To enable actual video generation, add ffmpeg-static to package.json dependencies")
             (record (ConsoleWarn "ffmpeg-static not available, creating placeholder video file")
                (record RequireFfmpegStatic w))))).
Proof.
  intros Hreq Hwrite.
  unfold generateVideoWithFFmpeg, start_encoder, bind, try_catch, call, console,
    fs_writeFile, bind, call, ret.
  rewrite Hreq. simpl.
  change (time (record _ (record _ (record _ w)))) with (3 + time w)%nat.
  now rewrite Hwrite.
Qed.

(** C9, as stated, fails: with the module installed and its binary
    impossible to start, the call fails with the spawn error, the row of the
    project is [failed] and nothing is written at the output path. *)
Lemma unspawnable_binary_fails :
  let run := generateVideo unspawnable_env sample_input sample_world in
  run.1 = Throw (Error "Failed to start ffmpeg: spawn /usr/bin/ffmpeg ENOENT") /\
  (VideoProject.status <$> lookup_project 1 (projects run.2)) = Some failed /\
  files run.2 !! "uploads/videos/project_1_1700000000007.mp4" = None.
Proof. vm_compute. auto. Qed.

(** C9, amended.  When [require('ffmpeg-static')] throws after the frames
    were staged, and neither the write of the placeholder nor the removal of
    the staging directory fails, the call returns the row of the project,
    [completed], with the allocated output path; the file at that path is the
    36-byte placeholder; and the trace shows the degradation: it has the
    warning, and no encoder was spawned after staging.  The ledger answers
    its queries. *)
Theorem placeholder_when_module_missing env input w row a w1 paths w2 e0 :
  ledger_reliable env ->
  lookup_project (project_id input) (projects w) = Some row ->
  prepare env input w = (Return a, w1) ->
  copy_images env (tempDir a) 0 (frames a) [] w1 = (Return paths, w2) ->
  fault env (time w2) RequireFfmpegStatic = Some e0 ->
  (forall t, fault env t (FsWriteFile (outputPath a)) = None) ->
  (forall t, fault env t (FsRm (tempDir a)) = None) ->
  exists after w',
    generateVideo env input w = (Return (parse_numeric env after), w') /\
    lookup_project (project_id input) (projects w') = Some after /\
    VideoProject.status after = completed /\
    VideoProject.output_path after = Some (outputPath a) /\
    files w' !! outputPath a = Some placeholderContent /\
    ConsoleWarn "ffmpeg-static not available, creating placeholder video file"
      ∈ trace w' /\
    (forall bin args, Spawn bin args ∈ trace w' -> Spawn bin args ∈ trace w2).
Proof.
  intros Hdb Hrow Hp Hc Hreq Hwrite Hrm.
  pose proof (prepare_inv _ _ _ _ _ Hp) as [_ (P1 & Hl & _ & _ & _ & Ho & Ht & _)].
  assert (lookup_project (project_id input) (projects w2) = Some (project a)) as Hrow2.
  { rewrite (preserves_run projects _ _ _ _ (copy_images_projects env _ _ _ _) Hc).
    now rewrite P1. }
  set (w3 := set_files (<[ outputPath a := placeholderContent ]> (files w2))
               (record (FsWriteFile (outputPath a))
                  (record (ConsoleWarn "To enable actual video generation, add ffmpeg-static to package.json dependencies")
                     (record (ConsoleWarn "ffmpeg-static not available, creating placeholder video file")
                        (record RequireFfmpegStatic w2))))).
  set (w4 := set_dirs (filter (fun q => within (tempDir a) q = false) (dirs w3))
               (set_files (filter (fun kv => within (tempDir a) kv.1 = false) (files w3))
                  (record (FsRm (tempDir a)) w3))).
  set (t := clock env (time w4)).
  destruct (completed_rows (project_id input) (outputPath a) t _ _ Hrow2)
    as [rest Hrest].
  set (after := set_status completed (Some (outputPath a)) t (project a)) in *.
  set (w' := set_projects
               (update_where (project_id input)
                  (set_status completed (Some (outputPath a)) t) (projects w2))
               (record (DbUpdateStatus (project_id input) completed
                          (Some (outputPath a)))
                  (record DateNow w4))).
  assert (stage_and_encode env input a w1 = (Return (parse_numeric env after), w'))
    as Hs.
  { unfold stage_and_encode. rewrite (bind_return _ _ _ _ _ Hc).
    erewrite bind_return by (eapply placeholder_run; [exact Hreq|apply Hwrite]).
    erewrite bind_return by (apply fs_rm_ok, Hrm).
    erewrite bind_return by (apply db_update_status_ok, Hdb).
    fold w3 w4 t. change (projects w4) with (projects w2).
    rewrite Hrest. reflexivity. }
  exists after, w'. split.
  { unfold generateVideo, attempt.
    erewrite try_catch_return; [reflexivity|].
    rewrite (bind_return _ _ _ _ _ Hp). now rewrite (try_catch_return _ _ _ _ _ Hs). }
  split.
  { subst w'. simpl. now rewrite lookup_project_set_status, Hrow2. }
  do 2 (split; [reflexivity|]). split; [|split].
  - subst w' w4 w3. simpl. apply map_lookup_filter_Some_2.
    + apply lookup_insert_eq.
    + simpl. rewrite Ho, Ht. apply output_outside_staging.
  - subst w' w4 w3. simpl. do 5 right. left.
  - intros bin args. subst w' w4 w3. simpl.
    rewrite !elem_of_cons. intros [?|[?|[?|[?|[?|[?|[?|?]]]]]]]; try discriminate.
    assumption.
Qed.

Lemma placeholder_when_module_missing_witness :
  let a := mkAttempt
             (VideoProject.mk 1 "Test Video Project" processing None "2.5" 24 0
                1700000000000)
             [ sample_image 1 0 "uploads/images/test1.jpg";
               sample_image 2 1 "uploads/images/test2.jpg" ]
             "uploads/videos/project_1_1700000000007.mp4"
             "uploads/temp/project_1_1700000000008" in
  exists after w',
    generateVideo bare_env sample_input sample_world
      = (Return (parse_numeric bare_env after), w') /\
    lookup_project 1 (projects w') = Some after /\
    VideoProject.status after = completed /\
    VideoProject.output_path after = Some (outputPath a) /\
    files w' !! outputPath a = Some placeholderContent /\
    ConsoleWarn "ffmpeg-static not available, creating placeholder video file"
      ∈ trace w' /\
    (forall bin args,
       Spawn bin args ∈ trace w' ->
       Spawn bin args ∈
         trace (copy_images bare_env (tempDir a) 0 (frames a) []
                  (prepare bare_env sample_input sample_world).2).2).
Proof.
  intros a.
  apply (placeholder_when_module_missing bare_env sample_input sample_world
           sample_project a (prepare bare_env sample_input sample_world).2
           [ "uploads/temp/project_1_1700000000008/image_0000.jpg";
             "uploads/temp/project_1_1700000000008/image_0001.jpg" ]
           (copy_images bare_env (tempDir a) 0 (frames a) []
              (prepare bare_env sample_input sample_world).2).2
           (Error "Cannot find module 'ffmpeg-static'")).
  - intros t c Hc. destruct c; try discriminate; reflexivity.
  - reflexivity.
  - vm_compute. reflexivity.
  - vm_compute. reflexivity.
  - reflexivity.
  - intros t. reflexivity.
  - intros t. reflexivity.
Defined.

(** ** The allocated output path *)

Lemma output_name_inj pid ms pid' ms' :
  output_name pid ms = output_name pid' ms' -> pid = pid' /\ ms = ms'.
Proof.
  unfold output_name. intros H.
  apply (inj (String.append "project_")) in H.
  change ("_" +:+ toString ms +:+ ".mp4") with (String "_" (toString ms +:+ ".mp4")) in H.
  change ("_" +:+ toString ms' +:+ ".mp4") with (String "_" (toString ms' +:+ ".mp4")) in H.
  apply split_at_separator in H as [Hpid H];
    [|apply numeral_no_char; [reflexivity|apply toString_numeral]..].
  change ".mp4" with (String "." "mp4") in H.
  apply split_at_separator in H as [Hms _];
    [|apply numeral_no_char; [reflexivity|apply toString_numeral]..].
  split; now apply toString_inj.
Qed.

(** C8, as stated, fails: two calls for the same project that read the same
    millisecond from the clock are given the same output path, and the second
    overwrites the file of the first. *)
Lemma output_paths_collide :
  let first := generateVideo frozen_env sample_input sample_world in
  let second := generateVideo frozen_env sample_input first.2 in
  exists out,
    (VideoProject.output_path <$> returned first.1) = Some (Some out) /\
    (VideoProject.output_path <$> returned second.1) = Some (Some out).
Proof. eexists. vm_compute. split; reflexivity. Qed.

(** C8, amended.  The output path of an attempt is
    [uploads/videos/project_<id>_<ms>.mp4], with the project id and the
    millisecond read from the clock when the path is allocated; the paths of
    two attempts are equal exactly when both the ids and the milliseconds read
    are equal, so they differ whenever the ids or those readings differ. *)
Theorem output_paths_equal_iff env1 env2 input1 input2 w1 w2 a1 a2 w1' w2' :
  prepare env1 input1 w1 = (Return a1, w1') ->
  prepare env2 input2 w2 = (Return a2, w2') ->
  (outputPath a1 =
     path_join (path_join "uploads" "videos")
       (output_name (project_id input1) (clock env1 (time w1' - 3)))) /\
  (outputPath a1 = outputPath a2 <->
   project_id input1 = project_id input2 /\
   clock env1 (time w1' - 3) = clock env2 (time w2' - 3)).
Proof.
  intros H1 H2.
  apply prepare_inv in H1 as [_ (_ & _ & _ & _ & _ & Ho1 & _)].
  apply prepare_inv in H2 as [_ (_ & _ & _ & _ & _ & Ho2 & _)].
  split; [exact Ho1|]. rewrite Ho1, Ho2. split.
  - intros H. unfold path_join in H.
    apply (inj (String.append _)) in H. apply (inj (String.append "/")) in H.
    now apply output_name_inj.
  - now intros [-> ->].
Qed.

Lemma output_paths_equal_iff_witness :
  let a1 := mkAttempt
              (VideoProject.mk 1 "Test Video Project" processing None "2.5" 24 0
                 1700000000000)
              [ sample_image 1 0 "uploads/images/test1.jpg";
                sample_image 2 1 "uploads/images/test2.jpg" ]
              "uploads/videos/project_1_1700000000007.mp4"
              "uploads/temp/project_1_1700000000008" in
  let a2 := mkAttempt (project a1) (frames a1)
              "uploads/videos/project_1_1700000000000.mp4"
              "uploads/temp/project_1_1700000000000" in
  let w1' := (prepare quiet_env sample_input sample_world).2 in
  let w2' := (prepare frozen_env sample_input sample_world).2 in
  (outputPath a1 =
     path_join (path_join "uploads" "videos")
       (output_name 1 (clock quiet_env (time w1' - 3)))) /\
  (outputPath a1 = outputPath a2 <->
   1 = 1 /\ clock quiet_env (time w1' - 3) = clock frozen_env (time w2' - 3)).
Proof.
  intros a1 a2 w1' w2'.
  apply (output_paths_equal_iff quiet_env frozen_env sample_input sample_input
           sample_world sample_world a1 a2 w1' w2').
  - vm_compute. reflexivity.
  - vm_compute. reflexivity.
Defined.

(** ** Step 6: the staged frames *)

Lemma copy_calls_cons c tr :
  copy_calls (c :: tr) =
    copy_calls tr ++ match c with FsCopyFile s d => [(s, d)] | _ => [] end.
Proof.
  unfold copy_calls. simpl. rewrite omap_app. f_equal. now destruct c.
Qed.

Lemma fs_copyFile_return env src dst w w' :
  fs_copyFile env src dst w = (Return tt, w') ->
  trace w' = FsCopyFile src dst :: trace w /\
  exists c, files w !! src = Some c /\ files w' = <[ dst := c ]> (files w).
Proof.
  unfold fs_copyFile, bind, call.
  destruct (fault _ _ _); [discriminate|]. simpl.
  destruct (files w !! src) as [c|]; [|discriminate].
  intros H. inversion H; subst. simpl. eauto.
Qed.

Lemma copy_images_return env d imgs :
  forall i acc w paths w',
    copy_images env d i imgs acc w = (Return paths, w') ->
    let names := map (fun k => path_join d (frame_name k)) (seq i (length imgs)) in
    paths = acc ++ names /\
    copy_calls (trace w') = copy_calls (trace w) ++ zip (map Image.file_path imgs) names.
Proof.
  induction imgs as [|img imgs IH]; intros i acc w paths w' H; simpl in *.
  - inversion H; subst. now rewrite !app_nil_r.
  - apply bind_inv in H as [([] & w1 & H1 & H)|(e & _ & ?)]; [|discriminate].
    apply fs_copyFile_return in H1 as [Htr _].
    apply IH in H as [-> Hcalls]. split.
    + now rewrite <- app_assoc.
    + rewrite Hcalls, Htr, copy_calls_cons. now rewrite <- app_assoc.
Qed.

Lemma frame_names_adjacent :
  forallb (fun i => String.ltb (frame_name i) (frame_name (S i)))
    (seq 0 (Z.to_nat 9999)) = true.
Proof. vm_compute. reflexivity. Qed.

Lemma frame_name_next i :
  Z.of_nat i < 9999 -> lex_lt (frame_name i) (frame_name (S i)).
Proof.
  intros Hi. pose proof frame_names_adjacent as H.
  rewrite forallb_forall in H. specialize (H i).
  unfold lex_lt. unfold String.ltb in H.
  destruct (String.compare _ _); [| reflexivity |];
    (assert (false = true) by (apply H, in_seq; lia); discriminate).
Qed.

Lemma frame_name_lt i j :
  (i < j)%nat -> Z.of_nat j < 10000 -> lex_lt (frame_name i) (frame_name j).
Proof.
  intros Hij Hj. induction j as [|j IH]; [lia|].
  destruct (decide (i = j)) as [->|Hne].
  - apply frame_name_next. lia.
  - eapply lex_lt_trans; [apply IH; lia|apply frame_name_next; lia].
Qed.

Lemma staged_path_lt d a b :
  lex_lt a b -> lex_lt (path_join d a) (path_join d b).
Proof.
  unfold lex_lt, path_join. rewrite string_compare_app.
  change ("/" +:+ a) with (String "/" a). change ("/" +:+ b) with (String "/" b).
  intros H. simpl. exact H.
Qed.

Lemma staged_names_sorted d n i :
  Z.of_nat (i + n) <= 10000 ->
  StronglySorted lex_lt (map (fun k => path_join d (frame_name k)) (seq i n)).
Proof.
  revert i. induction n as [|n IH]; intros i Hn; simpl; constructor.
  - apply IH. lia.
  - apply Forall_forall. intros x Hx. apply list_elem_of_In, in_map_iff in Hx.
    destruct Hx as (k & <- & Hk%in_seq).
    apply staged_path_lt, frame_name_lt; lia.
Qed.

Lemma starts_with_app p s : starts_with p (p +:+ s) = true.
Proof.
  induction p as [|c p IH]; [reflexivity|].
  rewrite app_cons. simpl. now rewrite Ascii.eqb_refl, IH.
Qed.

Lemma within_staged d x : within d (path_join d x) = true.
Proof.
  unfold within, path_join. rewrite <- app_string_assoc, starts_with_app.
  apply orb_true_r.
Qed.

Lemma lex_lt_ne a b : lex_lt a b -> a <> b.
Proof.
  unfold lex_lt. intros H ->.
  assert (String.compare b b = Eq) as E.
  { clear H. induction b as [|c b IH]; simpl; [reflexivity|].
    now rewrite ascii_compare_refl. }
  congruence.
Qed.

(** What staging leaves in the store, for at most 10,000 frames whose
    sources are not themselves in the staging directory. *)
Lemma copy_images_contents env d imgs :
  forall i acc w paths w',
    copy_images env d i imgs acc w = (Return paths, w') ->
    Z.of_nat (i + length imgs) <= 10000 ->
    Forall (fun img => within d (Image.file_path img) = false) imgs ->
    (forall p, within d p = false -> files w' !! p = files w !! p) /\
    (forall k, (k < i)%nat ->
       files w' !! path_join d (frame_name k) = files w !! path_join d (frame_name k)) /\
    (forall k img, imgs !! k = Some img ->
       files w' !! path_join d (frame_name (i + k)) = files w !! Image.file_path img).
Proof.
  induction imgs as [|img imgs IH]; intros i acc w paths w' H Hn Hsrc; simpl in *.
  - inversion H; subst. repeat split; auto. intros k img Hk. discriminate.
  - apply bind_inv in H as [([] & w1 & H1 & H)|(e & _ & ?)]; [|discriminate].
    apply fs_copyFile_return in H1 as [_ (c & Hc & Hf)].
    apply Forall_cons in Hsrc as [Hsrc0 Hsrc].
    specialize (IH _ _ _ _ _ H ltac:(lia) Hsrc) as (Hout & Hearly & Hrest).
    assert (forall p, p <> path_join d (frame_name i) -> files w1 !! p = files w !! p)
      as Hstep by (intros p Hp; rewrite Hf; now apply lookup_insert_ne).
    assert (forall p, within d p = false -> files w1 !! p = files w !! p) as Hstep'.
    { intros p Hp. apply Hstep. intros ->. now rewrite within_staged in Hp. }
    split; [|split].
    + intros p Hp. rewrite (Hout _ Hp). now apply Hstep'.
    + intros k Hk. rewrite Hearly by lia. apply Hstep.
      apply lex_lt_ne, staged_path_lt, frame_name_lt; lia.
    + intros [|k] x Hx; simpl in Hx.
      * injection Hx as <-. rewrite Nat.add_0_r, Hearly by lia.
        now rewrite Hf, lookup_insert_eq, Hc.
      * replace (i + S k)%nat with (S i + k)%nat by lia.
        rewrite (Hrest _ _ Hx). apply Hstep'.
        rewrite Forall_forall in Hsrc. apply Hsrc.
        eapply list_elem_of_lookup_2, Hx.
Qed.

(** C6, as stated, fails: the staged files are named [image_NNNN.jpg], not
    [frame_NNNN], and the padding stays at four digits, so among 10,001
    frames the last one sorts before the frame of index 1001. *)
Lemma staged_names_out_of_order :
  let names := staged_paths "uploads/temp/project_1_1700000000008" (Z.to_nat 10001) in
  names !! 0%nat = Some "uploads/temp/project_1_1700000000008/image_0000.jpg" /\
  names !! 1001%nat = Some "uploads/temp/project_1_1700000000008/image_1001.jpg" /\
  names !! Z.to_nat 10000 =
    Some "uploads/temp/project_1_1700000000008/image_10000.jpg" /\
  lex_lt "uploads/temp/project_1_1700000000008/image_10000.jpg"
         "uploads/temp/project_1_1700000000008/image_1001.jpg".
Proof. vm_compute. auto. Qed.

(** C6, amended.  Staging that succeeds has copied each source file, in the
    given order, to [<staging dir>/image_NNNN.jpg], where [NNNN] is the index
    of the frame from 0 padded with zeros to four digits and never widened;
    the staged paths are returned in that order.  For a list of at most
    10,000 frames the staged paths are strictly increasing in lexicographic
    order, so sorting them reproduces the playback order, and each staged
    file holds what its source held (the sources lying outside the staging
    directory). *)
Theorem staging_names_in_order env tempDir images w paths w' :
  copy_images env tempDir 0 images [] w = (Return paths, w') ->
  paths = staged_paths tempDir (length images) /\
  copy_calls (trace w') =
    copy_calls (trace w) ++ zip (map Image.file_path images) paths /\
  (Z.of_nat (length images) <= 10000 ->
   StronglySorted lex_lt paths /\
   (Forall (fun img => within tempDir (Image.file_path img) = false) images ->
    forall k img p,
      images !! k = Some img -> paths !! k = Some p ->
      files w' !! p = files w !! Image.file_path img)).
Proof.
  intros H. pose proof (copy_images_return _ _ _ _ _ _ _ _ H) as [-> Hcalls].
  simpl in *. split; [reflexivity|]. split; [exact Hcalls|].
  intros Hn. split; [now apply staged_names_sorted|].
  intros Hsrc k img p Hk Hp.
  destruct (copy_images_contents _ _ _ _ _ _ _ _ H Hn Hsrc) as (_ & _ & Hcontent).
  rewrite list_lookup_fmap in Hp.
  destruct (seq 0 (length images) !! k) as [k'|] eqn:Hseq; [|discriminate].
  apply lookup_seq in Hseq as [-> _]. injection Hp as <-.
  exact (Hcontent _ _ Hk).
Qed.

Lemma staging_names_in_order_witness :
  let d := "uploads/temp/project_1_1700000000008" in
  let imgs := [ sample_image 1 0 "uploads/images/test1.jpg";
                sample_image 2 1 "uploads/images/test2.jpg" ] in
  let w := (prepare quiet_env sample_input sample_world).2 in
  let paths := [ "uploads/temp/project_1_1700000000008/image_0000.jpg";
                 "uploads/temp/project_1_1700000000008/image_0001.jpg" ] in
  let w' := (copy_images quiet_env d 0 imgs [] w).2 in
  paths = staged_paths d (length imgs) /\
  copy_calls (trace w') = copy_calls (trace w) ++ zip (map Image.file_path imgs) paths /\
  (Z.of_nat (length imgs) <= 10000 ->
   StronglySorted lex_lt paths /\
   (Forall (fun img => within d (Image.file_path img) = false) imgs ->
    forall k img p,
      imgs !! k = Some img -> paths !! k = Some p ->
      files w' !! p = files w !! Image.file_path img)).
Proof.
  intros d imgs w paths w'.
  apply (staging_names_in_order quiet_env d imgs w paths w').
  vm_compute. reflexivity.
Defined.

(** ** The order of the frames *)

#[global] Instance by_order_index_transitive : Transitive by_order_index.
Proof. unfold by_order_index. intros a b c. lia. Qed.

Lemma insert_by_order_perm x l : insert_by_order x l ≡ₚ x :: l.
Proof.
  induction l as [|y l IH]; simpl; [reflexivity|].
  destruct (Image.order_index x <=? Image.order_index y); [reflexivity|].
  rewrite IH. apply perm_swap.
Qed.

Lemma order_by_asc_perm l : order_by_asc l ≡ₚ l.
Proof.
  induction l as [|x l IH]; simpl; [reflexivity|].
  now rewrite insert_by_order_perm, IH.
Qed.

Lemma insert_by_order_sorted x l :
  Sorted by_order_index l -> Sorted by_order_index (insert_by_order x l).
Proof.
  induction 1 as [|y l Hl IH Hhd]; simpl; [repeat constructor|].
  destruct (Z.leb_spec (Image.order_index x) (Image.order_index y)).
  - constructor; [now constructor|]. constructor. exact H.
  - constructor; [exact IH|].
    destruct l as [|z l]; simpl.
    + constructor. unfold by_order_index. lia.
    + inversion Hhd; subst.
      destruct (Image.order_index x <=? Image.order_index z);
        constructor; [unfold by_order_index; lia|assumption].
Qed.

Lemma order_by_asc_sorted l : Sorted by_order_index (order_by_asc l).
Proof.
  induction l as [|x l IH]; simpl; [constructor|].
  now apply insert_by_order_sorted.
Qed.

Lemma image_rows_perm pid l l' : l ≡ₚ l' -> image_rows pid l ≡ₚ image_rows pid l'.
Proof.
  unfold image_rows.
  induction 1 as [|x l l' _ IH|x y l|l l' l'' _ IH1 _ IH2]; simpl.
  - reflexivity.
  - destruct (Image.project_id x =? pid); [now rewrite IH|exact IH].
  - destruct (Image.project_id x =? pid), (Image.project_id y =? pid);
      try reflexivity. apply perm_swap.
  - now rewrite IH1.
Qed.

(** Rows with pairwise distinct sort keys are told apart by their keys. *)
Lemma distinct_keys_inj (l : list Image.row) x y :
  NoDup (map Image.order_index l) ->
  x ∈ l -> y ∈ l -> Image.order_index x = Image.order_index y -> x = y.
Proof.
  induction l as [|z l IH]; simpl; intros Hnd Hx Hy Hk; [inversion Hx|].
  apply NoDup_cons in Hnd as [Hz Hnd].
  apply elem_of_cons in Hx as [->|Hx]; apply elem_of_cons in Hy as [->|Hy].
  - reflexivity.
  - exfalso. apply Hz. rewrite Hk. apply list_elem_of_fmap. eauto.
  - exfalso. apply Hz. rewrite <- Hk. apply list_elem_of_fmap. eauto.
  - now apply IH.
Qed.

(** C5, as stated, fails: with two images of the same [order_index] the
    frames follow the order in which the engine visits the rows, and two
    calls on the same project stage the images in opposite orders when the
    engine visits the table in opposite directions. *)
Lemma tied_frames_follow_the_engine :
  scan_complete quiet_env /\ scan_complete reversing_env /\
  copy_calls (trace (generateVideo quiet_env sample_input tied_world).2) =
    [ ("uploads/images/test1.jpg", "uploads/temp/project_1_1700000000008/image_0000.jpg");
      ("uploads/images/test2.jpg", "uploads/temp/project_1_1700000000008/image_0001.jpg") ] /\
  copy_calls (trace (generateVideo reversing_env sample_input tied_world).2) =
    [ ("uploads/images/test2.jpg", "uploads/temp/project_1_1700000000008/image_0000.jpg");
      ("uploads/images/test1.jpg", "uploads/temp/project_1_1700000000008/image_0001.jpg") ].
Proof.
  split; [intros t rows; reflexivity|].
  split; [intros t rows; simpl; symmetry; apply Permutation_rev|].
  vm_compute. auto.
Qed.

(** C5, amended.  The frames of an attempt are the images of the project
    sorted by [order_index], non-decreasing; no second sort key is applied,
    and images with equal [order_index] come in the order in which the engine
    visited them.  Two calls on the same images produce the same frame order
    when the [order_index] values of the project are pairwise distinct, and
    when the engine visited the rows in the same order. *)
Theorem frame_order_determined env1 env2 input w1 w2 a1 a2 w1' w2' :
  prepare env1 input w1 = (Return a1, w1') ->
  prepare env2 input w2 = (Return a2, w2') ->
  images w1 = images w2 ->
  scan_complete env1 ->
  scan_complete env2 ->
  Sorted by_order_index (frames a1) /\
  frames a1 ≡ₚ image_rows (project_id input) (images w1) /\
  (NoDup (map Image.order_index (image_rows (project_id input) (images w1))) ->
   frames a1 = frames a2) /\
  (scan env1 (time w1 + 3)%nat (images w1) = scan env2 (time w2 + 3)%nat (images w2) ->
   frames a1 = frames a2).
Proof.
  intros H1 H2 Himgs Hs1 Hs2.
  apply prepare_inv in H1 as [_ (_ & _ & _ & F1 & _)].
  apply prepare_inv in H2 as [_ (_ & _ & _ & F2 & _)].
  assert (frames a1 ≡ₚ image_rows (project_id input) (images w1)) as P1.
  { rewrite F1, order_by_asc_perm. apply image_rows_perm, Hs1. }
  assert (frames a2 ≡ₚ image_rows (project_id input) (images w1)) as P2.
  { rewrite F2, order_by_asc_perm, Himgs. apply image_rows_perm, Hs2. }
  split; [rewrite F1; apply order_by_asc_sorted|]. split; [exact P1|]. split.
  - intros Hnd. apply (Sorted_unique_strong by_order_index).
    + intros x y Hx Hy Hxy Hyx.
      apply (distinct_keys_inj _ x y Hnd).
      * now rewrite <- P1.
      * now rewrite <- P2.
      * unfold by_order_index in *. lia.
    + rewrite F1. apply order_by_asc_sorted.
    + rewrite F2. apply order_by_asc_sorted.
    + now rewrite P1, P2.
  - intros Hscan. now rewrite F1, F2, Hscan.
Qed.

Lemma frame_order_determined_witness :
  let a := mkAttempt
             (VideoProject.mk 1 "Test Video Project" processing None "2.5" 24 0
                1700000000000)
             [ sample_image 1 0 "uploads/images/test1.jpg";
               sample_image 2 1 "uploads/images/test2.jpg" ]
             "uploads/videos/project_1_1700000000007.mp4"
             "uploads/temp/project_1_1700000000008" in
  Sorted by_order_index (frames a) /\
  frames a ≡ₚ image_rows 1 (images sample_world) /\
  (NoDup (map Image.order_index (image_rows 1 (images sample_world))) ->
   frames a = frames a) /\
  (scan quiet_env (time sample_world + 3)%nat (images sample_world)
   = scan reversing_env (time sample_world + 3)%nat (images sample_world) ->
   frames a = frames a).
Proof.
  intros a.
  apply (frame_order_determined quiet_env reversing_env sample_input
           sample_world sample_world a a
           (prepare quiet_env sample_input sample_world).2
           (prepare reversing_env sample_input sample_world).2).
  - vm_compute. reflexivity.
  - vm_compute. reflexivity.
  - reflexivity.
  - intros t rows. reflexivity.
  - intros t rows. simpl. symmetry. apply Permutation_rev.
Defined.

(** * Further properties of the handlers *)

(** ** A project that is not in the ledger *)

Lemma project_rows_absent pid rows :
  lookup_project pid rows = None -> project_rows pid rows = [].
Proof. unfold lookup_project. now destruct (project_rows pid rows). Qed.

Lemma update_where_absent pid f rows :
  lookup_project pid rows = None -> update_where pid f rows = rows.
Proof.
  intros H%project_rows_absent. unfold project_rows, update_where in *.
  induction rows as [|r rows IH]; simpl in *; [reflexivity|].
  destruct (VideoProject.id r =? pid); [discriminate|]. now rewrite IH.
Qed.

Lemma generateVideo_simulated_validate_throw env input w e w1 :
  validate env input w = (Throw e, w1) ->
  generateVideo_simulated env input w = mark_failed env input e w1.
Proof.
  intros H. unfold generateVideo_simulated, simulate.
  erewrite try_catch_throw; [reflexivity|].
  erewrite bind_throw; [reflexivity|exact H].
Qed.

(** Validation of a project that has no row throws, and with a ledger that
    answers it throws the error of step 2. *)
Lemma validate_absent env input w :
  lookup_project (project_id input) (projects w) = None ->
  exists e w1,
    validate env input w = (Throw e, w1) /\ projects w1 = projects w /\
    (ledger_reliable env ->
     e = Error ("Project with id " +:+ toString (project_id input) +:+ " not found")).
Proof.
  intros Hnone.
  destruct (validate env input w) as [[[p imgs]|e] w1] eqn:H.
  - apply validate_inv in H as [_ (_ & Hl & _)].
    rewrite update_where_absent in Hl by exact Hnone. congruence.
  - exists e, w1. split; [reflexivity|].
    pose proof (validate_inv _ _ _ _ _ H) as [[P|P] _]; rewrite P;
      [split; [reflexivity|] | split; [now apply update_where_absent|]];
      intros Hdb; unfold validate in H;
      rewrite (bind_return _ _ _ _ _ (db_update_status_ok env _ _ _ w Hdb)) in H;
      rewrite (bind_return _ _ _ _ _ (db_select_project_ok env _ _ Hdb)) in H;
      simpl in H; rewrite update_where_absent in H by exact Hnone;
      rewrite (project_rows_absent _ _ Hnone) in H; now inversion H.
Qed.

Lemma mark_failed_absent env input e w :
  lookup_project (project_id input) (projects w) = None ->
  exists w', mark_failed env input e w = (Throw e, w') /\ projects w' = projects w.
Proof.
  intros Hnone. destruct (mark_failed_inv env input e w) as (w' & Hm & [[P _]|[P _]] & _).
  - exists w'. split; [exact Hm|]. rewrite P. now apply update_where_absent.
  - exists w'. split; [exact Hm|exact P].
Qed.

(** What a call on a project without a row comes to, for a handler that
    starts with the validation and marks the failure. *)
Lemma absent_run env input w (handler : Async VideoProject.row) :
  (forall e w1, validate env input w = (Throw e, w1) ->
                handler w = mark_failed env input e w1) ->
  lookup_project (project_id input) (projects w) = None ->
  rejected_untouched w (handler w) /\
  (ledger_reliable env ->
   (handler w).1 =
     Throw (Error ("Project with id " +:+ toString (project_id input) +:+ " not found"))).
Proof.
  intros Hrun Hnone.
  destruct (validate_absent env input w Hnone) as (e & w1 & H & P1 & He).
  rewrite (Hrun _ _ H).
  assert (lookup_project (project_id input) (projects w1) = None) as Hnone1
    by (now rewrite P1).
  destruct (mark_failed_absent env input e w1 Hnone1) as (w' & Hm & P).
  rewrite Hm. unfold rejected_untouched. simpl.
  split; [|intros Hdb; now rewrite (He Hdb)].
  split; [tauto|]. split; [congruence|]. split; [|split; [|split]].
  - rewrite (preserves_run images _ _ _ _ (mark_failed_images env input e) Hm).
    exact (preserves_run images _ _ _ _ (validate_images env input) H).
  - rewrite (preserves_run files _ _ _ _ (mark_failed_files env input e) Hm).
    exact (preserves_run files _ _ _ _ (validate_files env input) H).
  - rewrite (preserves_run dirs _ _ _ _ (mark_failed_dirs env input e) Hm).
    exact (preserves_run dirs _ _ _ _ (validate_dirs env input) H).
  - intros c Hc.
    pose proof (mark_failed_reads env input e w1 c) as Hm1. rewrite Hm in Hm1.
    destruct (Hm1 Hc) as [Hc1|Hc1]; [|now right].
    pose proof (validate_reads env input w c) as Hv. rewrite H in Hv.
    destruct (Hv Hc1) as [Hc0|Hc0]; [now left|now right].
Qed.

(** X1.  A call for a project id that has no row throws, in the encoder
    version and in the simulating version alike, and leaves both tables, the
    files and the directories as they were: no row is created for the id and
    no call writes to the store or starts the encoder.  When the ledger
    answers its queries the error is [Project with id <id> not found]. *)
Theorem unknown_project_fails env input w :
  lookup_project (project_id input) (projects w) = None ->
  let not_found :=
    Error ("Project with id " +:+ toString (project_id input) +:+ " not found") in
  rejected_untouched w (generateVideo env input w) /\
  rejected_untouched w (generateVideo_simulated env input w) /\
  (ledger_reliable env ->
   (generateVideo env input w).1 = Throw not_found /\
   (generateVideo_simulated env input w).1 = Throw not_found).
Proof.
  intros Hnone not_found.
  destruct (absent_run env input w (generateVideo env input)) as [H1 E1];
    [intros e w1 H; now apply generateVideo_validate_throw|exact Hnone|].
  destruct (absent_run env input w (generateVideo_simulated env input)) as [H2 E2];
    [intros e w1 H; now apply generateVideo_simulated_validate_throw|exact Hnone|].
  auto.
Qed.

Lemma unknown_project_fails_witness :
  let input := {| project_id := 7 |} in
  rejected_untouched sample_world (generateVideo quiet_env input sample_world) /\
  rejected_untouched sample_world (generateVideo_simulated quiet_env input sample_world) /\
  (ledger_reliable quiet_env ->
   (generateVideo quiet_env input sample_world).1 =
     Throw (Error "Project with id 7 not found") /\
   (generateVideo_simulated quiet_env input sample_world).1 =
     Throw (Error "Project with id 7 not found")).
Proof.
  apply (unknown_project_fails quiet_env {| project_id := 7 |} sample_world).
  vm_compute. reflexivity.
Defined.

(** ** A project without images *)

Lemma image_rows_scan env t pid rows :
  scan_complete env -> image_rows pid rows = [] ->
  order_by_asc (image_rows pid (scan env t rows)) = [].
Proof.
  intros Hscan Hnone.
  assert (image_rows pid (scan env t rows) ≡ₚ []) as H
    by (rewrite <- Hnone; apply image_rows_perm, Hscan).
  apply Permutation_nil_r in H. now rewrite H.
Qed.

Lemma validate_no_images env input w row :
  ledger_reliable env -> scan_complete env ->
  lookup_project (project_id input) (projects w) = Some row ->
  image_rows (project_id input) (images w) = [] ->
  exists w1,
    validate env input w =
      (Throw (Error ("No images found for project " +:+ toString (project_id input))), w1).
Proof.
  intros Hdb Hscan Hrow Hnone. unfold validate.
  rewrite (bind_return _ _ _ _ _ (db_update_status_ok env _ _ _ w Hdb)).
  rewrite (bind_return _ _ _ _ _ (db_select_project_ok env _ _ Hdb)).
  simpl. rewrite project_rows_update by (intros; apply set_status_id).
  unfold lookup_project in Hrow.
  destruct (project_rows (project_id input) (projects w)) as [|r rest];
    [discriminate|]. simpl.
  rewrite (bind_return _ _ _ _ _ (db_select_images_ok env _ _ Hdb)).
  simpl. rewrite (image_rows_scan env _ _ _ Hscan Hnone). eauto.
Qed.

(** X2.  A call for a project that has a row but no image throws
    [No images found for project <id>], in both versions of the handler; the
    row is left [failed] with the output path it had, and the files and the
    directories are as they were.  The ledger answers its queries and the
    engine reads the image table as it is. *)
Theorem empty_project_fails env input w row :
  ledger_reliable env -> scan_complete env ->
  lookup_project (project_id input) (projects w) = Some row ->
  image_rows (project_id input) (images w) = [] ->
  let no_images :=
    Error ("No images found for project " +:+ toString (project_id input)) in
  exists w',
    generateVideo env input w = (Throw no_images, w') /\
    (generateVideo_simulated env input w).1 = Throw no_images /\
    (exists after,
       lookup_project (project_id input) (projects w') = Some after /\
       VideoProject.status after = failed /\
       VideoProject.output_path after = VideoProject.output_path row) /\
    files w' = files w /\ dirs w' = dirs w.
Proof.
  intros Hdb Hscan Hrow Hnone no_images. subst no_images.
  destruct (validate_no_images env input w row Hdb Hscan Hrow Hnone) as (w1 & H).
  destruct (validation_failure env input w _ w1 row Hdb H Hrow)
    as (w' & Hrun & Hafter & Hf & Hd & _).
  exists w'. split; [exact Hrun|]. split; [|auto].
  rewrite (generateVideo_simulated_validate_throw _ _ _ _ _ H).
  destruct (mark_failed_inv env input
              (Error ("No images found for project " +:+ toString (project_id input)))
              w1) as (w2 & -> & _).
  reflexivity.
Qed.

Lemma empty_project_fails_witness :
  let w := mkWorld [sample_project] [] ∅ ∅ [] in
  exists w',
    generateVideo quiet_env sample_input w =
      (Throw (Error "No images found for project 1"), w') /\
    (generateVideo_simulated quiet_env sample_input w).1 =
      Throw (Error "No images found for project 1") /\
    (exists after,
       lookup_project 1 (projects w') = Some after /\
       VideoProject.status after = failed /\
       VideoProject.output_path after = VideoProject.output_path sample_project) /\
    files w' = files w /\ dirs w' = dirs w.
Proof.
  apply (empty_project_fails quiet_env sample_input
           (mkWorld [sample_project] [] ∅ ∅ []) sample_project).
  - intros t c _. reflexivity.
  - intros t rows. reflexivity.
  - reflexivity.
  - reflexivity.
Defined.

(** ** The rows of the other projects *)

Lemma others_kept_refl pid rows : others_kept pid rows rows.
Proof. apply Forall2_same_length_lookup_2; [reflexivity|]. intros; simplify_eq; auto. Qed.

Lemma others_kept_trans pid rows1 rows2 rows3 :
  others_kept pid rows1 rows2 -> others_kept pid rows2 rows3 ->
  others_kept pid rows1 rows3.
Proof.
  unfold others_kept. intros H12. revert rows3.
  induction H12 as [|r1 r2 rows1 rows2 [Hid Hr] _ IH]; intros rows3 H23;
    inversion H23 as [|? r3 ? rows3' [Hid' Hr'] H23']; subst; constructor.
  - split; [congruence|]. intros Hne. rewrite <- (Hr Hne). apply Hr'. congruence.
  - now apply IH.
Qed.

Lemma update_where_others pid f rows :
  (forall r, VideoProject.id (f r) = VideoProject.id r) ->
  others_kept pid rows (update_where pid f rows).
Proof.
  intros Hid. unfold others_kept, update_where.
  induction rows as [|r rows IH]; simpl; constructor; [|exact IH].
  destruct (Z.eqb_spec (VideoProject.id r) pid); [split; [apply Hid|tauto]|auto].
Qed.

Section Evolves.
Context (pid : Z).

Lemma evolves_bind {A B} (m : Async A) (k : A -> Async B) :
  evolves (rows_of pid) m -> (forall a, evolves (rows_of pid) (k a)) ->
  evolves (rows_of pid) (bind m k).
Proof.
  intros Hm Hk w. unfold bind. specialize (Hm w).
  destruct (m w) as [[a|e] w1]; simpl in *; [|exact Hm].
  eapply others_kept_trans; [exact Hm|apply Hk].
Qed.

Lemma evolves_try_catch {A} (m : Async A) h :
  evolves (rows_of pid) m -> (forall e, evolves (rows_of pid) (h e)) ->
  evolves (rows_of pid) (try_catch m h).
Proof.
  intros Hm Hh w. unfold try_catch. specialize (Hm w).
  destruct (m w) as [[a|e] w1]; simpl in *; [exact Hm|].
  eapply others_kept_trans; [exact Hm|apply Hh].
Qed.

Lemma evolves_preserves {A} (m : Async A) :
  preserves projects m -> evolves (rows_of pid) m.
Proof. intros Hm w. unfold rows_of. rewrite Hm. apply others_kept_refl. Qed.

Lemma db_update_status_evolves env st out :
  evolves (rows_of pid) (db_update_status env pid st out).
Proof.
  intros w. destruct (db_update_status env pid st out w) as [r w'] eqn:H.
  apply db_update_status_inv in H as [(e & _ & _ & ->)|(_ & _ & ->)]; simpl.
  - apply others_kept_refl.
  - apply update_where_others. intros r0. apply set_status_id.
Qed.
End Evolves.

(** Walks through a computation; a step that leaves the project table alone
    is discharged as such. *)
Create HintDb evolve.

#[global] Hint Resolve db_update_status_evolves : evolve.

Ltac evolve :=
  repeat first
    [ progress intros
    | solve [ eauto with evolve ]
    | match goal with
      | |- evolves _ (match ?x with _ => _ end) => destruct x
      | |- evolves _ (bind _ _) => apply evolves_bind
      | |- evolves _ (try_catch _ _) => apply evolves_try_catch
      | |- evolves _ _ => apply evolves_preserves; solve [ preserve ]
      end ].

Lemma mark_failed_evolves env input e :
  evolves (rows_of (project_id input)) (mark_failed env input e).
Proof. unfold mark_failed. evolve. Qed.

Lemma validate_evolves env input :
  evolves (rows_of (project_id input)) (validate env input).
Proof. unfold validate. evolve. Qed.

#[global] Hint Resolve mark_failed_evolves validate_evolves : evolve.

Lemma generateVideo_evolves env input :
  evolves (rows_of (project_id input)) (generateVideo env input).
Proof. unfold generateVideo, attempt, prepare, stage_and_encode. evolve. Qed.

Lemma generateVideo_simulated_evolves env input :
  evolves (rows_of (project_id input)) (generateVideo_simulated env input).
Proof. unfold generateVideo_simulated, simulate. evolve. Qed.

Lemma others_kept_project_rows pid other rows rows' :
  others_kept pid rows rows' -> other <> pid ->
  project_rows other rows' = project_rows other rows.
Proof.
  intros H Hne. unfold project_rows.
  induction H as [|r r' rows rows' [Hid Hr] _ IH]; simpl; [reflexivity|].
  rewrite Hid, IH. destruct (Z.eqb_spec (VideoProject.id r) other) as [E|_];
    [|reflexivity].
  rewrite Hr by congruence. reflexivity.
Qed.

Lemma copy_images_images env d i imgs acc :
  preserves images (copy_images env d i imgs acc).
Proof. revert i acc. induction imgs as [|img imgs IH]; simpl; preserve. Qed.

#[global] Hint Resolve copy_images_images : preserve.

Lemma generateVideo_images env input : preserves images (generateVideo env input).
Proof.
  unfold generateVideo, attempt, prepare, stage_and_encode, cleanup,
    generateVideoWithFFmpeg, start_encoder.
  preserve.
Qed.

Lemma generateVideo_simulated_images env input :
  preserves images (generateVideo_simulated env input).
Proof. unfold generateVideo_simulated, simulate. preserve. Qed.

Lemma tables_framed_intro pid w w' :
  images w' = images w -> others_kept pid (projects w) (projects w') ->
  tables_framed pid w w'.
Proof.
  intros Hi Hk. split; [exact Hi|]. split; [exact Hk|]. split.
  - symmetry. eapply Forall2_length, Hk.
  - intros other Hne. now apply (others_kept_project_rows pid).
Qed.

(** X3.  Whatever a call does, in either version of the handler, it leaves
    the image table as it was, and in the project table it adds no row,
    removes none, changes no id and changes no row of another project: the
    rows that a query for another project id returns are the same after the
    call as before. *)
Theorem other_rows_untouched env input w :
  tables_framed (project_id input) w (generateVideo env input w).2 /\
  tables_framed (project_id input) w (generateVideo_simulated env input w).2.
Proof.
  split; apply tables_framed_intro.
  - apply generateVideo_images.
  - apply generateVideo_evolves.
  - apply generateVideo_simulated_images.
  - apply generateVideo_simulated_evolves.
Qed.

(** ** The staging directory after the call *)

(** A call whose steps 1 to 5 went through is the inner [try] with its two
    handlers around it. *)
Lemma generateVideo_staged env input w a w1 :
  prepare env input w = (Return a, w1) ->
  generateVideo env input w =
    try_catch (try_catch (stage_and_encode env input a) (cleanup env a))
      (mark_failed env input) w1.
Proof.
  intros H. unfold generateVideo, attempt.
  unfold try_catch at 1, bind at 1. rewrite H. reflexivity.
Qed.

Lemma staging_gone_frame d w w' :
  files w' = files w -> dirs w' = dirs w -> staging_gone d w -> staging_gone d w'.
Proof. unfold staging_gone. now intros -> ->. Qed.

Lemma stage_and_encode_removes env input a w v w' :
  stage_and_encode env input a w = (Return v, w') -> staging_gone (tempDir a) w'.
Proof.
  intros H. unfold stage_and_encode in H.
  apply bind_inv in H as [(paths & w1 & _ & H)|(e & _ & ?)]; [|discriminate].
  apply bind_inv in H as [([] & w2 & _ & H)|(e & _ & ?)]; [|discriminate].
  apply bind_inv in H as [([] & w3 & H3 & H)|(e & _ & ?)]; [|discriminate].
  apply fs_rm_return in H3.
  apply bind_inv in H as [(updated & w4 & H4 & H)|(e & _ & ?)]; [|discriminate].
  pose proof (preserves_run files _ _ _ _ (db_update_status_files env _ _ _) H4) as F.
  pose proof (preserves_run dirs _ _ _ _ (db_update_status_dirs env _ _ _) H4) as D.
  destruct updated as [|u rest]; inversion H; subst.
  now apply (staging_gone_frame _ w3).
Qed.

Lemma cleanup_removes env a e w :
  removal_reliable env -> staging_gone (tempDir a) (cleanup env a e w).2.
Proof.
  intros Hrm. unfold cleanup, bind at 1, try_catch.
  pose proof (fs_rm_ok env (tempDir a) w (Hrm _ _)) as H. rewrite H. simpl.
  now apply fs_rm_return in H.
Qed.

(** X4.  When the removal of the staging directory does not throw, no call
    leaves its staging directory behind: once steps 1 to 5 have allocated the
    attempt [a], the world after the call has neither the directory of [a]
    nor any file below it, whether the call returned or threw and whichever
    step failed. *)
Theorem staging_removed_after_call env input w a w1 :
  removal_reliable env ->
  prepare env input w = (Return a, w1) ->
  staging_gone (tempDir a) (generateVideo env input w).2.
Proof.
  intros Hrm H. rewrite (generateVideo_staged _ _ _ _ _ H).
  unfold try_catch at 1. unfold try_catch at 1.
  destruct (stage_and_encode env input a w1) as [[v|e] w2] eqn:H2.
  - simpl. eapply stage_and_encode_removes, H2.
  - pose proof (cleanup_removes env a e w2 Hrm) as Hgone.
    destruct (cleanup_inv env a e w2) as (w3 & Hc & _). rewrite Hc in *. simpl in Hgone.
    destruct (mark_failed_inv env input e w3) as (w4 & Hm & _). rewrite Hm. simpl.
    apply (staging_gone_frame _ w3); [| |exact Hgone].
    + exact (preserves_run files _ _ _ _ (mark_failed_files env input e) Hm).
    + exact (preserves_run dirs _ _ _ _ (mark_failed_dirs env input e) Hm).
Qed.

Lemma staging_removed_after_call_witness :
  staging_gone "uploads/temp/project_1_1700000000008"
    (generateVideo unspawnable_env sample_input sample_world).2.
Proof.
  apply (staging_removed_after_call unspawnable_env sample_input sample_world
           (mkAttempt
              (VideoProject.mk 1 "Test Video Project" processing None "2.5" 24 0
                 1700000000000)
              [ sample_image 1 0 "uploads/images/test1.jpg";
                sample_image 2 1 "uploads/images/test2.jpg" ]
              "uploads/videos/project_1_1700000000007.mp4"
              "uploads/temp/project_1_1700000000008")
           (prepare unspawnable_env sample_input sample_world).2).
  - intros t d. reflexivity.
  - vm_compute. reflexivity.
Defined.

(** ** The files outside the working directories *)

Lemma starts_with_prefix a b s :
  starts_with (a +:+ b) s = true -> starts_with a s = true.
Proof.
  revert s. induction a as [|c a IH]; intros s; [reflexivity|].
  rewrite app_cons. destruct s as [|c' s]; simpl; [discriminate|].
  intros [Hc H]%andb_true_iff. rewrite Hc. simpl. now apply IH.
Qed.

Lemma within_below pre x p :
  starts_with pre p = false -> within (pre +:+ x) p = false.
Proof.
  intros Hp. unfold within. apply orb_false_iff. split.
  - apply not_true_is_false. intros E%String.eqb_eq. subst p.
    now rewrite starts_with_app in Hp.
  - apply not_true_is_false. intros E.
    rewrite app_string_assoc in E. apply starts_with_prefix in E. congruence.
Qed.

Lemma preserves_files_lookup {A} (m : Async A) p :
  preserves files m -> preserves (fun w => files w !! p) m.
Proof. intros H w. simpl. now rewrite H. Qed.

Section Keeps.
Context (env : Env) (p : string).

Lemma fs_copyFile_keeps src dst :
  dst <> p -> preserves (fun w => files w !! p) (fs_copyFile env src dst).
Proof.
  intros Hne w. unfold fs_copyFile, bind, call.
  destruct (fault _ _ _); [reflexivity|]. simpl.
  destruct (files w !! src); [|reflexivity]. simpl. now apply lookup_insert_ne.
Qed.

Lemma copy_images_keeps d imgs :
  within d p = false ->
  forall i acc, preserves (fun w => files w !! p) (copy_images env d i imgs acc).
Proof.
  intros Hp. induction imgs as [|img imgs IH]; intros i acc; simpl.
  - apply preserves_ret.
  - apply preserves_bind; [|intros; apply IH].
    apply fs_copyFile_keeps. intros E. subst p. now rewrite within_staged in Hp.
Qed.

Lemma generateVideoWithFFmpeg_keeps paths out d fps :
  out <> p ->
  preserves (fun w => files w !! p) (generateVideoWithFFmpeg env paths out d fps).
Proof.
  intros Hne w. unfold generateVideoWithFFmpeg, bind.
  destruct (start_encoder env paths out (float_text env d) fps w)
    as [[[[bin args]|]|e] w1] eqn:H1; apply start_encoder_inv in H1; simpl.
  - destruct H1 as (_ & _ & F1 & _).
    destruct (await_child env bin args out w1) as [r w2] eqn:H2.
    apply await_child_inv in H2. simpl. rewrite <- F1.
    destruct (child _ _ _ _) as [err|code stderr [c|]].
    + destruct H2 as [_ ->]. reflexivity.
    + destruct H2 as [-> _]. now apply lookup_insert_ne.
    + destruct H2 as [-> _]. reflexivity.
  - destruct H1 as [-> _]. now apply lookup_insert_ne.
  - now rewrite H1.
Qed.

Lemma fs_rm_keeps d :
  within d p = false -> preserves (fun w => files w !! p) (fs_rm env d).
Proof.
  intros Hp w. destruct (fs_rm env d w) as [r w'] eqn:H.
  apply fs_rm_inv in H as [_ H]. simpl. now apply H.
Qed.

Lemma fs_writeFile_keeps q c :
  q <> p -> preserves (fun w => files w !! p) (fs_writeFile env q c).
Proof.
  intros Hne w. destruct (fs_writeFile env q c w) as [r w'] eqn:H.
  apply fs_writeFile_inv in H as [(e & _ & E)|(_ & E)]; simpl; rewrite E;
    [reflexivity|now apply lookup_insert_ne].
Qed.

Lemma stage_and_encode_keeps input a :
  within (tempDir a) p = false -> outputPath a <> p ->
  preserves (fun w => files w !! p) (stage_and_encode env input a).
Proof.
  intros Htemp Hout. unfold stage_and_encode.
  apply preserves_bind; [now apply copy_images_keeps|intros paths].
  apply preserves_bind; [now apply generateVideoWithFFmpeg_keeps|intros _].
  apply preserves_bind; [now apply fs_rm_keeps|intros _].
  apply preserves_bind; [apply preserves_files_lookup, db_update_status_files|].
  intros [|u rest]; [apply preserves_throw|apply preserves_ret].
Qed.

Lemma cleanup_keeps a e :
  within (tempDir a) p = false ->
  preserves (fun w => files w !! p) (cleanup env a e).
Proof.
  intros Htemp w. destruct (cleanup_inv env a e w) as (w' & -> & _ & _ & H & _).
  simpl. now apply H.
Qed.
End Keeps.

(** X5.  The only file outside [uploads/temp/] that a call may change is
    the file at the output path that the call itself allocates in step 5:
    the content, or the absence, of every other path that does not start with
    [uploads/temp/] is after the call what it was before, in both versions of
    the handler and however the call ends; the paths are the keys of the
    store, compared as texts.  So a call changes neither an uploaded image
    nor the output file of an earlier attempt, unless that file is at the
    very path the call allocates. *)
Theorem other_files_untouched env input w p :
  starts_with "uploads/temp/" p = false ->
  (files (generateVideo env input w).2 !! p = files w !! p \/
   exists a w1, prepare env input w = (Return a, w1) /\ p = outputPath a) /\
  (files (generateVideo_simulated env input w).2 !! p = files w !! p \/
   exists checked w1,
     validate env input w = (Return checked, w1) /\
     p = path_join (path_join "uploads" "videos")
           (output_name (project_id input) (clock env (S (time w1))))).
Proof.
  intros Htemp.
  assert (forall e, preserves (fun w => files w !! p) (mark_failed env input e)) as Hm
    by (intros e; apply preserves_files_lookup, mark_failed_files).
  split.
  - destruct (prepare env input w) as [[a|e] w1] eqn:H.
    + destruct (decide (outputPath a = p)) as [<-|Hne]; [right; eauto|left].
      rewrite (generateVideo_staged _ _ _ _ _ H).
      pose proof (preserves_run files _ _ _ _ (prepare_files env input) H) as F1.
      rewrite <- F1.
      apply prepare_inv in H as [_ (_ & _ & _ & _ & _ & _ & Ht & _)].
      assert (within (tempDir a) p = false) as Hw
        by (rewrite Ht; exact (within_below "uploads/temp/" _ p Htemp)).
      apply (preserves_try_catch (fun w => files w !! p)); [|exact Hm].
      apply preserves_try_catch;
        [now apply stage_and_encode_keeps|intros e; now apply cleanup_keeps].
    + left. unfold generateVideo, attempt.
      rewrite (try_catch_throw _ _ _ _ _ (bind_throw _ _ _ _ _ H)).
      rewrite Hm. now rewrite (preserves_run files _ _ _ _ (prepare_files env input) H).
  - unfold generateVideo_simulated, simulate, try_catch, bind at 1.
    destruct (validate env input w) as [[c|e] w1] eqn:H1.
    2: { left. rewrite Hm.
         now rewrite (preserves_run files _ _ _ _ (validate_files env input) H1). }
    pose proof (preserves_run files _ _ _ _ (validate_files env input) H1) as F1.
    unfold bind at 1.
    destruct (fs_mkdir env (path_join "uploads" "videos") w1) as [[[]|e] w2] eqn:H2.
    2: { left. rewrite Hm, <- F1.
         now rewrite (preserves_run files _ _ _ _ (fs_mkdir_files env _) H2). }
    pose proof (preserves_run files _ _ _ _ (fs_mkdir_files env _) H2) as F2.
    assert (time w2 = S (time w1)) as T2.
    { apply fs_mkdir_inv in H2 as [(e & ? & _)|(_ & ->)]; [discriminate|reflexivity]. }
    unfold bind at 1, now at 1.
    set (out := path_join _ (output_name _ (clock env (time w2)))).
    destruct (decide (out = p)) as [<-|Hne].
    { right. exists c, w1. split; [reflexivity|]. subst out. now rewrite T2. }
    left. rewrite <- F1, <- F2.
    change (files w2 !! p) with (files (record DateNow w2) !! p).
    apply (preserves_try_catch (fun w => files w !! p)
             (fun w0 =>
                (exec fs_writeFile env out (String.list_byte_of_string "fake video content") ;;
                 await updatedProjects <~
                   db_update_status env (project_id input) completed (Some out) ;;
                 match updatedProjects with
                 | updatedProject :: _ => ret (parse_numeric env updatedProject)
                 | [] => throw (Error "undefined is not an object (evaluating 'updatedProject.duration_per_image')")
                 end) w0)
             (mark_failed env input)); [|exact Hm].
    apply preserves_bind; [now apply fs_writeFile_keeps|intros _].
    apply preserves_bind; [apply preserves_files_lookup, db_update_status_files|].
    intros [|u rest]; [apply preserves_throw|apply preserves_ret].
Qed.

Lemma other_files_untouched_witness :
  let p := "uploads/images/test1.jpg" in
  (files (generateVideo failing_env sample_input sample_world).2 !! p
     = files sample_world !! p \/
   exists a w1,
     prepare failing_env sample_input sample_world = (Return a, w1) /\ p = outputPath a) /\
  (files (generateVideo_simulated failing_env sample_input sample_world).2 !! p
     = files sample_world !! p \/
   exists checked w1,
     validate failing_env sample_input sample_world = (Return checked, w1) /\
     p = path_join (path_join "uploads" "videos")
           (output_name 1 (clock failing_env (S (time w1))))).
Proof.
  apply (other_files_untouched failing_env sample_input sample_world
           "uploads/images/test1.jpg"); reflexivity.
Defined.

(** ** The command line of the encoder *)

Lemma inputs_length (d : string) paths :
  length (concat (map (fun p : string => ["-loop"; "1"; "-t"; d; "-i"; p]) paths))
  = (6 * length paths)%nat.
Proof. induction paths as [|p paths IH]; simpl; [reflexivity|]. rewrite IH. lia. Qed.

Lemma inputs_lookup (d : string) paths rest i p j :
  paths !! i = Some p -> (j < 6)%nat ->
  (concat (map (fun p : string => ["-loop"; "1"; "-t"; d; "-i"; p]) paths) ++ rest)
    !! (6 * i + j)%nat
  = ["-loop"; "1"; "-t"; d; "-i"; p] !! j.
Proof.
  revert i. induction paths as [|q paths IH]; intros i Hi Hj; [discriminate|].
  destruct i as [|i]; simpl in Hi.
  - injection Hi as ->. rewrite Nat.mul_0_r, Nat.add_0_l.
    cbn [map concat]. rewrite <- app_assoc. apply lookup_app_l. simpl. lia.
  - replace (6 * S i + j)%nat with (S (S (S (S (S (S (6 * i + j))))))) by lia.
    cbn [map concat app lookup list_lookup]. now apply IH.
Qed.

(** X6.  The command line built for [n] frames has [6 * n + 12] arguments.
    The frames are its inputs in the given order: for the frame of index [i]
    the arguments from position [6 * i] on are [-loop 1 -t <duration> -i
    <path of the frame>].  The options follow the inputs, the filter graph
    first, and the last two arguments are [-y] and the output path, so that
    a file already at the output path is overwritten. *)
Theorem ffmpeg_args_layout imagePaths outputPath durationText fps :
  let args := ffmpeg_args imagePaths outputPath durationText fps in
  let n := length imagePaths in
  length args = (6 * n + 12)%nat /\
  (forall i, (i < n)%nat ->
     args !! (6 * i)%nat = Some "-loop" /\
     args !! (6 * i + 1)%nat = Some "1" /\
     args !! (6 * i + 2)%nat = Some "-t" /\
     args !! (6 * i + 3)%nat = Some durationText /\
     args !! (6 * i + 4)%nat = Some "-i" /\
     args !! (6 * i + 5)%nat = imagePaths !! i) /\
  args !! (6 * n)%nat = Some "-filter_complex" /\
  args !! (6 * n + 1)%nat = Some (filterComplex imagePaths fps) /\
  args !! (6 * n + 10)%nat = Some "-y" /\
  args !! (6 * n + 11)%nat = Some outputPath.
Proof.
  intros args n. subst args n. unfold ffmpeg_args.
  split; [rewrite length_app, inputs_length; simpl; lia|].
  split.
  - intros i Hi. destruct (lookup_lt_is_Some_2 _ _ Hi) as [p Hp].
    rewrite <- (Nat.add_0_r (6 * i)) at 1.
    rewrite !(inputs_lookup _ _ _ _ _ _ Hp) by lia. now rewrite Hp.
  - repeat split; (rewrite lookup_app_r; rewrite inputs_length; [|lia]);
      match goal with
      | |- _ !! ?k = _ => replace k with 0%nat by lia; reflexivity
      | |- _ !! ?k = _ => replace k with 1%nat by lia; reflexivity
      | |- _ !! ?k = _ => replace k with 10%nat by lia; reflexivity
      | |- _ !! ?k = _ => replace k with 11%nat by lia; reflexivity
      end.
Qed.

(** The continuation need only be followed from where the first step ends. *)
Lemma emits_bind_run {A B} P (m : Async A) (k : A -> Async B) w :
  emits P m ->
  (forall a w1, m w = (Return a, w1) -> emits P (k a)) ->
  forall c, c ∈ trace (bind m k w).2 -> c ∈ trace w \/ P c.
Proof.
  intros Hm Hk c. unfold bind. specialize (Hm w).
  destruct (m w) as [[a|e] w1] eqn:E; simpl in *; [|apply Hm].
  intros [Hc|Hc]%(Hk a w1 eq_refl); [apply Hm, Hc|now right].
Qed.

Lemma reads_only_not_spawn c : reads_only c -> not_spawn c.
Proof. destruct c; try exact (fun _ => I). discriminate. Qed.

Lemma not_spawn_spawn_is bin args c : not_spawn c -> spawn_is bin args c.
Proof. now destruct c. Qed.

#[global] Hint Extern 1 (spawn_is _ _ _) => first [ exact I | split; reflexivity ] : emit.

(** The steps that start no process, for a property [P] of calls that holds
    of every call but a spawn. *)
Section Spawns.
Context (env : Env) (P : Call -> Prop) (HP : forall c, not_spawn c -> P c).

Local Hint Extern 1 (P _) => apply HP; exact I : emit.

Lemma copy_images_spawns d imgs :
  forall i acc, emits P (copy_images env d i imgs acc).
Proof.
  induction imgs as [|img imgs IH]; intros i acc; simpl; [apply emits_ret|].
  apply emits_bind; [|intros; apply IH]. unfold fs_copyFile. emit.
  apply emits_silent. intros w. now destruct (files w !! _).
Qed.

Lemma await_child_spawns b a out : emits P (await_child env b a out).
Proof.
  intros w c. unfold await_child.
  destruct (child _ _ _ _) as [err|[[|p|p]|] stderr [content|]]; simpl;
    repeat (intros [->|H]%elem_of_cons; [right; apply HP; exact I|revert H]); auto.
Qed.

Lemma fs_rm_spawns d : emits P (fs_rm env d).
Proof. unfold fs_rm. emit. Qed.

Lemma fs_mkdir_spawns d : emits P (fs_mkdir env d).
Proof. unfold fs_mkdir. emit. Qed.

Lemma db_update_status_spawns pid st out : emits P (db_update_status env pid st out).
Proof.
  eapply emits_weaken; [|apply db_update_status_reads].
  intros c Hc. now apply HP, reads_only_not_spawn.
Qed.

Lemma validate_spawns input : emits P (validate env input).
Proof.
  eapply emits_weaken; [|apply validate_reads].
  intros c Hc. now apply HP, reads_only_not_spawn.
Qed.

Lemma mark_failed_spawns input e : emits P (mark_failed env input e).
Proof.
  eapply emits_weaken; [|apply mark_failed_reads].
  intros c Hc. now apply HP, reads_only_not_spawn.
Qed.

Lemma cleanup_spawns a e : emits P (cleanup env a e).
Proof. unfold cleanup, fs_rm. emit. Qed.

Lemma prepare_spawns input : emits P (prepare env input).
Proof.
  pose proof (validate_spawns input). pose proof fs_mkdir_spawns.
  unfold prepare. emit.
Qed.
End Spawns.

Lemma generateVideoWithFFmpeg_spawns env paths out d fps :
  emits (spawn_is (ffmpeg_static env) (ffmpeg_args paths out (float_text env d) fps))
    (generateVideoWithFFmpeg env paths out d fps).
Proof.
  pose proof (await_child_spawns env _
                (not_spawn_spawn_is (ffmpeg_static env)
                   (ffmpeg_args paths out (float_text env d) fps))).
  unfold generateVideoWithFFmpeg, start_encoder, fs_writeFile. emit.
Qed.

Lemma stage_and_encode_spawns env input a :
  forall w c, c ∈ trace (stage_and_encode env input a w).2 ->
    c ∈ trace w \/ spawn_is (ffmpeg_static env) (encoder_args env a) c.
Proof.
  intros w. unfold stage_and_encode. apply emits_bind_run.
  - apply copy_images_spawns, not_spawn_spawn_is.
  - intros paths w1 H. apply copy_images_return in H as [-> _]. simpl.
    fold (staged_paths (tempDir a) (length (frames a))).
    pose proof (generateVideoWithFFmpeg_spawns env
                  (staged_paths (tempDir a) (length (frames a))) (outputPath a)
                  (VideoProject.duration_per_image (project a))
                  (VideoProject.fps (project a))).
    pose proof (fs_rm_spawns env _
                  (not_spawn_spawn_is (ffmpeg_static env) (encoder_args env a))).
    pose proof (db_update_status_spawns env _
                  (not_spawn_spawn_is (ffmpeg_static env) (encoder_args env a))).
    emit.
Qed.

(** X7.  The only process a call starts is the encoder of its own attempt:
    a spawn that the call adds to the trace runs the binary exported by
    [ffmpeg-static] on the command line built from the frames staged by this
    attempt, in playback order, with the duration and the frame rate of the
    project row and the output path allocated by this attempt.  A call that
    fails in steps 1 to 5 starts no process. *)
Theorem encoder_command env input w bin args :
  Spawn bin args ∈ trace (generateVideo env input w).2 ->
  Spawn bin args ∈ trace w \/
  exists a w1,
    prepare env input w = (Return a, w1) /\
    bin = ffmpeg_static env /\ args = encoder_args env a.
Proof.
  intros Hc.
  destruct (prepare env input w) as [[a|e] w1] eqn:H.
  - cut (Spawn bin args ∈ trace w \/
         spawn_is (ffmpeg_static env) (encoder_args env a) (Spawn bin args)).
    { intros [?|[-> ->]]; [now left|right; eauto]. }
    pose proof (not_spawn_spawn_is (ffmpeg_static env) (encoder_args env a)) as HP.
    rewrite (generateVideo_staged _ _ _ _ _ H) in Hc.
    pose proof (prepare_spawns env _ HP input w) as Hp.
    rewrite H in Hp. simpl in Hp.
    unfold try_catch at 1 in Hc. unfold try_catch at 1 in Hc.
    pose proof (stage_and_encode_spawns env input a w1) as Hs.
    destruct (stage_and_encode env input a w1) as [[v|e] w2]; simpl in *.
    + destruct (Hs _ Hc) as [Hc1|Hc1]; [apply Hp, Hc1|now right].
    + pose proof (cleanup_spawns env _ HP a e w2) as Hcl.
      destruct (cleanup env a e w2) as [[v|e'] w3]; simpl in *.
      * destruct (Hcl _ Hc) as [Hc2|Hc2]; [|now right].
        destruct (Hs _ Hc2) as [Hc1|Hc1]; [apply Hp, Hc1|now right].
      * pose proof (mark_failed_spawns env _ HP input e' w3 _ Hc) as [Hc3|Hc3];
          [|now right].
        destruct (Hcl _ Hc3) as [Hc2|Hc2]; [|now right].
        destruct (Hs _ Hc2) as [Hc1|Hc1]; [apply Hp, Hc1|now right].
  - left. unfold generateVideo, attempt in Hc.
    rewrite (try_catch_throw _ _ _ _ _ (bind_throw _ _ _ _ _ H)) in Hc.
    pose proof (mark_failed_spawns env not_spawn (fun c Hc => Hc) input e w1 _ Hc)
      as [Hc1|[]].
    pose proof (prepare_spawns env not_spawn (fun c Hc => Hc) input w (Spawn bin args))
      as Hp.
    rewrite H in Hp. destruct (Hp Hc1) as [?|[]]. assumption.
Qed.

Lemma encoder_command_witness :
  let a := mkAttempt
             (VideoProject.mk 1 "Test Video Project" processing None "2.5" 24 0
                1700000000000)
             [ sample_image 1 0 "uploads/images/test1.jpg";
               sample_image 2 1 "uploads/images/test2.jpg" ]
             "uploads/videos/project_1_1700000000007.mp4"
             "uploads/temp/project_1_1700000000008" in
  let bin := "/usr/bin/ffmpeg" in
  let args := encoder_args quiet_env a in
  Spawn bin args ∈ trace sample_world \/
  exists a' w1,
    prepare quiet_env sample_input sample_world = (Return a', w1) /\
    bin = ffmpeg_static quiet_env /\ args = encoder_args quiet_env a'.
Proof.
  intros a bin args.
  apply (encoder_command quiet_env sample_input sample_world bin args).
  vm_compute. do 4 right. left.
Defined.

(** ** A call that goes through *)

Lemma never_fails_ledger env : never_fails env -> ledger_reliable env.
Proof. intros H t c _. apply H. Qed.

Lemma never_fails_access env : never_fails env -> access_faithful env.
Proof. intros H t p. apply H. Qed.

Lemma encoder_succeeds_honest env : encoder_succeeds env -> encoder_honest env.
Proof.
  intros H t bin args stderr output E.
  destruct (H t bin args) as (s & c & E'). congruence.
Qed.

Lemma verify_images_ok env imgs w :
  access_faithful env ->
  Forall (fun img => exists_path (Image.file_path img) w = true) imgs ->
  exists w', verify_images env imgs w = (Return tt, w').
Proof.
  intros Hacc. revert w. induction imgs as [|img imgs IH]; intros w Hall; simpl.
  - eauto.
  - inversion Hall as [|? ? Himg Hrest]; subst.
    unfold bind at 1, try_catch, fs_access, bind at 1, call.
    rewrite Hacc. simpl. rewrite exists_path_record, Himg. simpl.
    apply IH. eapply Forall_impl; [exact Hrest|]. intros x Hx. exact Hx.
Qed.

Lemma stored_exists p w : is_Some (files w !! p) -> exists_path p w = true.
Proof.
  intros H. unfold exists_path. apply orb_true_iff. left. now apply bool_decide_eq_true.
Qed.

(** The frames that step 3 fetches, when the engine reads the table as it is. *)
Lemma frames_stored env pid t w :
  scan_complete env -> images_stored pid w -> image_rows pid (images w) <> [] ->
  let imgs := order_by_asc (image_rows pid (scan env t (images w))) in
  imgs <> [] /\ Forall (fun img => is_Some (files w !! Image.file_path img)) imgs.
Proof.
  intros Hscan Hall Hne imgs.
  assert (imgs ≡ₚ image_rows pid (images w)) as Hperm.
  { subst imgs. rewrite order_by_asc_perm. apply image_rows_perm, Hscan. }
  split.
  - intros E. rewrite E in Hperm. symmetry in Hperm.
    apply Permutation_nil_r in Hperm. contradiction.
  - unfold images_stored in Hall. now rewrite Hperm.
Qed.

Lemma validate_ok env input w row :
  never_fails env -> scan_complete env ->
  lookup_project (project_id input) (projects w) = Some row ->
  images_stored (project_id input) w ->
  image_rows (project_id input) (images w) <> [] ->
  exists checked w1, validate env input w = (Return checked, w1).
Proof.
  intros Hok Hscan Hrow Hall Hne. unfold validate.
  pose proof (never_fails_ledger env Hok) as Hdb.
  rewrite (bind_return _ _ _ _ _ (db_update_status_ok env _ _ _ w Hdb)).
  rewrite (bind_return _ _ _ _ _ (db_select_project_ok env _ _ Hdb)).
  simpl. rewrite project_rows_update by (intros; apply set_status_id).
  unfold lookup_project in Hrow.
  destruct (project_rows (project_id input) (projects w)) as [|r rest];
    [discriminate|]. simpl.
  rewrite (bind_return _ _ _ _ _ (db_select_images_ok env _ _ Hdb)). simpl.
  destruct (frames_stored env (project_id input)
              (S (S (S (time w)))) w Hscan Hall Hne) as [Hne' Hall'].
  destruct (order_by_asc _) as [|img imgs] eqn:E; [contradiction|].
  match goal with |- context [bind (verify_images env ?l) _ ?w0] =>
    destruct (verify_images_ok env l w0 (never_fails_access env Hok)) as (w1 & H1)
  end.
  { eapply Forall_impl; [exact Hall'|]. intros x Hx. now apply stored_exists. }
  rewrite (bind_return _ _ _ _ _ H1). eauto.
Qed.

Lemma fs_mkdir_ok env p w :
  never_fails env ->
  fs_mkdir env p w =
    (Return tt, set_dirs (with_parents p ∪ dirs w) (record (FsMkdir p) w)).
Proof. intros Hok. unfold fs_mkdir, bind, call. now rewrite Hok. Qed.

Lemma prepare_ok env input w row :
  never_fails env -> scan_complete env ->
  lookup_project (project_id input) (projects w) = Some row ->
  images_stored (project_id input) w ->
  image_rows (project_id input) (images w) <> [] ->
  exists a w1, prepare env input w = (Return a, w1).
Proof.
  intros Hok Hscan Hrow Hall Hne. unfold prepare.
  destruct (validate_ok env input w row Hok Hscan Hrow Hall Hne) as (c & w1 & H1).
  rewrite (bind_return _ _ _ _ _ H1).
  rewrite (bind_return _ _ _ _ _ (fs_mkdir_ok env _ _ Hok)).
  unfold bind at 1, now at 1. unfold bind at 1, now at 1.
  rewrite (bind_return _ _ _ _ _ (fs_mkdir_ok env _ _ Hok)). eauto.
Qed.

Lemma copy_images_ok env d imgs :
  never_fails env ->
  forall i acc w,
    Forall (fun img => is_Some (files w !! Image.file_path img)) imgs ->
    exists paths w', copy_images env d i imgs acc w = (Return paths, w').
Proof.
  intros Hok. induction imgs as [|img imgs IH]; intros i acc w Hall; simpl; [eauto|].
  inversion Hall as [|? ? [c Hc] Hrest]; subst.
  assert (fs_copyFile env (Image.file_path img) (path_join d (frame_name i)) w =
          (Return tt, set_files (<[ path_join d (frame_name i) := c ]> (files w))
                        (record (FsCopyFile (Image.file_path img)
                                   (path_join d (frame_name i))) w))) as H1.
  { unfold fs_copyFile, bind, call. rewrite Hok. simpl. now rewrite Hc. }
  rewrite (bind_return _ _ _ _ _ H1). apply IH.
  eapply Forall_impl; [exact Hrest|]. intros x [cx Hx]. simpl.
  destruct (decide (path_join d (frame_name i) = Image.file_path x)) as [<-|Hne].
  - rewrite lookup_insert_eq. eauto.
  - rewrite lookup_insert_ne by exact Hne. eauto.
Qed.

Lemma generateVideoWithFFmpeg_ok env paths out d fps w :
  never_fails env -> encoder_succeeds env ->
  exists w', generateVideoWithFFmpeg env paths out d fps w = (Return tt, w').
Proof.
  intros Hok Henc.
  unfold generateVideoWithFFmpeg, start_encoder, bind at 1, try_catch, bind, call,
    console, ret.
  rewrite !Hok. simpl. unfold await_child.
  match goal with |- context [child env ?t ?b ?a] =>
    destruct (Henc t b a) as (stderr & c & ->)
  end.
  unfold bind, console, ret. simpl. eauto.
Qed.

Lemma stage_and_encode_ok env input a w row :
  never_fails env -> encoder_succeeds env ->
  Forall (fun img => is_Some (files w !! Image.file_path img)) (frames a) ->
  lookup_project (project_id input) (projects w) = Some row ->
  exists v w', stage_and_encode env input a w = (Return v, w').
Proof.
  intros Hok Henc Hall Hrow. unfold stage_and_encode.
  destruct (copy_images_ok env (tempDir a) (frames a) Hok 0%nat [] w Hall)
    as (paths & w1 & H1).
  rewrite (bind_return _ _ _ _ _ H1).
  pose proof (preserves_run projects _ _ _ _ (copy_images_projects env _ _ _ _) H1) as P1.
  destruct (generateVideoWithFFmpeg_ok env paths (outputPath a)
              (VideoProject.duration_per_image (project a))
              (VideoProject.fps (project a)) w1 Hok Henc) as (w2 & H2).
  rewrite (bind_return _ _ _ _ _ H2).
  pose proof (preserves_run projects _ _ _ _
                (generateVideoWithFFmpeg_projects env _ _ _ _) H2) as P2.
  pose proof (fs_rm_ok env (tempDir a) w2 (Hok _ _)) as H3.
  rewrite (bind_return _ _ _ _ _ H3).
  rewrite (bind_return _ _ _ _ _
             (db_update_status_ok env _ _ _ _ (never_fails_ledger env Hok))).
  simpl. rewrite P2, P1.
  destruct (completed_rows (project_id input) (outputPath a)
              (clock env (S (time w2))) _ _ Hrow) as [rest Hrest].
  unfold time in Hrest |- *. simpl. rewrite Hrest. eauto.
Qed.

Lemma set_status_over st out t st' t' r :
  set_status st (Some out) t (set_status st' None t' r) = set_status st (Some out) t r.
Proof. reflexivity. Qed.

(** The two halves of a call that nothing stands in the way of. *)
Lemma generateVideo_goes_through env input w row :
  never_fails env -> scan_complete env -> encoder_succeeds env ->
  lookup_project (project_id input) (projects w) = Some row ->
  images_stored (project_id input) w ->
  image_rows (project_id input) (images w) <> [] ->
  exists a w1 v w',
    prepare env input w = (Return a, w1) /\
    stage_and_encode env input a w1 = (Return v, w') /\
    generateVideo env input w = (Return v, w').
Proof.
  intros Hok Hscan Henc Hrow Hall Hne.
  destruct (prepare_ok env input w row Hok Hscan Hrow Hall Hne) as (a & w1 & H1).
  pose proof (preserves_run files _ _ _ _ (prepare_files env input) H1) as F1.
  pose proof (prepare_inv _ _ _ _ _ H1) as [_ (P1 & Hl & _ & Hfr & _)].
  assert (lookup_project (project_id input) (projects w1) = Some (project a)) as Hrow1
    by (now rewrite P1).
  assert (Forall (fun img => is_Some (files w1 !! Image.file_path img)) (frames a))
    as Hall1.
  { rewrite F1, Hfr. now apply frames_stored. }
  destruct (stage_and_encode_ok env input a w1 _ Hok Henc Hall1 Hrow1) as (v & w' & H2).
  exists a, w1, v, w'. split; [exact H1|]. split; [exact H2|].
  rewrite (generateVideo_staged _ _ _ _ _ H1).
  exact (try_catch_return _ _ _ _ _ (try_catch_return _ _ _ _ _ H2)).
Qed.

(** X8.  A call goes through when nothing stands in its way: the project has
    a row and at least one image, every image of the project has its file in
    the store, no call to a collaborator throws, the engine reads the image
    table as it is, and the encoder exits with status 0 after writing its
    output.  The call then returns the row the project had, with the status
    [completed], the output path [uploads/videos/project_<id>_<ms>.mp4], a
    new timestamp and the duration read back as a number; the ledger holds
    that row, and the file at the output path is in the store. *)
Theorem generate_succeeds env input w row :
  never_fails env -> scan_complete env -> encoder_succeeds env ->
  lookup_project (project_id input) (projects w) = Some row ->
  images_stored (project_id input) w ->
  image_rows (project_id input) (images w) <> [] ->
  exists ms t w',
    let out :=
      path_join (path_join "uploads" "videos") (output_name (project_id input) ms) in
    let after := set_status completed (Some out) t row in
    generateVideo env input w = (Return (parse_numeric env after), w') /\
    lookup_project (project_id input) (projects w') = Some after /\
    is_Some (files w' !! out).
Proof.
  intros Hok Hscan Henc Hrow Hall Hne.
  destruct (generateVideo_goes_through env input w row Hok Hscan Henc Hrow Hall Hne)
    as (a & w1 & v & w' & H1 & H2 & Hrun).
  pose proof (prepare_inv _ _ _ _ _ H1) as [_ (P1 & Hl & _ & _ & _ & Hout & Htemp & _)].
  rewrite lookup_project_set_status, Hrow in Hl. simpl in Hl. injection Hl as Hpa.
  assert (lookup_project (project_id input) (projects w1) = Some (project a)) as Hrow1.
  { rewrite P1, lookup_project_set_status, Hrow. simpl. now rewrite Hpa. }
  pose proof (stage_and_encode_inv _ _ _ _ _ _ H2 _ Hrow1) as (t & P2 & Hv & Hfile).
  exists (clock env (time w1 - 3)), t, w'. cbv zeta. rewrite <- Hout, Hrun.
  rewrite <- Hpa, set_status_over in Hv. split; [now rewrite Hv|]. split.
  - rewrite P2, lookup_project_set_status, Hrow1. simpl.
    now rewrite <- Hpa, set_status_over.
  - apply Hfile; [now apply encoder_succeeds_honest|].
    rewrite Hout, Htemp. apply output_outside_staging.
Qed.

Lemma generate_succeeds_witness :
  exists ms t w',
    let out := path_join (path_join "uploads" "videos") (output_name 1 ms) in
    let after := set_status completed (Some out) t sample_project in
    generateVideo quiet_env sample_input sample_world
      = (Return (parse_numeric quiet_env after), w') /\
    lookup_project 1 (projects w') = Some after /\
    is_Some (files w' !! out).
Proof.
  apply (generate_succeeds quiet_env sample_input sample_world sample_project).
  - intros t c. reflexivity.
  - intros t rows. reflexivity.
  - intros t bin args. eexists _, _. reflexivity.
  - reflexivity.
  - repeat constructor; vm_compute; eauto.
  - discriminate.
Defined.

Lemma fs_writeFile_ok env p c w :
  never_fails env ->
  fs_writeFile env p c w =
    (Return tt, set_files (<[ p := c ]> (files w)) (record (FsWriteFile p) w)).
Proof. intros Hok. unfold fs_writeFile, bind, call. now rewrite Hok. Qed.

Lemma with_parents_videos :
  with_parents (path_join "uploads" "videos")
  = {[ "uploads" ]} ∪ {[ path_join "uploads" "videos" ]}.
Proof.
  change (with_parents (path_join "uploads" "videos"))
    with (list_to_set (C := gset string) ["uploads"; path_join "uploads" "videos"]).
  simpl. set_solver.
Qed.

(** X9.  The earlier, simulating handler goes through under the same
    conditions, with no encoder involved: it returns the row of the project,
    [completed], with the output path [uploads/videos/project_<id>_<ms>.mp4],
    where [<ms>] is the reading of the clock taken after the validation and
    the making of the output directory; the file at that path holds the bytes
    of the text [fake video content]; and the only directories the call adds
    are [uploads] and [uploads/videos], so that no staging directory is
    created. *)
Theorem simulated_succeeds env input w row :
  never_fails env -> scan_complete env ->
  lookup_project (project_id input) (projects w) = Some row ->
  images_stored (project_id input) w ->
  image_rows (project_id input) (images w) <> [] ->
  exists checked w1 t w',
    validate env input w = (Return checked, w1) /\
    let out :=
      path_join (path_join "uploads" "videos")
        (output_name (project_id input) (clock env (S (time w1)))) in
    let after := set_status completed (Some out) t row in
    generateVideo_simulated env input w = (Return (parse_numeric env after), w') /\
    lookup_project (project_id input) (projects w') = Some after /\
    files w' !! out = Some (String.list_byte_of_string "fake video content") /\
    dirs w' = {[ "uploads" ]} ∪ {[ path_join "uploads" "videos" ]} ∪ dirs w.
Proof.
  intros Hok Hscan Hrow Hall Hne.
  pose proof (never_fails_ledger env Hok) as Hdb.
  destruct (validate_ok env input w row Hok Hscan Hrow Hall Hne) as (c & w1 & H1).
  pose proof (preserves_run dirs _ _ _ _ (validate_dirs env input) H1) as D1.
  pose proof (validate_inv _ _ _ _ _ H1) as [_ Hv]. destruct c as [p imgs].
  destruct Hv as (P1 & Hl & _).
  rewrite lookup_project_set_status, Hrow in Hl. simpl in Hl. injection Hl as Hp.
  exists (p, imgs), w1. unfold generateVideo_simulated, simulate.
  erewrite try_catch_return; [|
    rewrite (bind_return _ _ _ _ _ H1);
    rewrite (bind_return _ _ _ _ _ (fs_mkdir_ok env _ _ Hok));
    unfold bind at 1, now at 1;
    rewrite (bind_return _ _ _ _ _ (fs_writeFile_ok env _ _ _ Hok));
    rewrite (bind_return _ _ _ _ _ (db_update_status_ok env _ _ _ _ Hdb));
    simpl; rewrite P1;
    rewrite project_rows_update by (intros; apply set_status_id);
    rewrite project_rows_update by (intros; apply set_status_id);
    unfold lookup_project in Hrow;
    destruct (project_rows (project_id input) (projects w)) as [|r rest];
      [discriminate|]; injection Hrow as ->; simpl; reflexivity ].
  eexists _, _. split; [exact H1|]. cbv zeta.
  split; [reflexivity|]. simpl. split; [|split].
  - rewrite !lookup_project_set_status, Hrow. reflexivity.
  - apply lookup_insert_eq.
  - now rewrite D1, with_parents_videos.
Qed.

Lemma simulated_succeeds_witness :
  exists checked w1 t w',
    validate quiet_env sample_input sample_world = (Return checked, w1) /\
    let out :=
      path_join (path_join "uploads" "videos")
        (output_name 1 (clock quiet_env (S (time w1)))) in
    let after := set_status completed (Some out) t sample_project in
    generateVideo_simulated quiet_env sample_input sample_world
      = (Return (parse_numeric quiet_env after), w') /\
    lookup_project 1 (projects w') = Some after /\
    files w' !! out = Some (String.list_byte_of_string "fake video content") /\
    dirs w' = {[ "uploads" ]} ∪ {[ path_join "uploads" "videos" ]} ∪ dirs sample_world.
Proof.
  apply (simulated_succeeds quiet_env sample_input sample_world sample_project).
  - intros t c. reflexivity.
  - intros t rows. reflexivity.
  - reflexivity.
  - repeat constructor; vm_compute; eauto.
  - discriminate.
Defined.

(** ** A spawn that throws *)

(** X10.  When the module loads but the call to [spawn] itself throws, the
    adapter handles it as it handles a missing module: the error of the spawn
    is dropped, both warnings are logged and the placeholder is written at
    the output path; the adapter then resolves, and it rejects only when the
    write of the placeholder throws, with the error of the write. *)
Theorem spawn_throw_falls_back env paths out d fps w e :
  fault env (time w) RequireFfmpegStatic = None ->
  fault env (2 + time w)%nat
    (Spawn (ffmpeg_static env) (ffmpeg_args paths out (float_text env d) fps)) = Some e ->
  let run := generateVideoWithFFmpeg env paths out d fps w in
  ConsoleWarn "ffmpeg-static not available, creating placeholder video file"
    ∈ trace run.2 /\
  ConsoleWarn "To enable actual video generation, add ffmpeg-static to package.json dependencies"
    ∈ trace run.2 /\
  match fault env (5 + time w)%nat (FsWriteFile out) with
  | None => run.1 = Return tt /\ files run.2 = <[ out := placeholderContent ]> (files w)
  | Some e' => run.1 = Throw e' /\ files run.2 = files w
  end.
Proof.
  intros Hreq Hspawn run. subst run.
  change (2 + time w)%nat with (S (S (time w))) in Hspawn.
  change (5 + time w)%nat with (S (S (S (S (S (time w)))))).
  unfold generateVideoWithFFmpeg, start_encoder, bind, try_catch, call, console,
    fs_writeFile, bind, call, ret.
  rewrite Hreq. simpl.
  change (time (record _ (record _ w))) with (S (S (time w))).
  rewrite Hspawn. simpl.
  change (time (record _ (record _ (record _ (record _ (record _ w))))))
    with (S (S (S (S (S (time w)))))).
  destruct (fault env (S (S (S (S (S (time w)))))) (FsWriteFile out)) as [e'|]; simpl.
  - split; [do 2 right; left|]. split; [right; left|]. easy.
  - split; [do 2 right; left|]. split; [right; left|]. easy.
Qed.

Lemma spawn_throw_falls_back_witness :
  let env :=
    mkEnv (fun t => 1700000000000 + Z.of_nat t)
          (fun _ c => match c with
                      | Spawn _ _ =>
                          Some (Error "The file argument must be of type string. Received null")
                      | _ => None
                      end)
          (fun _ rows => rows) "" (fun _ _ _ => SpawnFailed (Error "unreachable"))
          (fun text => text) in
  let run := generateVideoWithFFmpeg env [] "uploads/videos/out.mp4" "2" 30 sample_world in
  ConsoleWarn "ffmpeg-static not available, creating placeholder video file"
    ∈ trace run.2 /\
  ConsoleWarn "To enable actual video generation, add ffmpeg-static to package.json dependencies"
    ∈ trace run.2 /\
  run.1 = Return tt /\
  files run.2 = <[ "uploads/videos/out.mp4" := placeholderContent ]> (files sample_world).
Proof.
  intros env run.
  apply (spawn_throw_falls_back env [] "uploads/videos/out.mp4" "2" 30 sample_world
           (Error "The file argument must be of type string. Received null"));
    reflexivity.
Defined.

(** ** The row of the project during an attempt *)

(** X11.  From the end of step 5 until the encoder has finished, the ledger
    shows the project as [processing]: the row read in step 2, which gives
    the encoder its duration and frame rate, has that status and the output
    path the project had before the call, and it is still the row of the
    project after the frames were staged and after the encoder has run,
    however staging and encoding end. *)
Theorem processing_while_encoding env input w a w1 :
  prepare env input w = (Return a, w1) ->
  let staged := copy_images env (tempDir a) 0 (frames a) [] w1 in
  let encoded paths :=
    generateVideoWithFFmpeg env paths (outputPath a)
      (VideoProject.duration_per_image (project a)) (VideoProject.fps (project a))
      staged.2 in
  VideoProject.status (project a) = processing /\
  (exists row, lookup_project (project_id input) (projects w) = Some row /\
               VideoProject.output_path (project a) = VideoProject.output_path row) /\
  lookup_project (project_id input) (projects w1) = Some (project a) /\
  lookup_project (project_id input) (projects staged.2) = Some (project a) /\
  forall paths,
    lookup_project (project_id input) (projects (encoded paths).2) = Some (project a).
Proof.
  intros H staged encoded.
  apply prepare_inv in H as [_ (P1 & Hl & _)].
  assert (lookup_project (project_id input) (projects w1) = Some (project a)) as Hrow1
    by (now rewrite P1).
  rewrite lookup_project_set_status in Hl.
  destruct (lookup_project (project_id input) (projects w)) as [row|] eqn:Hrow;
    [|discriminate].
  simpl in Hl. injection Hl as Hpa.
  assert (projects staged.2 = projects w1) as P2 by apply copy_images_projects.
  split; [now rewrite <- Hpa|]. split; [exists row; now rewrite <- Hpa|].
  split; [exact Hrow1|]. split; [now rewrite P2|].
  intros paths. subst encoded. cbv beta.
  now rewrite generateVideoWithFFmpeg_projects, P2.
Qed.

Lemma processing_while_encoding_witness :
  let a := mkAttempt
             (VideoProject.mk 1 "Test Video Project" processing None "2.5" 24 0
                1700000000000)
             [ sample_image 1 0 "uploads/images/test1.jpg";
               sample_image 2 1 "uploads/images/test2.jpg" ]
             "uploads/videos/project_1_1700000000007.mp4"
             "uploads/temp/project_1_1700000000008" in
  let w1 := (prepare failing_env sample_input sample_world).2 in
  let staged := copy_images failing_env (tempDir a) 0 (frames a) [] w1 in
  let encoded paths :=
    generateVideoWithFFmpeg failing_env paths (outputPath a)
      (VideoProject.duration_per_image (project a)) (VideoProject.fps (project a))
      staged.2 in
  VideoProject.status (project a) = processing /\
  (exists row, lookup_project 1 (projects sample_world) = Some row /\
               VideoProject.output_path (project a) = VideoProject.output_path row) /\
  lookup_project 1 (projects w1) = Some (project a) /\
  lookup_project 1 (projects staged.2) = Some (project a) /\
  forall paths, lookup_project 1 (projects (encoded paths).2) = Some (project a).
Proof.
  intros a w1.
  apply (processing_while_encoding failing_env sample_input sample_world a w1).
  vm_compute. reflexivity.
Defined.

(** * The handlers around the pipeline *)

(** ** The images of a project, as listed *)

Lemma image_rows_project pid rows :
  Forall (fun img => Image.project_id img = pid) (image_rows pid rows).
Proof.
  unfold image_rows. apply Forall_forall. intros img Himg.
  apply list_elem_of_In, filter_In in Himg as [_ Himg]. now apply Z.eqb_eq.
Qed.

Lemma getProjectImages_inv env pid w r w' :
  getProjectImages env pid w = (r, w') ->
  match r with
  | Return imgs =>
      imgs = order_by_asc (image_rows pid (scan env (time w) (images w))) /\
      w' = record (DbSelectImages pid) w
  | Throw e =>
      fault env (time w) (DbSelectImages pid) = Some e /\
      w' = record (ConsoleError "Failed to fetch project images:")
             (record (DbSelectImages pid) w)
  end.
Proof.
  unfold getProjectImages, try_catch, db_select_images, bind, call, console, ret, throw.
  destruct (fault env (time w) (DbSelectImages pid)) as [e|]; simpl;
    intros H; inversion H; subst; auto.
Qed.

(** X12.  [getProjectImages] changes neither table nor the store.  When it
    returns, the list is sorted by [order_index], non-decreasing, and holds
    only images of the project asked for; when the engine reads the table as
    it is, the list has every image of the project exactly once.  When the
    query throws, the handler logs the failure and throws the same error. *)
Theorem project_images_listed env pid w :
  let run := getProjectImages env pid w in
  (projects run.2 = projects w /\ images run.2 = images w /\
   files run.2 = files w /\ dirs run.2 = dirs w) /\
  match run.1 with
  | Return imgs =>
      Sorted by_order_index imgs /\
      Forall (fun img => Image.project_id img = pid) imgs /\
      (scan_complete env -> imgs ≡ₚ image_rows pid (images w))
  | Throw e =>
      fault env (time w) (DbSelectImages pid) = Some e /\
      ConsoleError "Failed to fetch project images:" ∈ trace run.2
  end.
Proof.
  intros run. subst run.
  destruct (getProjectImages env pid w) as [[imgs|e] w'] eqn:H;
    apply getProjectImages_inv in H; simpl.
  - destruct H as [-> ->]. split; [easy|]. split; [apply order_by_asc_sorted|].
    split.
    + rewrite order_by_asc_perm. apply image_rows_project.
    + intros Hscan. rewrite order_by_asc_perm. apply image_rows_perm, Hscan.
  - destruct H as [He ->]. split; [easy|]. split; [exact He|left].
Qed.

(** X13.  What [getProjectImages] lists is the order of the frames: when the
    [order_index] values of the project are pairwise distinct and the engine
    reads the image table as it is, an attempt of [generateVideo] on the same
    image table stages its frames in the very order of the list. *)
Theorem listing_is_frame_order env env' input w w' imgs w1 a w2 :
  scan_complete env -> scan_complete env' ->
  NoDup (map Image.order_index (image_rows (project_id input) (images w))) ->
  images w' = images w ->
  getProjectImages env (project_id input) w = (Return imgs, w1) ->
  prepare env' input w' = (Return a, w2) ->
  frames a = imgs.
Proof.
  intros Hs Hs' Hnd Himgs Hlist Hprep.
  apply getProjectImages_inv in Hlist as [-> _].
  apply prepare_inv in Hprep as [_ (_ & _ & _ & -> & _)]. rewrite Himgs.
  assert (forall e t, scan_complete e ->
            order_by_asc (image_rows (project_id input) (scan e t (images w)))
            ≡ₚ image_rows (project_id input) (images w)) as Hperm.
  { intros e t He. rewrite order_by_asc_perm. apply image_rows_perm, He. }
  apply (Sorted_unique_strong by_order_index).
  - intros x y Hx Hy Hxy Hyx.
    apply (distinct_keys_inj _ x y Hnd).
    + now rewrite <- (Hperm env' (time w' + 3)%nat Hs').
    + now rewrite <- (Hperm env (time w) Hs).
    + unfold by_order_index in *. lia.
  - apply order_by_asc_sorted.
  - apply order_by_asc_sorted.
  - now rewrite !Hperm.
Qed.

Lemma listing_is_frame_order_witness :
  frames (mkAttempt
            (VideoProject.mk 1 "Test Video Project" processing None "2.5" 24 0
               1700000000000)
            [ sample_image 1 0 "uploads/images/test1.jpg";
              sample_image 2 1 "uploads/images/test2.jpg" ]
            "uploads/videos/project_1_1700000000007.mp4"
            "uploads/temp/project_1_1700000000008")
  = [ sample_image 1 0 "uploads/images/test1.jpg";
      sample_image 2 1 "uploads/images/test2.jpg" ].
Proof.
  apply (listing_is_frame_order reversing_env quiet_env sample_input
           sample_world sample_world _
           (getProjectImages reversing_env 1 sample_world).2 _
           (prepare quiet_env sample_input sample_world).2).
  - intros t rows. simpl. symmetry. apply Permutation_rev.
  - intros t rows. reflexivity.
  - vm_compute. apply NoDup_cons. split; [|apply NoDup_singleton].
    intros H%list_elem_of_singleton. discriminate.
  - reflexivity.
  - vm_compute. reflexivity.
  - vm_compute. reflexivity.
Defined.

(** ** Paths *)

Lemma split_path_segments s : Forall (fun seg => no_separator seg = true) (split_path s).
Proof.
  induction s as [|c s IH]; simpl; [repeat constructor|].
  destruct (Ascii.eqb c "/") eqn:E; [constructor; [reflexivity|exact IH]|].
  destruct (split_path s) as [|seg rest].
  - constructor; [|constructor]. unfold no_separator. simpl. now rewrite E.
  - inversion IH; subst. constructor; [|assumption].
    unfold no_separator in *. simpl. now rewrite E.
Qed.

Lemma split_path_plain s : no_separator s = true -> split_path s = [s].
Proof.
  unfold no_separator. induction s as [|c s IH]; simpl; [reflexivity|].
  intros [Hc Hs]%andb_true_iff. apply negb_true_iff in Hc. rewrite Hc, IH; auto.
Qed.

Lemma split_path_cons s : exists seg rest, split_path s = seg :: rest.
Proof.
  destruct s as [|c s]; simpl; [eauto|].
  destruct (Ascii.eqb c "/"); [eauto|]. destruct (split_path s); eauto.
Qed.

Lemma split_path_app_sep a b :
  split_path (a +:+ String "/" b) = split_path a ++ split_path b.
Proof.
  induction a as [|c a IH]; [reflexivity|].
  rewrite app_cons. simpl. rewrite IH.
  destruct (Ascii.eqb c "/"); [reflexivity|].
  destruct (split_path_cons a) as (seg & rest & ->). reflexivity.
Qed.

Lemma basename_segment s : no_separator (basename s) = true.
Proof.
  unfold basename.
  destruct (last (filter (fun seg => seg <> "") (split_path s))) as [seg|] eqn:E;
    [|reflexivity].
  simpl. apply last_Some_elem_of in E. apply list_elem_of_filter in E as [_ E].
  pose proof (split_path_segments s) as H. rewrite Forall_forall in H. now apply H.
Qed.

Lemma basename_below dir name :
  name <> "" -> no_separator name = true ->
  basename (dir +:+ String "/" name) = name.
Proof.
  intros Hne Hplain. unfold basename.
  rewrite split_path_app_sep, (split_path_plain name Hplain), filter_app.
  rewrite filter_cons_True by exact Hne. rewrite filter_nil, last_snoc. reflexivity.
Qed.

Lemma ends_with_separator_plain s :
  no_separator s = true -> ends_with_separator s = false.
Proof.
  unfold no_separator. induction s as [|c s IH]; simpl; [reflexivity|].
  intros [Hc Hs]%andb_true_iff. apply negb_true_iff in Hc.
  destruct s; [exact Hc|now apply IH].
Qed.

Lemma ends_with_separator_app a b :
  b <> "" -> ends_with_separator (a +:+ b) = ends_with_separator b.
Proof.
  intros Hb. induction a as [|c a IH]; [reflexivity|].
  rewrite app_cons. simpl. rewrite IH.
  destruct (a +:+ b) eqn:E; [|reflexivity].
  destruct a as [|c' a']; [contradiction (Hb E)|rewrite app_cons in E; discriminate].
Qed.

(** A plain file name is joined to [uploads/videos] as it is. *)
Lemma videos_join_plain name :
  plain_name name ->
  posix_join ["uploads"; "videos"; name] =
    path_join (path_join "uploads" "videos") name.
Proof.
  intros (Hne & Hdot & Hdots & Hplain). unfold posix_join.
  rewrite !filter_cons_True by (try exact Hne; discriminate). rewrite filter_nil.
  change (String.concat "/" ["uploads"; "videos"; name])
    with ("uploads" +:+ String "/" ("videos" +:+ String "/" name)).
  unfold posix_normalize.
  rewrite decide_False by discriminate. cbv zeta.
  change (starts_with "/" ("uploads" +:+ String "/" ("videos" +:+ String "/" name)))
    with false.
  rewrite !split_path_app_sep, (split_path_plain name Hplain).
  change (split_path "uploads") with ["uploads"].
  change (split_path "videos") with ["videos"].
  simpl app. simpl negb.
  assert (normalize_segments true ["uploads"; "videos"; name] [] =
          ["uploads"; "videos"; name]) as ->.
  { simpl. rewrite decide_False by (intros [?|?]; contradiction).
    now rewrite decide_False by exact Hdots. }
  change (String.concat "/" ["uploads"; "videos"; name])
    with ("uploads" +:+ String "/" ("videos" +:+ String "/" name)).
  rewrite decide_False by discriminate.
  assert (ends_with_separator ("uploads" +:+ String "/" ("videos" +:+ String "/" name))
          = false) as ->.
  { change ("uploads" +:+ String "/" ("videos" +:+ String "/" name))
      with ("uploads/videos/" +:+ name).
    rewrite ends_with_separator_app by exact Hne.
    now apply ends_with_separator_plain. }
  rewrite app_string_nil_r. reflexivity.
Qed.

Lemma output_name_plain pid ms : plain_name (output_name pid ms).
Proof.
  unfold plain_name, output_name.
  change ("project_" +:+ toString pid +:+ "_" +:+ toString ms +:+ ".mp4")
    with (String "p" ("roject_" +:+ toString pid +:+ "_" +:+ toString ms +:+ ".mp4")).
  do 3 (split; [discriminate|]).
  change (String "p" ("roject_" +:+ toString pid +:+ "_" +:+ toString ms +:+ ".mp4"))
    with ("project_" +:+ toString pid +:+ "_" +:+ toString ms +:+ ".mp4").
  unfold no_separator. rewrite !all_chars_app.
  rewrite (numeral_no_char "/" (toString pid) eq_refl (toString_numeral pid)).
  rewrite (numeral_no_char "/" (toString ms) eq_refl (toString_numeral ms)).
  reflexivity.
Qed.

(** ** The file served for a download *)

(** X14.  Whatever the request, [handleVideoDownload] looks for a file
    directly in [uploads/videos]: the path it builds from the URL is
    [uploads/videos/<name>] for a name without a separator that is neither
    [.] nor [..], or else it is one of the two directories [uploads/videos]
    and [uploads] themselves.  No URL makes it read a file elsewhere. *)
Theorem served_path_confined url :
  videoPath url = "uploads/videos" \/ videoPath url = "uploads" \/
  exists name,
    plain_name name /\
    videoPath url = path_join (path_join "uploads" "videos") name.
Proof.
  unfold videoPath. cbv zeta.
  pose proof (basename_segment url) as Hseg.
  destruct (decide (basename url = "")) as [->|Hne]; [left; reflexivity|].
  destruct (decide (basename url = ".")) as [->|Hdot]; [left; reflexivity|].
  destruct (decide (basename url = "..")) as [->|Hdots]; [right; left; reflexivity|].
  right. right. exists (basename url).
  assert (plain_name (basename url)) as Hplain by (unfold plain_name; auto).
  split; [exact Hplain|now apply videos_join_plain].
Qed.

Lemma generateVideo_return env input w v w' :
  generateVideo env input w = (Return v, w') ->
  attempt env input w = (Return v, w') /\
  exists row, lookup_project (project_id input) (projects w) = Some row.
Proof.
  intros H. split.
  - unfold generateVideo, try_catch in H.
    destruct (attempt env input w) as [[v0|e] w1]; [exact H|].
    destruct (mark_failed_inv env input e w1) as (w2 & Hm & _). congruence.
  - destruct (lookup_project (project_id input) (projects w)) as [row|] eqn:Hrow;
      [eauto|].
    destruct (absent_run env input w (generateVideo env input)) as [[Hs _] _];
      [intros e w1 Hv; now apply generateVideo_validate_throw|exact Hrow|].
    rewrite H in Hs. simpl in Hs. tauto.
Qed.

Lemma getVideoDownloadUrl_generated env pid w row dir name :
  fault env (time w) (DbSelectProject pid) = None ->
  lookup_project pid (projects w) = Some row ->
  VideoProject.output_path row = Some (path_join dir name) ->
  plain_name name ->
  getVideoDownloadUrl env pid w
    = (Return ("/videos/" +:+ name), record (DbSelectProject pid) w).
Proof.
  intros Hok Hrow Hout (Hne & _ & _ & Hplain).
  unfold getVideoDownloadUrl, db_select_project, bind, call. rewrite Hok. simpl.
  unfold lookup_project in Hrow.
  destruct (project_rows pid (projects w)) as [|r rest]; [discriminate|].
  injection Hrow as ->. rewrite Hout.
  unfold path_join. change ("/" +:+ name) with (String "/" name).
  rewrite (basename_below dir name Hne Hplain).
  destruct (dir +:+ String "/" name) eqn:E; [|reflexivity].
  destruct dir; [discriminate|rewrite app_cons in E; discriminate].
Qed.

(** X15.  The URL handed out for a generated video leads back to the video:
    after a call of [generateVideo] that returned, with an encoder that has
    written its output, [getVideoDownloadUrl] returns a URL that starts with
    [/videos/], so that the server routes it to [handleVideoDownload], and
    the file looked for under that URL is the output path of the returned
    row, a file of the store. *)
Theorem download_after_generate env input w v w' :
  encoder_honest env ->
  generateVideo env input w = (Return v, w') ->
  fault env (time w') (DbSelectProject (project_id input)) = None ->
  exists url w'',
    getVideoDownloadUrl env (project_id input) w' = (Return url, w'') /\
    starts_with "/videos/" url = true /\
    VideoProject.output_path v = Some (videoPath url) /\
    is_Some (files w'' !! videoPath url).
Proof.
  intros Hhonest H Hok.
  apply generateVideo_return in H as [H [row Hrow]].
  pose proof (attempt_inv _ _ _ _ _ H _ Hrow) as (p & Hp & _ & [t Hout] & -> & Hfile).
  destruct (Hfile Hhonest) as (out & Hout' & Hstored).
  pose proof (output_name_plain (project_id input) t) as Hplain.
  exists ("/videos/" +:+ output_name (project_id input) t),
         (record (DbSelectProject (project_id input)) w').
  split; [now apply (getVideoDownloadUrl_generated _ _ _ p (path_join "uploads" "videos"))|].
  split; [apply (starts_with_app "/videos/")|].
  assert (videoPath ("/videos/" +:+ output_name (project_id input) t) =
          path_join (path_join "uploads" "videos") (output_name (project_id input) t))
    as ->.
  { unfold videoPath. cbv zeta.
    change ("/videos/" +:+ output_name (project_id input) t)
      with ("/videos" +:+ String "/" (output_name (project_id input) t)).
    destruct Hplain as (Hne & Hd & Hdd & Hp').
    rewrite (basename_below "/videos" _ Hne Hp').
    apply videos_join_plain. unfold plain_name. auto. }
  split; [exact Hout|]. simpl. rewrite Hout in Hout'. injection Hout' as <-.
  exact Hstored.
Qed.

Lemma download_after_generate_witness :
  exists url w'',
    getVideoDownloadUrl quiet_env 1 (generateVideo quiet_env sample_input sample_world).2
      = (Return url, w'') /\
    starts_with "/videos/" url = true /\
    Some "uploads/videos/project_1_1700000000007.mp4" = Some (videoPath url) /\
    is_Some (files w'' !! videoPath url).
Proof.
  apply (download_after_generate quiet_env sample_input sample_world
           (parse_numeric quiet_env
              (VideoProject.mk 1 "Test Video Project" completed
                 (Some "uploads/videos/project_1_1700000000007.mp4") "2.5" 24 0
                 1700000000017))
           (generateVideo quiet_env sample_input sample_world).2).
  - intros t bin args stderr output E. injection E as _ <-. discriminate.
  - vm_compute. reflexivity.
  - reflexivity.
Defined.

Lemma failed_call_keeps_path env input w e w' row :
  generateVideo env input w = (Throw e, w') ->
  lookup_project (project_id input) (projects w) = Some row ->
  exists after,
    lookup_project (project_id input) (projects w') = Some after /\
    VideoProject.output_path after = VideoProject.output_path row.
Proof.
  intros H Hrow. unfold generateVideo, try_catch in H.
  destruct (attempt env input w) as [[v|e0] w1] eqn:Ha; [discriminate|].
  pose proof (attempt_inv _ _ _ _ _ Ha _ Hrow) as Hkept.
  destruct (outputs_kept_lookup _ _ _ _ Hkept Hrow) as (r1 & Hr1 & Ho1 & _).
  destruct (mark_failed_inv env input e0 w1) as (w2 & Hm & [[P _]|[P _]] & _);
    rewrite Hm in H; injection H as _ <-; rewrite P.
  - rewrite lookup_project_set_status, Hr1. simpl. eauto.
  - eauto.
Qed.

(** X16.  A call of [generateVideo] that fails changes nothing for the
    download: a project that had no video still has none, and
    [getVideoDownloadUrl] throws [Video not yet generated for project <id>];
    a project that had one is still given the URL of that video. *)
Theorem download_after_failure env input w e w' row :
  generateVideo env input w = (Throw e, w') ->
  lookup_project (project_id input) (projects w) = Some row ->
  fault env (time w') (DbSelectProject (project_id input)) = None ->
  (getVideoDownloadUrl env (project_id input) w').1 =
    match VideoProject.output_path row with
    | None | Some EmptyString =>
        Throw (Error ("Video not yet generated for project " +:+
                      toString (project_id input)))
    | Some output_path => Return ("/videos/" +:+ basename output_path)
    end.
Proof.
  intros H Hrow Hok.
  destruct (failed_call_keeps_path _ _ _ _ _ _ H Hrow) as (after & Hafter & <-).
  unfold getVideoDownloadUrl, db_select_project, bind, call. rewrite Hok. simpl.
  unfold lookup_project in Hafter.
  destruct (project_rows (project_id input) (projects w')) as [|r rest];
    [discriminate|].
  injection Hafter as ->.
  destruct (VideoProject.output_path after) as [[|c out]|]; reflexivity.
Qed.

Lemma download_after_failure_witness :
  (getVideoDownloadUrl failing_env 1
     (generateVideo failing_env sample_input sample_world).2).1 =
    Throw (Error "Video not yet generated for project 1").
Proof.
  apply (download_after_failure failing_env sample_input sample_world
           (Error "FFmpeg process failed with exit code 1: Invalid data found when processing input")
           (generateVideo failing_env sample_input sample_world).2 sample_project).
  - vm_compute. reflexivity.
  - reflexivity.
  - reflexivity.
Defined.

(** ** The status set by hand *)

Lemma set_values_id st out t r :
  VideoProject.id (set_values st out t r) = VideoProject.id r.
Proof. reflexivity. Qed.

(** X17.  [updateProjectStatus] writes the status and a new timestamp to the
    row of the project and returns that row; the output path of the row is
    kept when the input has no [output_path], cleared when it is [null] and
    replaced when it is a text, and the other columns are as they were.  For
    an id without a row the handler throws [Project with id <id> not found];
    when the engine refuses the statement it throws the error of the engine;
    in both cases the table is as it was.  The rows of the other projects,
    the image table and the store are never touched. *)
Theorem status_update env eng input w :
  let pid := UpdateProjectStatusInput.project_id input in
  let st := UpdateProjectStatusInput.status input in
  let out := UpdateProjectStatusInput.output_path input in
  let run := updateProjectStatus env eng input w in
  (images run.2 = images w /\ files run.2 = files w /\ dirs run.2 = dirs w /\
   others_kept pid (projects w) (projects run.2)) /\
  match refuse eng (S (time w)) (UpdateProject pid st out),
        lookup_project pid (projects w) with
  | Some e, _ => run.1 = Throw e /\ projects run.2 = projects w
  | None, None =>
      run.1 = Throw (Error ("Project with id " +:+ toString pid +:+ " not found")) /\
      projects run.2 = projects w
  | None, Some row =>
      exists after,
        run.1 = Return (parse_numeric env after) /\
        lookup_project pid (projects run.2) = Some after /\
        VideoProject.status after = st /\
        VideoProject.output_path after =
          match out with
          | None => VideoProject.output_path row
          | Some path_or_null => path_or_null
          end /\
        VideoProject.updated_at after = clock env (time w) /\
        VideoProject.name after = VideoProject.name row /\
        VideoProject.duration_per_image after = VideoProject.duration_per_image row /\
        VideoProject.fps after = VideoProject.fps row /\
        VideoProject.created_at after = VideoProject.created_at row
  end.
Proof.
  intros pid st out run. subst run.
  unfold updateProjectStatus, try_catch, bind, now, db_update_project, console, throw.
  fold pid st out. simpl.
  change (time (record DateNow w)) with (S (time w)).
  destruct (refuse eng (S (time w)) (UpdateProject pid st out)) as [e|]; simpl.
  { split; [|easy]. repeat split; try reflexivity. apply others_kept_refl. }
  rewrite project_rows_update by (intros; apply set_values_id).
  destruct (lookup_project pid (projects w)) as [row|] eqn:Hrow.
  - pose proof Hrow as Hrow'. unfold lookup_project in Hrow'.
    destruct (project_rows pid (projects w)) as [|r rest]; [discriminate|].
    injection Hrow' as ->. simpl. split.
    + repeat split; try reflexivity. apply update_where_others. intros r0.
      apply set_values_id.
    + exists (set_values st out (clock env (time w)) row).
      split; [reflexivity|]. split; [|easy].
      rewrite lookup_project_update by (intros; apply set_values_id).
      now rewrite Hrow.
  - rewrite (project_rows_absent _ _ Hrow). simpl.
    rewrite update_where_absent by exact Hrow.
    split; [|easy]. repeat split; try reflexivity. apply others_kept_refl.
Qed.

(** ** Uploads *)

(** *** The paths of an upload *)

Lemma normalize_segments_snoc b segs res n :
  n <> "" -> n <> "." -> n <> ".." ->
  normalize_segments b (segs ++ [n]) res = normalize_segments b segs res ++ [n].
Proof.
  intros Hne Hdot Hdots. revert res.
  induction segs as [|seg segs IH]; intros res; simpl.
  - rewrite decide_False by (intros [?|?]; contradiction).
    now rewrite decide_False by exact Hdots.
  - destruct (decide (seg = "" \/ seg = ".")); [apply IH|].
    destruct (decide (seg = "..")); [|apply IH].
    destruct res as [|prev res']; [apply IH|].
    destruct (decide (prev = "..")); apply IH.
Qed.

Lemma concat_snoc (segs : list string) n :
  segs <> [] ->
  String.concat "/" (segs ++ [n]) = String.concat "/" segs +:+ "/" +:+ n.
Proof.
  induction segs as [|x [|y segs] IH]; intros Hne; [contradiction|reflexivity|].
  change (String.concat "/" ((x :: y :: segs) ++ [n]))
    with (x +:+ "/" +:+ String.concat "/" ((y :: segs) ++ [n])).
  rewrite IH by discriminate.
  change (String.concat "/" (x :: y :: segs))
    with (x +:+ "/" +:+ String.concat "/" (y :: segs)).
  now rewrite !app_string_assoc.
Qed.

Lemma app_string_nonempty a c b : a +:+ String c b <> "".
Proof. destruct a; discriminate. Qed.

Lemma length_app_string a b :
  String.length (a +:+ b) = (String.length a + String.length b)%nat.
Proof. induction a as [|c a IH]; [reflexivity|]. rewrite app_cons. simpl. now rewrite IH. Qed.

(** A plain name is joined to a clean directory as it is, and the result is
    a clean directory path again. *)
Lemma posix_normalize_join d n :
  clean_dir d -> plain_name n ->
  posix_normalize (path_join d n) = path_join d n.
Proof.
  intros (Hn & Hend & Hdot) (Hne & Hndot & Hndots & Hplain).
  assert (d <> "") as Hd by (intros ->; discriminate).
  unfold posix_normalize in Hn. rewrite decide_False in Hn by exact Hd.
  cbv zeta in Hn. rewrite Hend in Hn.
  set (abs := starts_with "/" d) in *.
  set (segs := normalize_segments (negb abs) (split_path d) []) in *.
  destruct (decide (String.concat "/" segs = "")) as [E|Hbody].
  { destruct abs; subst d; [discriminate|contradiction]. }
  rewrite app_string_nil_r in Hn.
  unfold posix_normalize, path_join.
  rewrite decide_False by apply app_string_nonempty. cbv zeta.
  assert (starts_with "/" (d +:+ "/" +:+ n) = abs) as ->.
  { subst abs. destruct d as [|c d]; [contradiction|]. reflexivity. }
  assert (ends_with_separator (d +:+ "/" +:+ n) = false) as ->.
  { rewrite ends_with_separator_app by discriminate.
    rewrite (ends_with_separator_app "/" n Hne).
    now apply ends_with_separator_plain. }
  change (d +:+ "/" +:+ n) with (d +:+ String "/" n).
  rewrite split_path_app_sep, (split_path_plain n Hplain).
  rewrite normalize_segments_snoc by assumption. fold segs.
  assert (segs <> []) as Hsegs by (intros E; now rewrite E in Hbody).
  rewrite (concat_snoc segs n Hsegs).
  rewrite decide_False.
  2: { intros E. destruct (String.concat "/" segs); discriminate. }
  rewrite app_string_nil_r, <- !app_string_assoc, Hn.
  now rewrite app_string_assoc.
Qed.

Lemma clean_dir_join d n :
  clean_dir d -> plain_name n -> clean_dir (path_join d n).
Proof.
  intros Hd Hn. split; [now apply posix_normalize_join|].
  destruct Hn as (Hne & _ & _ & Hplain). unfold path_join. split.
  - rewrite ends_with_separator_app by discriminate.
    rewrite (ends_with_separator_app "/" n Hne).
    now apply ends_with_separator_plain.
  - destruct Hd as (Hn & _ & _).
    destruct d as [|c [|c' d]]; [discriminate| |discriminate].
    rewrite app_cons. intros E. injection E as _ E. discriminate.
Qed.

Lemma posix_join_plain d n :
  clean_dir d -> plain_name n -> posix_join [d; n] = path_join d n.
Proof.
  intros Hd Hn. unfold posix_join.
  assert (d <> "") as Hne by (destruct Hd as (E & _); intros ->; discriminate).
  rewrite !filter_cons_True by (try exact Hne; apply Hn). rewrite filter_nil.
  now apply posix_normalize_join.
Qed.

Lemma plain_uploads : plain_name "uploads".
Proof. repeat split; discriminate. Qed.

Lemma plain_images : plain_name "images".
Proof. repeat split; discriminate. Qed.

(** With a clean working directory [uploadsDir] is [<cwd>/uploads/images]. *)
Lemma uploadsDir_clean eng :
  clean_dir (cwd eng) ->
  uploadsDir eng = path_join (path_join (cwd eng) "uploads") "images" /\
  clean_dir (uploadsDir eng).
Proof.
  intros Hc.
  pose proof (clean_dir_join _ _ Hc plain_uploads) as Hu.
  pose proof (clean_dir_join _ _ Hu plain_images) as Hi.
  assert (uploadsDir eng = path_join (path_join (cwd eng) "uploads") "images") as E.
  { unfold uploadsDir, posix_join.
    assert (cwd eng <> "") as Hne by (destruct Hc as (E & _); intros E'; rewrite E' in E; discriminate).
    rewrite !filter_cons_True by (try exact Hne; discriminate). rewrite filter_nil.
    change (String.concat "/" [cwd eng; "uploads"; "images"])
      with (cwd eng +:+ "/" +:+ ("uploads" +:+ "/" +:+ "images")).
    replace (cwd eng +:+ "/" +:+ ("uploads" +:+ "/" +:+ "images"))
      with (path_join (path_join (cwd eng) "uploads") "images")
      by (unfold path_join; now rewrite !app_string_assoc).
    now apply posix_normalize_join. }
  split; [exact E|now rewrite E].
Qed.

Lemma parent_dir_plain n : no_separator n = true -> parent_dir n = None.
Proof.
  unfold no_separator. induction n as [|c n IH]; simpl; [reflexivity|].
  intros [Hc Hn]%andb_true_iff. apply negb_true_iff in Hc. now rewrite IH, Hc.
Qed.

(** The directory of [d/n] is [d]. *)
Lemma parent_dir_join d n :
  no_separator n = true -> parent_dir (path_join d n) = Some d.
Proof.
  intros Hn. unfold path_join. induction d as [|c d IH].
  - change ("" +:+ "/" +:+ n) with (String "/" n). simpl.
    now rewrite (parent_dir_plain n Hn).
  - rewrite app_cons. simpl. now rewrite IH.
Qed.

Lemma parents_shorter p d :
  d ∈ parents p -> (String.length d < String.length p)%nat.
Proof.
  revert d. induction p as [|c p IH]; intros d; simpl; [now intros ?%elem_of_nil|].
  intros [Hd|Hd]%elem_of_app.
  - destruct (Ascii.eqb c "/"); [|now apply elem_of_nil in Hd].
    apply list_elem_of_singleton in Hd as ->. simpl. lia.
  - apply list_elem_of_In, in_map_iff in Hd as (d' & <- & Hd').
    apply list_elem_of_In, IH in Hd'. simpl. lia.
Qed.

(** Making a directory makes no directory with a longer path. *)
Lemma with_parents_length p q :
  q ∈ with_parents p -> (String.length q <= String.length p)%nat.
Proof.
  unfold with_parents. rewrite elem_of_list_to_set, elem_of_app.
  intros [[_ Hq]%list_elem_of_filter| ->%list_elem_of_singleton]; [|lia].
  apply parents_shorter in Hq. lia.
Qed.

Lemma join_not_made d n : path_join d n ∉ with_parents d.
Proof.
  intros H%with_parents_length. unfold path_join in H.
  rewrite !length_app_string in H. simpl in H. lia.
Qed.

(** *** The steps of an upload *)

Lemma ensure_dir_inv env d w r w' :
  (if exists_path d w then ret tt w else fs_mkdir env d w) = (r, w') ->
  projects w' = projects w /\ images w' = images w /\ files w' = files w /\
  (forall x, x ∈ dirs w -> x ∈ dirs w') /\
  (r = Return tt -> exists_path d w' = true) /\
  (exists_path d w = true -> dirs w' = dirs w) /\
  (dirs w' = dirs w \/
   (exists_path d w = false /\ r = Return tt /\ dirs w' = with_parents d ∪ dirs w)).
Proof.
  destruct (exists_path d w) eqn:Hd.
  - intros H. inversion H; subst. auto 10.
  - intros H.
    pose proof (preserves_run projects _ _ _ _ (fs_mkdir_projects env d) H) as P.
    pose proof (preserves_run images _ _ _ _ (fs_mkdir_images env d) H) as I.
    pose proof (preserves_run files _ _ _ _ (fs_mkdir_files env d) H) as F.
    apply fs_mkdir_inv in H as [(e & -> & D)|(-> & ->)].
    + do 3 (split; [assumption|]). split; [now rewrite D|].
      split; [discriminate|]. split; [discriminate|now left].
    + do 3 (split; [assumption|]). split; [|split; [|split]].
      * intros x Hx. simpl. now apply elem_of_union_r.
      * intros _. unfold exists_path. simpl. apply orb_true_iff. right.
        apply bool_decide_eq_true, elem_of_union_l, with_parents_self.
      * discriminate.
      * right. auto.
Qed.

Lemma fs_writeFileSync_inv env p c w r w' :
  fs_writeFileSync env p c w = (r, w') ->
  projects w' = projects w /\ images w' = images w /\ dirs w' = dirs w /\
  ((exists e, r = Throw e /\ files w' = files w) \/
   (r = Return tt /\ files w' = <[ p := c ]> (files w))).
Proof.
  unfold fs_writeFileSync, bind, call.
  destruct (fault _ _ _); [intros H; inversion H; subst; simpl; eauto 10|].
  destruct (bool_decide _ || _); [intros H; inversion H; subst; simpl; eauto 10|].
  destruct (parent_exists _ _); intros H; inversion H; subst; simpl; eauto 10.
Qed.

(** The write goes through when the call is not refused, the path is no
    directory and its directory is there. *)
Lemma fs_writeFileSync_ok env d n c w :
  fault env (time w) (FsWriteFile (path_join d n)) = None ->
  plain_name n -> d ∈ dirs w -> path_join d n ∉ dirs w ->
  fs_writeFileSync env (path_join d n) c w =
    (Return tt,
     set_files (<[ path_join d n := c ]> (files w))
       (record (FsWriteFile (path_join d n)) w)).
Proof.
  intros Hok (Hne & _ & _ & Hplain) Hd Hnot.
  unfold fs_writeFileSync, bind, call. rewrite Hok.
  change (dirs (record (FsWriteFile (path_join d n)) w)) with (dirs w).
  rewrite (bool_decide_eq_false_2 _ Hnot).
  assert (ends_with_separator (path_join d n) = false) as ->.
  { unfold path_join. rewrite ends_with_separator_app by discriminate.
    rewrite (ends_with_separator_app "/" n Hne).
    now apply ends_with_separator_plain. }
  unfold parent_exists. rewrite (parent_dir_join d n Hplain).
  change (dirs (record (FsWriteFile (path_join d n)) w)) with (dirs w).
  rewrite (bool_decide_eq_true_2 _ Hd), orb_true_r. reflexivity.
Qed.

Lemma db_insert_image_inv eng pid filename file_path file_size mime_type order_index
    w r w' :
  db_insert_image eng pid filename file_path file_size mime_type order_index w = (r, w') ->
  projects w' = projects w /\ files w' = files w /\ dirs w' = dirs w /\
  trace w' = trace w /\
  match r with
  | Return row =>
      row = Image.mk (serial eng (time w)) pid filename file_path file_size mime_type
              order_index (db_now eng (time w)) /\
      images w' = images w ++ [row]
  | Throw e =>
      refuse eng (time w)
        (InsertImage pid filename file_path file_size mime_type order_index) = Some e /\
      images w' = images w
  end.
Proof.
  unfold db_insert_image. destruct (refuse _ _ _) as [e|] eqn:E;
    intros H; inversion H; subst; simpl; repeat split; auto.
Qed.

Lemma uploadImage_inv env eng input w r w' :
  uploadImage env eng input w = (r, w') ->
  let pid := UploadImageInput.project_id input in
  let filePath := posix_join [uploadsDir eng; UploadImageInput.filename input] in
  let bytes := from_base64 eng (UploadImageInput.file_data input) in
  projects w' = projects w /\
  (forall d, d ∈ dirs w -> d ∈ dirs w') /\
  match r with
  | Return row =>
      project_rows pid (projects w) <> [] /\
      (exists t,
         row = Image.mk (serial eng t) pid (UploadImageInput.filename input) filePath
                 (Z.of_nat (length bytes)) (UploadImageInput.mime_type input)
                 (UploadImageInput.order_index input) (db_now eng t)) /\
      images w' = images w ++ [row] /\
      files w' = <[ filePath := bytes ]> (files w) /\
      exists_path (uploadsDir eng) w' = true
  | Throw e =>
      images w' = images w /\
      ConsoleError "Image upload failed:" ∈ trace w' /\
      (files w' = files w \/
       (files w' = <[ filePath := bytes ]> (files w) /\
        exists t,
          refuse eng t
            (InsertImage pid (UploadImageInput.filename input) filePath
               (Z.of_nat (length bytes)) (UploadImageInput.mime_type input)
               (UploadImageInput.order_index input)) = Some e))
  end /\
  (exists_path (uploadsDir eng) w = true -> dirs w' = dirs w) /\
  (dirs w' = dirs w \/
   (exists_path (uploadsDir eng) w = false /\
    dirs w' = with_parents (uploadsDir eng) ∪ dirs w)).
Proof.
  intros H pid filePath bytes. unfold uploadImage in H. fold pid filePath bytes in H.
  assert (forall e w1 (r0 : Outcome Image.row) w2,
            (exec console (ConsoleError "Image upload failed:") ;; throw e) w1 = (r0, w2) ->
            r0 = Throw e /\ w2 = record (ConsoleError "Image upload failed:") w1)
    as Hlog.
  { intros e w1 r0 w2 E. unfold bind, console, throw in E. now inversion E. }
  assert (forall w0 : World,
            exists_path (uploadsDir eng)
              (record (DbSelectProject pid) w0) = exists_path (uploadsDir eng) w0)
    as Hrec by (intros; apply exists_path_record).
  apply try_catch_inv in H as [(row & H & ->)|(e & w1 & H & Hc)].
  - apply bind_inv in H as [(ps & w1 & H1 & H)|(e & _ & ?)]; [|discriminate].
    apply db_select_project_inv in H1 as [-> [[e ?]|Hps]]; [discriminate|].
    injection Hps as ->.
    destruct (project_rows pid (projects w)) as [|p ps] eqn:Hp; [discriminate|].
    apply bind_inv in H as [([] & w2 & H2 & H)|(e & _ & ?)]; [|discriminate].
    apply ensure_dir_inv in H2 as (P2 & I2 & F2 & D2 & Hd & Dk & Dm).
    specialize (Hd eq_refl). rewrite Hrec in Dk, Dm. simpl in P2, I2, F2, D2, Dk, Dm.
    apply bind_inv in H as [([] & w3 & H3 & H)|(e & _ & ?)]; [|discriminate].
    apply fs_writeFileSync_inv in H3 as (P3 & I3 & D3 & [(e & ? & _)|(_ & F3)]);
      [discriminate|].
    apply db_insert_image_inv in H as (P4 & F4 & D4 & _ & Hrow & I4).
    split; [congruence|]. split; [intros d Hdir; rewrite D4, D3; now apply D2|].
    split; [|split].
    + split; [discriminate|]. split; [eauto|].
      split; [rewrite I4, I3, I2; reflexivity|].
      split; [rewrite F4, F3, F2; reflexivity|].
      unfold exists_path in *. rewrite D4, D3.
      apply orb_true_iff in Hd as [Hd|Hd]; apply orb_true_iff; [left|now right].
      apply bool_decide_eq_true in Hd. apply bool_decide_eq_true.
      rewrite F4, F3. destruct (decide (filePath = uploadsDir eng)) as [->|Hne].
      * rewrite lookup_insert_eq. eauto.
      * now rewrite lookup_insert_ne.
    + intros E. rewrite D4, D3. now apply Dk.
    + rewrite D4, D3. destruct Dm as [->|(E & _ & ->)]; auto.
  - apply Hlog in Hc as [-> ->]. simpl.
    cut (projects w1 = projects w /\ (forall d, d ∈ dirs w -> d ∈ dirs w1) /\
         images w1 = images w /\
         (files w1 = files w \/
          (files w1 = <[ filePath := bytes ]> (files w) /\
           exists t,
             refuse eng t
               (InsertImage pid (UploadImageInput.filename input) filePath
                  (Z.of_nat (length bytes)) (UploadImageInput.mime_type input)
                  (UploadImageInput.order_index input)) = Some e)) /\
         (exists_path (uploadsDir eng) w = true -> dirs w1 = dirs w) /\
         (dirs w1 = dirs w \/
          (exists_path (uploadsDir eng) w = false /\
           dirs w1 = with_parents (uploadsDir eng) ∪ dirs w))).
    { intros (P & D & I & F & Dk & Dm). repeat split; auto. left. }
    apply bind_inv in H as [(ps & w2 & H1 & H)|(e' & H1 & E)].
    2: { apply db_select_project_inv in H1 as [-> _]. simpl. auto 10. }
    apply db_select_project_inv in H1 as [-> _].
    destruct ps as [|p ps]; [inversion H; subst; simpl; auto 10|].
    apply bind_inv in H as [([] & w3 & H2 & H)|(e' & H2 & E)].
    2: { apply ensure_dir_inv in H2 as (P2 & I2 & F2 & D2 & _ & Dk & Dm).
         rewrite Hrec in Dk, Dm. simpl in *.
         do 4 (split; [auto|]). split; [exact Dk|].
         destruct Dm as [->|(E' & _ & ->)]; auto. }
    apply ensure_dir_inv in H2 as (P2 & I2 & F2 & D2 & _ & Dk & Dm).
    rewrite Hrec in Dk, Dm. simpl in P2, I2, F2, D2, Dk, Dm.
    assert (dirs w3 = dirs w \/
            (exists_path (uploadsDir eng) w = false /\
             dirs w3 = with_parents (uploadsDir eng) ∪ dirs w)) as Dm'
      by (destruct Dm as [->|(E' & _ & ->)]; auto).
    apply bind_inv in H as [([] & w4 & H3 & H)|(e' & H3 & E)].
    2: { apply fs_writeFileSync_inv in H3 as (P3 & I3 & D3 & [(e0 & _ & F3)|(? & _)]);
           [|discriminate].
         split; [congruence|]. split; [intros d Hdir; rewrite D3; auto|].
         split; [congruence|]. split; [left; congruence|].
         rewrite D3. auto. }
    apply fs_writeFileSync_inv in H3 as (P3 & I3 & D3 & [(e0 & ? & _)|(_ & F3)]);
      [discriminate|].
    apply db_insert_image_inv in H as (P4 & F4 & D4 & _ & Hr & I4).
    split; [congruence|]. split; [intros d Hdir; rewrite D4, D3; auto|].
    split; [congruence|]. split; [right; split; [congruence|eauto]|].
    rewrite D4, D3. auto.
Qed.

(** X18.  An upload for a project id that has no row writes nothing: the
    handler throws before it creates the directory or the file, both tables
    and the store are as they were, and the failure is logged.  When the
    ledger answers the query the error is [Project with id <id> not found]. *)
Theorem upload_unknown_project env eng input w :
  lookup_project (UploadImageInput.project_id input) (projects w) = None ->
  let run := uploadImage env eng input w in
  ~ succeeded run.1 /\
  projects run.2 = projects w /\ images run.2 = images w /\
  files run.2 = files w /\ dirs run.2 = dirs w /\
  ConsoleError "Image upload failed:" ∈ trace run.2 /\
  (fault env (time w) (DbSelectProject (UploadImageInput.project_id input)) = None ->
   run.1 = Throw (Error ("Project with id " +:+
                         toString (UploadImageInput.project_id input) +:+ " not found"))).
Proof.
  intros Hnone run. subst run.
  unfold uploadImage, try_catch, bind, db_select_project, bind, call, console, throw.
  destruct (fault env (time w) _) as [e|]; simpl.
  - repeat split; auto. left. discriminate.
  - rewrite (project_rows_absent _ _ Hnone). simpl. repeat split; auto. left.
Qed.

Lemma upload_unknown_project_witness :
  let input := UploadImageInput.mk 7 "a.png" "AAAA" "image/png" 0 in
  let run := uploadImage quiet_env sample_engine input sample_world in
  ~ succeeded run.1 /\
  projects run.2 = projects sample_world /\ images run.2 = images sample_world /\
  files run.2 = files sample_world /\ dirs run.2 = dirs sample_world /\
  ConsoleError "Image upload failed:" ∈ trace run.2 /\
  (fault quiet_env (time sample_world) (DbSelectProject 7) = None ->
   run.1 = Throw (Error "Project with id 7 not found")).
Proof.
  apply (upload_unknown_project quiet_env sample_engine
           (UploadImageInput.mk 7 "a.png" "AAAA" "image/png" 0) sample_world).
  vm_compute. reflexivity.
Defined.

(** An upload under a plain file name that nothing stands in the way of:
    the uploads directory is no file, and the target is no directory. *)
Lemma uploadImage_goes_through env eng input w project :
  never_fails env -> engine_reliable eng ->
  lookup_project (UploadImageInput.project_id input) (projects w) = Some project ->
  clean_dir (cwd eng) ->
  plain_name (UploadImageInput.filename input) ->
  files w !! uploadsDir eng = None ->
  path_join (uploadsDir eng) (UploadImageInput.filename input) ∉ dirs w ->
  posix_join [uploadsDir eng; UploadImageInput.filename input]
    = path_join (uploadsDir eng) (UploadImageInput.filename input) /\
  exists row w', uploadImage env eng input w = (Return row, w').
Proof.
  intros Hok Heng Hrow Hcwd Hname Hfile Hnot.
  destruct (uploadsDir_clean eng Hcwd) as [_ Hclean].
  pose proof (posix_join_plain _ _ Hclean Hname) as Hjoin.
  split; [exact Hjoin|].
  unfold uploadImage, try_catch, bind at 1, db_select_project, bind at 1, call.
  rewrite Hok. simpl. unfold lookup_project in Hrow.
  destruct (project_rows _ (projects w)) as [|p ps]; [discriminate|].
  unfold bind at 1. rewrite Hjoin.
  set (U := uploadsDir eng) in *.
  set (n := UploadImageInput.filename input) in *.
  set (w0 := record (DbSelectProject (UploadImageInput.project_id input)) w).
  assert (exists w1,
            (if exists_path U w0 then ret tt w0 else fs_mkdir env U w0)
              = (Return tt, w1) /\
            U ∈ dirs w1 /\ path_join U n ∉ dirs w1) as (w1 & -> & Hd1 & Hn1).
  { unfold exists_path. change (files w0) with (files w).
    change (dirs w0) with (dirs w). rewrite Hfile.
    rewrite (bool_decide_eq_false_2 (is_Some None)) by (intros [? ?]; discriminate).
    simpl. destruct (bool_decide (U ∈ dirs w)) eqn:E.
    - apply bool_decide_eq_true in E. exists w0. auto.
    - rewrite (fs_mkdir_ok env _ _ Hok). eexists. split; [reflexivity|]. simpl. split.
      + apply elem_of_union_l, with_parents_self.
      + intros [H|H]%elem_of_union; [now apply join_not_made in H|contradiction]. }
  rewrite (bind_return _ _ _ _ _
             (fs_writeFileSync_ok env U n _ w1 (Hok _ _) Hname Hd1 Hn1)).
  unfold db_insert_image. rewrite Heng. eauto.
Qed.



(** X20.  Two uploads under the same file name share one file, whichever
    projects they are for: both rows have the same path, and after the
    second upload the file at that path holds the bytes of the second, so
    that the first image shows the content of the second. *)
Theorem same_filename_overwrites env eng input1 input2 w row1 w1 row2 w2 :
  uploadImage env eng input1 w = (Return row1, w1) ->
  uploadImage env eng input2 w1 = (Return row2, w2) ->
  UploadImageInput.filename input1 = UploadImageInput.filename input2 ->
  Image.file_path row1 = Image.file_path row2 /\
  files w2 !! Image.file_path row1
    = Some (from_base64 eng (UploadImageInput.file_data input2)) /\
  row1 ∈ images w2 /\ row2 ∈ images w2.
Proof.
  intros H1 H2 Hname.
  apply uploadImage_inv in H1 as (_ & _ & (_ & [t1 ->] & I1 & _) & _).
  apply uploadImage_inv in H2 as (_ & _ & (_ & [t2 ->] & I2 & F2 & _) & _).
  simpl. split; [now rewrite Hname|].
  split; [rewrite F2, Hname; apply lookup_insert_eq|].
  rewrite I2, I1. split.
  - apply elem_of_app. left. apply elem_of_app. right. left.
  - apply elem_of_app. right. left.
Qed.

Lemma same_filename_overwrites_witness :
  let row1 := Image.mk 103 1 "cat.png" "/app/server/uploads/images/cat.png" 4
                "image/png" 2 1700000000003 in
  let row2 := Image.mk 105 1 "cat.png" "/app/server/uploads/images/cat.png" 4
                "image/png" 3 1700000000005 in
  let w1 := (uploadImage quiet_env sample_engine
               (UploadImageInput.mk 1 "cat.png" "meow" "image/png" 2) sample_world).2 in
  let w2 := (uploadImage quiet_env sample_engine
               (UploadImageInput.mk 1 "cat.png" "woof" "image/png" 3) w1).2 in
  Image.file_path row1 = Image.file_path row2 /\
  files w2 !! Image.file_path row1 = Some (String.list_byte_of_string "woof") /\
  row1 ∈ images w2 /\ row2 ∈ images w2.
Proof.
  intros row1 row2 w1 w2.
  apply (same_filename_overwrites quiet_env sample_engine
           (UploadImageInput.mk 1 "cat.png" "meow" "image/png" 2)
           (UploadImageInput.mk 1 "cat.png" "woof" "image/png" 3)
           sample_world row1 w1 row2 w2).
  - vm_compute. reflexivity.
  - vm_compute. reflexivity.
  - reflexivity.
Defined.

(** X21.  An upload that fails inserts no row and changes no row: the image
    table and the project table are as they were, and the failure is logged.
    The files of the store are as they were too, unless it was the insert
    that threw; the file, written before the insert, then stays in the store
    without a row.  The directories are as they were when the uploads
    directory was there before the call; when it was not, either no
    directory has been made or the uploads directory has, with the
    directories above it, and it stays after the failure. *)
Theorem upload_failure_leaves_no_row env eng input w e w' :
  uploadImage env eng input w = (Throw e, w') ->
  let filePath := posix_join [uploadsDir eng; UploadImageInput.filename input] in
  let bytes := from_base64 eng (UploadImageInput.file_data input) in
  images w' = images w /\ projects w' = projects w /\
  ConsoleError "Image upload failed:" ∈ trace w' /\
  (files w' = files w \/
   (files w' = <[ filePath := bytes ]> (files w) /\
    exists t,
      refuse eng t
        (InsertImage (UploadImageInput.project_id input)
           (UploadImageInput.filename input) filePath (Z.of_nat (length bytes))
           (UploadImageInput.mime_type input) (UploadImageInput.order_index input))
      = Some e)) /\
  (exists_path (uploadsDir eng) w = true -> dirs w' = dirs w) /\
  (dirs w' = dirs w \/
   (exists_path (uploadsDir eng) w = false /\
    dirs w' = with_parents (uploadsDir eng) ∪ dirs w)).
Proof.
  intros H filePath bytes.
  apply uploadImage_inv in H as (P & _ & (I & Hlog & F) & Dk & Dm). auto 10.
Qed.

Lemma upload_failure_leaves_no_row_witness :
  let input := UploadImageInput.mk 1 "" "meow" "image/png" 2 in
  let e := Error "EISDIR: illegal operation on a directory, open '/app/server/uploads/images'" in
  let w' := (uploadImage quiet_env sample_engine input sample_world).2 in
  let filePath := posix_join [uploadsDir sample_engine; ""] in
  let bytes := String.list_byte_of_string "meow" in
  images w' = images sample_world /\ projects w' = projects sample_world /\
  ConsoleError "Image upload failed:" ∈ trace w' /\
  (files w' = files sample_world \/
   (files w' = <[ filePath := bytes ]> (files sample_world) /\
    exists t,
      refuse sample_engine t
        (InsertImage 1 "" filePath (Z.of_nat (length bytes)) "image/png" 2)
      = Some e)) /\
  (exists_path (uploadsDir sample_engine) sample_world = true ->
   dirs w' = dirs sample_world) /\
  (dirs w' = dirs sample_world \/
   (exists_path (uploadsDir sample_engine) sample_world = false /\
    dirs w' = with_parents (uploadsDir sample_engine) ∪ dirs sample_world)).
Proof.
  intros input e w'.
  apply (upload_failure_leaves_no_row quiet_env sample_engine input sample_world e w').
  vm_compute. reflexivity.
Defined.

(** X22.  Uploads keep the images stored: when every row of the image table
    names a file of the store before an upload, so does every row after it,
    the new one included, whether the upload returns or throws. *)
Theorem upload_keeps_images_stored env eng input w :
  Forall (fun img => is_Some (files w !! Image.file_path img)) (images w) ->
  let after := (uploadImage env eng input w).2 in
  Forall (fun img => is_Some (files after !! Image.file_path img)) (images after).
Proof.
  intros Hall after. subst after.
  destruct (uploadImage env eng input w) as [[row|e] w'] eqn:H;
    apply uploadImage_inv in H; simpl.
  - destruct H as (_ & _ & (_ & [t ->] & -> & -> & _) & _). apply Forall_app. split.
    + eapply Forall_impl; [exact Hall|]. intros img [c Hc]. simpl.
      destruct (decide (posix_join [uploadsDir eng; UploadImageInput.filename input]
                        = Image.file_path img)) as [<-|Hne].
      * rewrite lookup_insert_eq. eauto.
      * rewrite lookup_insert_ne by exact Hne. eauto.
    + constructor; [|constructor]. simpl. rewrite lookup_insert_eq. eauto.
  - destruct H as (_ & _ & (-> & _ & [->|[-> _]]) & _); [exact Hall|].
    eapply Forall_impl; [exact Hall|]. intros img [c Hc]. simpl.
    destruct (decide (posix_join [uploadsDir eng; UploadImageInput.filename input]
                      = Image.file_path img)) as [<-|Hne].
    + rewrite lookup_insert_eq. eauto.
    + rewrite lookup_insert_ne by exact Hne. eauto.
Qed.

Lemma upload_keeps_images_stored_witness :
  let after := (uploadImage quiet_env sample_engine
                  (UploadImageInput.mk 1 "cat.png" "meow" "image/png" 2)
                  sample_world).2 in
  Forall (fun img => is_Some (files after !! Image.file_path img)) (images after).
Proof.
  apply (upload_keeps_images_stored quiet_env sample_engine
           (UploadImageInput.mk 1 "cat.png" "meow" "image/png" 2) sample_world).
  repeat constructor; vm_compute; eauto.
Defined.

(** ** From the upload to the video *)

Lemma image_rows_app pid l1 l2 :
  image_rows pid (l1 ++ l2) = image_rows pid l1 ++ image_rows pid l2.
Proof. unfold image_rows. apply List.filter_app. Qed.



(** * The uploader of the client *)

Lemma foldl_max_ge v rest : v <= foldl Z.max v rest.
Proof.
  revert v. induction rest as [|x rest IH]; intros v; simpl; [lia|].
  specialize (IH (Z.max v x)). lia.
Qed.

Lemma foldl_max_bound v rest : Forall (fun x => x <= foldl Z.max v rest) rest.
Proof.
  revert v. induction rest as [|x rest IH]; intros v; simpl; constructor.
  - pose proof (foldl_max_ge (Z.max v x) rest). lia.
  - apply IH.
Qed.

Lemma max_or_minus_one_bound values :
  Forall (fun x => x <= max_or_minus_one values) values.
Proof.
  destruct values as [|v rest]; simpl; constructor.
  - apply foldl_max_ge.
  - apply foldl_max_bound.
Qed.

Lemma getNextOrderIndex_fresh existingImages pendingImages :
  let next := getNextOrderIndex existingImages pendingImages in
  Forall (fun img => Image.order_index img < next) existingImages /\
  Forall (fun img => PendingImage.orderIndex img < next) pendingImages.
Proof.
  intros next. subst next. unfold getNextOrderIndex.
  pose proof (max_or_minus_one_bound (map Image.order_index existingImages)) as He.
  pose proof (max_or_minus_one_bound (map PendingImage.orderIndex pendingImages)) as Hp.
  rewrite List.Forall_map in He, Hp. split.
  - eapply Forall_impl; [exact He|]. intros img H. simpl in H. lia.
  - eapply Forall_impl; [exact Hp|]. intros img H. simpl in H. lia.
Qed.

(** X24.  The order index that the uploader gives to a new image is above
    every order index in use: [getNextOrderIndex] is greater than the order
    index of every existing image and of every pending image, and it is 0
    when there is neither.  A selection of files adds, after the pending
    images there are, one pending image for each file whose type starts with
    [image/], in the order of the selection, and the one of index [k] among
    them gets the order index [getNextOrderIndex() + k]. *)
Theorem selection_gets_fresh_indices now createObjectURL existingImages pendingImages
    files prev :
  let next := getNextOrderIndex existingImages pendingImages in
  let result :=
    handleFileSelect now createObjectURL existingImages pendingImages files prev in
  (Forall (fun img => Image.order_index img < next) existingImages /\
   Forall (fun img => PendingImage.orderIndex img < next) pendingImages /\
   getNextOrderIndex [] [] = 0) /\
  exists added,
    result = prev ++ added /\
    map PendingImage.file added
      = List.filter (fun file => starts_with "image/" (File.type file)) files /\
    forall k img, added !! k = Some img ->
      PendingImage.orderIndex img = next + Z.of_nat k /\
      PendingImage.isUploading img = false.
Proof.
  intros next result.
  destruct (getNextOrderIndex_fresh existingImages pendingImages) as [He Hp].
  split; [auto|]. subst result. unfold handleFileSelect. cbv zeta.
  eexists. split; [reflexivity|]. split.
  - apply list_eq. intros i. rewrite list_lookup_fmap, list_lookup_imap.
    now destruct (_ !! i).
  - intros k img. rewrite list_lookup_imap.
    destruct (_ !! k); intros E; simplify_eq/=. auto.
Qed.

Lemma swap_adjacent {A} (l : list A) i a b :
  l !! i = Some a -> l !! S i = Some b ->
  <[ S i := a ]> (<[ i := b ]> l) ≡ₚ l.
Proof.
  revert i. induction l as [|x l IH]; intros i Ha Hb; [discriminate|].
  destruct i as [|i]; simpl in *.
  - injection Ha as ->. destruct l as [|y l]; [discriminate|].
    simpl in Hb. injection Hb as ->. simpl. apply perm_swap.
  - apply perm_skip. now apply IH.
Qed.

Lemma map_id_imap (f : nat -> Z) (l : list PendingImage.t) :
  map PendingImage.id (imap (fun index img => with_orderIndex (f index) img) l)
  = map PendingImage.id l.
Proof.
  apply list_eq. intros i. rewrite !list_lookup_fmap, list_lookup_imap.
  now destruct (l !! i).
Qed.

Lemma map_file_imap (f : nat -> Z) (l : list PendingImage.t) :
  map PendingImage.file (imap (fun index img => with_orderIndex (f index) img) l)
  = map PendingImage.file l.
Proof.
  apply list_eq. intros i. rewrite !list_lookup_fmap, list_lookup_imap.
  now destruct (l !! i).
Qed.

(** [findIndex] on a list that has an image with the id. *)
Lemma list_find_first id (prev : list PendingImage.t) i moved :
  first_with_id id prev i moved ->
  list_find (fun img => PendingImage.id img = id) prev = Some (i, moved).
Proof.
  intros (Hi & Hid & Hfirst). apply list_find_Some. split; [exact Hi|].
  split; [exact Hid|]. intros k img Hk Hlt. now apply (Hfirst k img).
Qed.

Lemma list_find_absent id (prev : list PendingImage.t) :
  Forall (fun img => PendingImage.id img <> id) prev ->
  list_find (fun img => PendingImage.id img = id) prev = None.
Proof. intros H. now apply list_find_None. Qed.

